(** * nl2sql-mcp-nextjs: the tool handlers of [app/[transport]/route.ts]

    A shallow embedding of the five tool handlers and of the schema loader,
    and the properties of the specification settled against them.

    Strings are [string]s of code units below 256.  A rejected promise or a
    thrown exception is a [Throw]; what the host supplies (the file system,
    the environment, the remote completion model, the date parser) is an
    explicit argument of the handler that uses it. *)

From Stdlib Require Import Bool List Arith ZArith Lia Ascii String.
From Stdlib Require Import DecimalString Floats.
From Stdlib Require Import Reals Lra.
From Stdlib Require Import Permutation Sorted.
Import ListNotations.

Open Scope string_scope.

#[local] Set Warnings "-inexact-float".

(** ** Completions: a value or a thrown exception *)

Inductive completion (A : Type) : Type :=
| Return (a : A)
| Throw (message : string).

Arguments Return {A} a.
Arguments Throw {A} message.

Definition bind {A B : Type} (c : completion A) (k : A -> completion B)
  : completion B :=
  match c with
  | Return a => k a
  | Throw m => Throw m
  end.

Notation "x <- c ;; k" := (bind c (fun x => k))
  (at level 61, c at next level, right associativity).

(** [try { body } catch (error) { handler(error.message) }] *)
Definition try_catch {A : Type} (body : completion A) (handler : string -> A) : A :=
  match body with
  | Return a => a
  | Throw m => handler m
  end.

(** ** Strings *)

Module JSString.

Definition LF : string := String (ascii_of_nat 10) "".
Definition DQUOTE : string := String (ascii_of_nat 34) "".

Fixpoint drop (n : nat) (s : string) : string :=
  match n, s with
  | O, _ => s
  | S n', String _ s' => drop n' s'
  | S _, EmptyString => EmptyString
  end.

Fixpoint take (n : nat) (s : string) : string :=
  match n, s with
  | S n', String c s' => String c (take n' s')
  | _, _ => EmptyString
  end.

Definition is_digit (c : ascii) : bool :=
  let n := nat_of_ascii c in ((48 <=? n) && (n <=? 57))%nat.

Fixpoint all_digits (s : string) : bool :=
  match s with
  | EmptyString => true
  | String c s' => is_digit c && all_digits s'
  end.

(** [s.endsWith(suffix)] *)
Definition endsWith (s suffix : string) : bool :=
  (length suffix <=? length s)%nat
  && (drop (length s - length suffix) s =? suffix).

(** [s.replace(pattern, '')] with a string pattern: the first occurrence
    of [pattern], scanning from the left, is removed; a string without an
    occurrence is returned unchanged. *)
Fixpoint remove_first (pattern s : string) : string :=
  if prefix pattern s then drop (length pattern) s
  else match s with
       | EmptyString => EmptyString
       | String c s' => String c (remove_first pattern s')
       end.

(** [s.replace(/pattern/g, replacement)] for a pattern of literal
    characters and a replacement without [$]: the occurrences are found
    left to right and do not overlap.  [fuel] bounds the scan; the length
    of the string is enough. *)
Fixpoint replace_all_fuel (fuel : nat) (pattern replacement s : string) : string :=
  match fuel with
  | O => s
  | S fuel' =>
      match s with
      | EmptyString => EmptyString
      | String c s' =>
          if prefix pattern s
          then replacement
               ++ replace_all_fuel fuel' pattern replacement (drop (length pattern) s)
          else String c (replace_all_fuel fuel' pattern replacement s')
      end
  end.

Definition replace_all (pattern replacement s : string) : string :=
  replace_all_fuel (length s) pattern replacement s.

Fixpoint repeat_char (c : ascii) (n : nat) : string :=
  match n with
  | O => EmptyString
  | S n' => String c (repeat_char c n')
  end.

(** [s.padStart(targetLength, '0')] *)
Definition padStart0 (targetLength : nat) (s : string) : string :=
  repeat_char "0"%char (targetLength - length s) ++ s.

(** White space among the code units below 256 (TAB, LF, VT, FF, CR,
    SP, NBSP). *)
Definition is_white_space (c : ascii) : bool :=
  let n := nat_of_ascii c in
  ((9 <=? n) && (n <=? 13) || (n =? 32) || (n =? 160))%nat.

Fixpoint trimStart (s : string) : string :=
  match s with
  | String c s' => if is_white_space c then trimStart s' else s
  | EmptyString => EmptyString
  end.

Fixpoint trimEnd (s : string) : string :=
  match s with
  | EmptyString => EmptyString
  | String c s' =>
      match trimEnd s' with
      | EmptyString => if is_white_space c then EmptyString else String c EmptyString
      | t => String c t
      end
  end.

Definition trim (s : string) : string := trimEnd (trimStart s).

End JSString.
Import JSString.

(** ** Plain objects used as string-keyed records

    [Record<string, string>] values are created by [{}] and filled by
    [o[k] = v].  The own properties are kept in creation order;
    [Object.keys] and [Object.entries] list the keys that are array
    indices first, in ascending numeric order, and then the other keys in
    creation order. *)

Module JSObject.

Definition t : Type := list (string * string).

Definition empty : t := [].

Fixpoint update (k v : string) (o : t) : option t :=
  match o with
  | [] => None
  | (k', v') :: o' =>
      if k' =? k then Some ((k', v) :: o')
      else match update k v o' with
           | Some o'' => Some ((k', v') :: o'')
           | None => None
           end
  end.

(** [o[k] = v] on an object whose prototype is [Object.prototype]: the
    key [__proto__] reaches the inherited setter, which ignores a value
    that is not an object; any other key is updated in place or created
    last. *)
Definition set (k v : string) (o : t) : t :=
  if k =? "__proto__" then o
  else match update k v o with
       | Some o' => o'
       | None => (o ++ [(k, v)])%list
       end.

Fixpoint digits_value (acc : N) (s : string) : option N :=
  match s with
  | EmptyString => Some acc
  | String c s' =>
      if is_digit c
      then digits_value (10 * acc + N.of_nat (nat_of_ascii c - 48))%N s'
      else None
  end.

(** A key is an array index when it is the canonical decimal form of an
    integer in [0, 2^32 - 2]. *)
Definition array_index (k : string) : option N :=
  match k with
  | EmptyString => None
  | String c rest =>
      if (c =? "0")%char && negb (rest =? "") then None
      else match digits_value 0 k with
           | Some n => if (n <=? 4294967294)%N then Some n else None
           | None => None
           end
  end.

Fixpoint insert_index (n : N) (kv : string * string)
  (l : list (N * (string * string))) : list (N * (string * string)) :=
  match l with
  | [] => [(n, kv)]
  | (m, kv') :: l' =>
      if (n <=? m)%N then (n, kv) :: l else (m, kv') :: insert_index n kv l'
  end.

Fixpoint split_keys (o : t)
  : list (N * (string * string)) * list (string * string) :=
  match o with
  | [] => ([], [])
  | (k, v) :: o' =>
      let (ix, rest) := split_keys o' in
      match array_index k with
      | Some n => (insert_index n (k, v) ix, rest)
      | None => (ix, (k, v) :: rest)
      end
  end.

(** [Object.entries(o)] *)
Definition entries (o : t) : list (string * string) :=
  let (ix, rest) := split_keys o in (map snd ix ++ rest)%list.

(** [Object.keys(o)] *)
Definition keys (o : t) : list string := map fst (entries o).

End JSObject.

(** ** Numbers

    A Number is an IEEE 754 binary64 value: the kernel's [float], with its
    arithmetic.  [Number::toString] and [Number.prototype.toFixed] work on
    the exact value [m * 2^e] of a finite float, read off by [Prim2SF]. *)

Module Number.

#[local] Open Scope Z_scope.

(** The decimal digits of a natural number *)
Definition decimal (n : N) : string := NilZero.string_of_uint (N.to_uint n).

Definition zeros (n : nat) : string := repeat_char "0"%char n.

(** The rational [x * 2^e2 * 10^e10] as a fraction of two integers *)
Definition numerator (x e2 e10 : Z) : Z := x * 2 ^ Z.max e2 0 * 10 ^ Z.max e10 0.
Definition denominator (e2 e10 : Z) : Z := 2 ^ Z.max (- e2) 0 * 10 ^ Z.max (- e10) 0.

Definition floor_scaled (x e2 e10 : Z) : Z :=
  numerator x e2 e10 / denominator e2 e10.

Definition ceil_scaled (x e2 e10 : Z) : Z :=
  - ((- numerator x e2 e10) / denominator e2 e10).

(** The nearest integer, a tie going to the even one *)
Definition nearest_even (x e2 e10 : Z) : Z :=
  let q := floor_scaled x e2 e10 in
  let r := numerator x e2 e10 mod denominator e2 e10 in
  match 2 * r ?= denominator e2 e10 with
  | Lt => q
  | Gt => q + 1
  | Eq => if Z.even q then q else q + 1
  end.

(** The nearest integer, a tie going to the larger one *)
Definition nearest_up (x e2 e10 : Z) : Z :=
  let q := floor_scaled x e2 e10 in
  let r := numerator x e2 e10 mod denominator e2 e10 in
  if 2 * r <? denominator e2 e10 then q else q + 1.

(** The [n] with [10^(n-1) <= x * 2^e < 10^n], found next to its estimate
    from the binary logarithm. *)
Definition decimal_exponent (x e : Z) : Z :=
  let est := ((Z.log2 x + e) * 30103) / 100000 in
  let below n := floor_scaled x e (- n) <? 1 in
  if below (est - 1) then est - 1
  else if below est then est
  else if below (est + 1) then est + 1
  else if below (est + 2) then est + 2
  else est + 3.

(** The shortest decimal [s * 10^p] that reads back as the float
    [m * 2^e], the closest to it among the decimals of that length: with
    [k] digits, [s] ranges over the integers whose decimal lies in the
    rounding interval of the float, which is closed when [m] is even. *)
Fixpoint shortest (fuel : nat) (k : Z) (m e n : Z) : Z * Z :=
  let p := n - k in
  let lo := if (m =? 2 ^ 52) && (-1074 <? e) then 4 * m - 1 else 4 * m - 2 in
  let hi := 4 * m + 2 in
  let smin := if Z.even m then ceil_scaled lo (e - 2) (- p)
              else floor_scaled lo (e - 2) (- p) + 1 in
  let smax := if Z.even m then floor_scaled hi (e - 2) (- p)
              else ceil_scaled hi (e - 2) (- p) - 1 in
  let s := Z.min smax (Z.max smin (nearest_even m e (- p))) in
  match fuel with
  | O => (s, p)
  | S fuel' => if smin <=? smax then (s, p) else shortest fuel' (k + 1) m e n
  end.

Fixpoint strip_zeros (fuel : nat) (s : Z) : Z :=
  match fuel with
  | O => s
  | S fuel' =>
      if (s mod 10 =? 0) && (0 <? s) then strip_zeros fuel' (s / 10) else s
  end.

(** [Number::toString] of the positive finite value [m * 2^e] *)
Definition toString_finite (m e : Z) : string :=
  let '(s, p) := shortest 16 1 m e (decimal_exponent m e) in
  let n := p + Z.of_nat (length (decimal (Z.to_N s))) in
  let digits := decimal (Z.to_N (strip_zeros 20 s)) in
  let k := Z.of_nat (length digits) in
  if (k <=? n) && (n <=? 21) then digits ++ zeros (Z.to_nat (n - k))
  else if (0 <? n) && (n <=? 21)
  then take (Z.to_nat n) digits ++ "." ++ drop (Z.to_nat n) digits
  else if (-6 <? n) && (n <=? 0) then "0." ++ zeros (Z.to_nat (- n)) ++ digits
  else
    let exponent :=
      (if n - 1 <? 0 then "-" else "+") ++ decimal (Z.to_N (Z.abs (n - 1))) in
    if k =? 1 then digits ++ "e" ++ exponent
    else take 1 digits ++ "." ++ drop 1 digits ++ "e" ++ exponent.

(** [String(x)], [`${x}`], [x.toString()] *)
Definition toString (x : float) : string :=
  match Prim2SF x with
  | S754_nan => "NaN"
  | S754_zero _ => "0"
  | S754_infinity s => if s then "-Infinity" else "Infinity"
  | S754_finite s m e => (if s then "-" else "") ++ toString_finite (Zpos m) e
  end.

(** The digits of [n] with a point before the last four, padded with
    zeros to at least one digit before the point. *)
Definition fixed4_digits (n : N) : string :=
  let d := decimal n in
  let d := zeros (5 - length d) ++ d in
  take (length d - 4) d ++ "." ++ drop (length d - 4) d.

(** [x.toFixed(4)] *)
Definition toFixed4 (x : float) : string :=
  match Prim2SF x with
  | S754_nan => "NaN"
  | S754_infinity s => if s then "-Infinity" else "Infinity"
  | S754_zero _ => fixed4_digits 0
  | S754_finite s m e =>
      (if s then "-" else "")
      ++ (if 1 <=? floor_scaled (Zpos m) e (-21) then toString_finite (Zpos m) e
          else fixed4_digits (Z.to_N (nearest_up (Zpos m) e 4)))
  end.

(** A finite value whose magnitude is below [10^21]: the values
    [toFixed] writes in fixed notation. *)
Definition in_fixed_range (x : float) : bool :=
  match Prim2SF x with
  | S754_zero _ => true
  | S754_finite _ m e => floor_scaled (Zpos m) e (-21) <? 1
  | _ => false
  end.

End Number.

(** ** Schema Loader (route.ts, lines 16-36) *)

Record FileSystem : Type := {
  (** [fs.readdir(dir)]: the names in the directory, or a rejection *)
  readdir : string -> completion (list string);
  (** [fs.readFile(path, 'utf-8')]: the contents, or a rejection *)
  readFile : string -> completion string
}.

(** [path.join(a, b)] for a normalized directory and a plain name *)
Definition join (a b : string) : string := a ++ "/" ++ b.

(** The body of the [for ... of] loop, from the files still to visit and the
    object built so far.  A rejected [readFile] leaves the loop. *)
Fixpoint load_files (fs : FileSystem) (schemasDir : string)
  (schemaFiles : list string) (schemas : JSObject.t) : completion JSObject.t :=
  match schemaFiles with
  | [] => Return schemas
  | file :: rest =>
      if endsWith file ".sql" then
        let tableName := remove_first ".sql" file in
        let filePath := join schemasDir file in
        content <- readFile fs filePath ;;
        load_files fs schemasDir rest (JSObject.set tableName content schemas)
      else load_files fs schemasDir rest schemas
  end.

Definition schemas_dir (cwd : string) : string := join (join cwd "app") "schemas".

Definition loadDatabaseSchemas (fs : FileSystem) (cwd : string) : JSObject.t :=
  let schemasDir := schemas_dir cwd in
  try_catch
    (schemaFiles <- readdir fs schemasDir ;;
     load_files fs schemasDir schemaFiles JSObject.empty)
    (fun _ => JSObject.empty).

(** ** The nl-to-sql tool (route.ts, lines 177-224) *)

(** [process.env.GEMINI_API_KEY || ''] *)
Definition GEMINI_API_KEY (env : option string) : string :=
  match env with
  | Some key => key
  | None => ""
  end.

(** A tool result: the [text] of each content segment, in order. *)
Definition tool_result : Type := list string.

Definition missing_key_error : string :=
  "Error: GEMINI_API_KEY is not set in environment variables. The nl-to-sql tool cannot function without it.".

Definition no_schemas_error : string :=
  "Error: Database schemas not loaded. Please ensure SQL schema files exist in the app/schemas directory.".

(** Lines 193-204: the prompt, built by successive [+=]. *)
Definition assemble_prompt (databaseSchemas : JSObject.t) (query : string) : string :=
  let promptText :=
    "You are a SQL expert that converts natural language queries to precise SQL. " in
  let promptText := promptText ++ ("Based on the following database schema:" ++ LF ++ LF) in
  let promptText :=
    fold_left
      (fun promptText '(tableName, ddl) =>
         promptText ++ ("Table: " ++ tableName ++ LF ++ ddl ++ LF ++ LF))
      (JSObject.entries databaseSchemas) promptText in
  let promptText :=
    promptText ++ ("Convert this natural language query to valid SQL:" ++ LF
                   ++ DQUOTE ++ query ++ DQUOTE ++ LF ++ LF) in
  promptText ++ "Respond only with the SQL query, no explanation or other text.".

(** The handler.  [generateContent] is the remote completion model: the text
    of its response for a prompt, or the exception of a failed call.  The
    second component of the result lists the prompts sent to it. *)
Definition nl_to_sql (key : string) (databaseSchemas : JSObject.t)
  (generateContent : string -> completion string) (query : string)
  : tool_result * list string :=
  if key =? "" then ([missing_key_error], [])
  else if (List.length (JSObject.keys databaseSchemas) =? 0)%nat
  then ([no_schemas_error], [])
  else
    let promptText := assemble_prompt databaseSchemas query in
    (try_catch
       (text <- generateContent promptText ;;
        let sqlQuery := trim text in
        Return [sqlQuery;
                LF ++ LF ++ "Generated from natural language query: " ++ query])
       (fun errorMessage =>
          ["Error generating SQL from natural language: " ++ errorMessage]),
     [promptText]).

(** ** The convert tool (route.ts, lines 108-136) *)

(** The string-keyed properties of [Object.prototype], which every object
    literal inherits. *)
Inductive proto_member : Type :=
| pm_constructor | pm_defineGetter | pm_defineSetter | pm_hasOwnProperty
| pm_lookupGetter | pm_lookupSetter | pm_isPrototypeOf
| pm_propertyIsEnumerable | pm_toString | pm_valueOf | pm_proto
| pm_toLocaleString.

Definition Object_prototype_members : list (string * proto_member) :=
  [("constructor", pm_constructor);
   ("__defineGetter__", pm_defineGetter);
   ("__defineSetter__", pm_defineSetter);
   ("hasOwnProperty", pm_hasOwnProperty);
   ("__lookupGetter__", pm_lookupGetter);
   ("__lookupSetter__", pm_lookupSetter);
   ("isPrototypeOf", pm_isPrototypeOf);
   ("propertyIsEnumerable", pm_propertyIsEnumerable);
   ("toString", pm_toString);
   ("valueOf", pm_valueOf);
   ("__proto__", pm_proto);
   ("toLocaleString", pm_toLocaleString)].

Fixpoint own {A : Type} (name : string) (o : list (string * A)) : option A :=
  match o with
  | [] => None
  | (k, a) :: o' => if k =? name then Some a else own name o'
  end.

(** The result of the property read [o[name]] on an object literal: an own
    property, a property inherited from [Object.prototype], or
    [undefined]. *)
Inductive property (A : Type) : Type :=
| Own (a : A)
| Inherited (member : proto_member)
| Undefined.

Arguments Own {A} a.
Arguments Inherited {A} member.
Arguments Undefined {A}.

Definition get {A : Type} (o : list (string * A)) (name : string) : property A :=
  match own name o with
  | Some a => Own a
  | None =>
      match own name Object_prototype_members with
      | Some member => Inherited member
      | None => Undefined
      end
  end.

(** Whether [name] is a property every object literal inherits *)
Definition inherited (name : string) : bool :=
  match own name Object_prototype_members with
  | Some _ => true
  | None => false
  end.

(** Lines 110-117 *)
Definition conversions : list (string * list (string * (float -> float))) :=
  [("celsius", [("fahrenheit", fun c => (c * 9 / 5 + 32)%float)]);
   ("fahrenheit", [("celsius", fun f => ((f - 32) * 5 / 9)%float)]);
   ("kilometers", [("miles", fun km => (km * 0.621371)%float)]);
   ("miles", [("kilometers", fun mi => (mi * 1.60934)%float)]);
   ("kilograms", [("pounds", fun kg => (kg * 2.20462)%float)]);
   ("pounds", [("kilograms", fun lb => (lb * 0.453592)%float)])].

(** [Number(row[toUnit](value))] when [row[toUnit]] is inherited from
    [Object.prototype] by a row with the own keys [row_keys]:
    [Object(value)] wraps the number; [toString], [toLocaleString] and
    [valueOf] lead to [Number("[object Object]")]; the three tests answer
    [false] unless [String(value)] is an own key; the two lookups return
    [undefined]; the two definers throw for want of a function; and
    [__proto__] is an object, which cannot be called.  The messages are
    V8's. *)
Definition call_inherited (row_keys : list string) (member : proto_member)
  (value : float) : completion float :=
  match member with
  | pm_constructor => Return value
  | pm_toString | pm_toLocaleString | pm_valueOf => Return nan
  | pm_hasOwnProperty | pm_propertyIsEnumerable =>
      Return (if existsb (String.eqb (Number.toString value)) row_keys
              then 1%float else 0%float)
  | pm_isPrototypeOf => Return 0%float
  | pm_lookupGetter | pm_lookupSetter => Return nan
  | pm_defineGetter =>
      Throw "Object.prototype.__defineGetter__: Expecting function"
  | pm_defineSetter =>
      Throw "Object.prototype.__defineSetter__: Expecting function"
  | pm_proto => Throw "conversions[fromUnit][toUnit] is not a function"
  end.

(** What [conversions[fromUnit][toUnit]] is and does when
    [conversions[fromUnit]] is itself a member of [Object.prototype]
    depends on the properties the engine gives its built-in functions:
    [None] when the property is missing or falsy, else the completion of
    [Number(member[toUnit](value))]. *)
Definition builtin_members : Type :=
  proto_member -> string -> float -> option (completion float).

Definition convert (builtins : builtin_members) (value : float)
  (fromUnit toUnit : string) : tool_result :=
  let unsupported :=
    ["Error: Conversion from " ++ fromUnit ++ " to " ++ toUnit
     ++ " is not supported."] in
  let converted (result : float) :=
    let formatted := Number.toFixed4 result in
    [Number.toString value ++ " " ++ fromUnit ++ " = " ++ formatted
     ++ " " ++ toUnit] in
  try_catch
    (match get conversions fromUnit with
     | Undefined => Return unsupported
     | Own row =>
         match get row toUnit with
         | Undefined => Return unsupported
         | Own conversion => Return (converted (conversion value))
         | Inherited member =>
             result <- call_inherited (map fst row) member value ;;
             Return (converted result)
         end
     | Inherited member =>
         match builtins member toUnit value with
         | None => Return unsupported
         | Some call => result <- call ;; Return (converted result)
         end
     end)
    (fun errorMessage => ["Error during conversion: " ++ errorMessage]).

(** An engine for inputs whose [fromUnit] is not a member of
    [Object.prototype]: its argument of [convert] is then not consulted. *)
Definition no_builtin_members : builtin_members := fun _ _ _ => None.

(** ** The format-date tool (route.ts, lines 50-65 and 147-160) *)

(** A Date holds a time value or NaN.  Of a valid Date the handler
    observes the local-time fields and the ISO rendering. *)
Record DateFields : Type := {
  fullYear : Z;
  month : Z;
  day : Z;
  hours : Z;
  minutes : Z;
  seconds : Z;
  isoString : string
}.

Inductive JSDate : Type :=
| ValidDate (fields : DateFields)
| InvalidDate.

(** What the host supplies: [new Date(text)] and [new Date()]. *)
Record DateHost : Type := {
  Date_parse : string -> JSDate;
  Date_now : DateFields
}.

(** A getter such as [date.getFullYear()]: an integer, or NaN ([None]) on
    an invalid Date. *)
Definition getter (field : DateFields -> Z) (date : JSDate) : option Z :=
  match date with
  | ValidDate fields => Some (field fields)
  | InvalidDate => None
  end.

(** [n + 1] *)
Definition plus_one (n : option Z) : option Z :=
  match n with
  | Some z => Some (z + 1)%Z
  | None => None
  end.

(** [n.toString()] for an integer or NaN *)
Definition integer_toString (n : option Z) : string :=
  match n with
  | Some z => (if (z <? 0)%Z then "-" else "") ++ Number.decimal (Z.abs_N z)
  | None => "NaN"
  end.

(** [date.toISOString()] *)
Definition toISOString (date : JSDate) : completion string :=
  match date with
  | ValidDate fields => Return (isoString fields)
  | InvalidDate => Throw "Invalid time value"
  end.

Definition formatDate (date : JSDate) (format : string) : string :=
  let year := integer_toString (getter fullYear date) in
  let month := padStart0 2 (integer_toString (plus_one (getter month date))) in
  let day := padStart0 2 (integer_toString (getter day date)) in
  let hours := padStart0 2 (integer_toString (getter hours date)) in
  let minutes := padStart0 2 (integer_toString (getter minutes date)) in
  let seconds := padStart0 2 (integer_toString (getter seconds date)) in
  replace_all "ss" seconds
    (replace_all "mm" minutes
       (replace_all "HH" hours
          (replace_all "DD" day
             (replace_all "MM" month
                (replace_all "YYYY" year format))))).

(** An optional string argument is truthy when present and not empty. *)
Definition truthy (s : option string) : option string :=
  match s with
  | Some text => if text =? "" then None else Some text
  | None => None
  end.

Definition format_date (host : DateHost) (date format : option string)
  : tool_result :=
  try_catch
    (let inputDate :=
       match truthy date with
       | Some text => Date_parse host text
       | None => ValidDate (Date_now host)
       end in
     formattedDate <-
       match truthy format with
       | Some pattern => Return (formatDate inputDate pattern)
       | None => toISOString inputDate
       end ;;
     Return [formattedDate])
    (fun errorMessage => ["Error formatting date: " ++ errorMessage]).

(** ** The calculate tool (route.ts, lines 84-97) *)

(** *** The character class of the sanitizing pattern *)

Inductive class_item : Type :=
| ClassChar (c : ascii)
| ClassRange (first last : ascii).

Definition class_matches (items : list class_item) (c : ascii) : bool :=
  existsb
    (fun item =>
       match item with
       | ClassChar d => (c =? d)%char
       | ClassRange first last =>
           ((nat_of_ascii first <=? nat_of_ascii c)
            && (nat_of_ascii c <=? nat_of_ascii last))%nat
       end)
    items.

(** The items between [[^] and []] in [/[^-()*+/0-9.]/g] *)
Definition kept_class : list class_item :=
  [ClassChar "-"; ClassChar "("; ClassChar ")"; ClassChar "*"; ClassChar "+";
   ClassChar "/"; ClassRange "0" "9"; ClassChar "."].

(** [s.replace(/[^...]/g, '')]: every character the negated class matches
    is removed. *)
Fixpoint remove_matching (matches : ascii -> bool) (s : string) : string :=
  match s with
  | EmptyString => EmptyString
  | String c s' =>
      if matches c then remove_matching matches s'
      else String c (remove_matching matches s')
  end.

Definition sanitize (expression : string) : string :=
  remove_matching (fun c => negb (class_matches kept_class c)) expression.

(** *** [eval] on strings of the kept characters

    The source text is strict-mode code.  With these characters it can
    hold decimal literals, the operators [+ - * / **], parentheses,
    comments, regular-expression literals without flags, the tokens
    [++ -- . ...] (which no program of this alphabet can use), and calls,
    which throw because nothing callable can be written. *)

Module JSEval.

Inductive punctuator : Type :=
| LParen | RParen | Plus | Minus | Star | Slash | StarStar
| PlusPlus | MinusMinus | Dot | Ellipsis.

Inductive token : Type :=
| TNumber (x : float)
| TRegExp (body : string)
| TPunct (p : punctuator).

(** The result of a function that recurses on fuel *)
Inductive parsing (A : Type) : Type :=
| OutOfFuel
| Rejected
| Accepted (a : A).

Arguments OutOfFuel {A}.
Arguments Rejected {A}.
Arguments Accepted {A} a.

Definition andThen {A B : Type} (p : parsing A) (k : A -> parsing B) : parsing B :=
  match p with
  | OutOfFuel => OutOfFuel
  | Rejected => Rejected
  | Accepted a => k a
  end.

(** The longest prefix of digits, and the rest *)
Fixpoint span_digits (s : string) : string * string :=
  match s with
  | String c s' =>
      if is_digit c then let (d, r) := span_digits s' in (String c d, r)
      else (EmptyString, s)
  | EmptyString => (EmptyString, EmptyString)
  end.

(** The text up to the next [/], and the text after it *)
Fixpoint span_to_slash (s : string) : option (string * string) :=
  match s with
  | EmptyString => None
  | String c s' =>
      if (c =? "/")%char then Some (EmptyString, s')
      else match span_to_slash s' with
           | Some (body, r) => Some (String c body, r)
           | None => None
           end
  end.

(** The text after the [*/] that closes a comment *)
Fixpoint skip_comment (s : string) : option string :=
  match s with
  | EmptyString => None
  | String c s' =>
      match s' with
      | String d s'' =>
          if ((c =? "*") && (d =? "/"))%char then Some s'' else skip_comment s'
      | EmptyString => None
      end
  end.

Fixpoint digits_value (acc : N) (s : string) : N :=
  match s with
  | EmptyString => acc
  | String c s' =>
      digits_value (10 * acc + N.of_nat (nat_of_ascii c - 48))%N s'
  end.

(** The Number nearest to [num / den], a tie going to the even one *)
Definition round_ratio (num den : positive) : float :=
  let '(q, e, l) := SFdiv_core_binary prec emax (Zpos num) 0 (Zpos den) 0 in
  SF2Prim (binary_round_aux prec emax false q e l).

(** The value of the literal with the digits [integer] before the point
    and [fraction] after it *)
Definition literal_value (integer fraction : string) : float :=
  match digits_value 0 (integer ++ fraction) with
  | N0 => 0%float
  | Npos mantissa => round_ratio mantissa (Z.to_pos (10 ^ Z.of_nat (length fraction)))
  end.

(** A pattern of the characters [- ( ) * + .] and digits is well formed
    when its parentheses match and each [*] or [+] follows an atom:
    [depth] counts the open groups, [atom] tells whether a quantifier may
    come next. *)
Fixpoint valid_pattern (depth : nat) (atom : bool) (body : string) : bool :=
  match body with
  | EmptyString => (depth =? 0)%nat
  | String c body' =>
      if (c =? "(")%char then valid_pattern (S depth) false body'
      else if (c =? ")")%char then
        match depth with
        | O => false
        | S depth' => valid_pattern depth' true body'
        end
      else if ((c =? "*") || (c =? "+"))%char then
        atom && valid_pattern depth false body'
      else valid_pattern depth true body'
  end.

Definition starts_with (c : ascii) (s : string) : bool :=
  match s with
  | String d _ => (d =? c)%char
  | EmptyString => false
  end.

Definition starts_with_digit (s : string) : bool :=
  match s with
  | String d _ => is_digit d
  | EmptyString => false
  end.

(** A decimal literal at the head of [s] and the text after it; none when
    the integer part has a leading zero, which strict code forbids. *)
Definition scan_number (s : string) : option (float * string) :=
  let (integer, r) := span_digits s in
  let (fraction, rest) :=
    if starts_with "." r then span_digits (drop 1 r) else (EmptyString, r) in
  if starts_with "0" integer && (1 <? length integer)%nat then None
  else Some (literal_value integer fraction, rest).

(** A regular-expression literal after its opening [/]: the body, no
    flags (a digit after the closing [/] would be one, and no digit is a
    flag), and a well-formed pattern. *)
Definition scan_regexp (s : string) : option (string * string) :=
  match span_to_slash s with
  | Some (body, r) =>
      if negb (starts_with_digit r) && valid_pattern 0 false body
      then Some (body, r)
      else None
  | None => None
  end.

(** The tokens of [s].  [operand] tells whether the previous token ends an
    operand, in which case a [/] divides; elsewhere it opens a
    regular-expression literal.  [//] opens a comment that runs to the end
    of the text, [/*] one that runs to the next [*/]. *)
Fixpoint lex (fuel : nat) (operand : bool) (s : string) : parsing (list token) :=
  match fuel with
  | O => OutOfFuel
  | S fuel' =>
      let emit t operand' rest :=
        andThen (lex fuel' operand' rest) (fun ts => Accepted (t :: ts)) in
      match s with
      | EmptyString => Accepted []
      | String c s' =>
          if (c =? "(")%char then emit (TPunct LParen) false s'
          else if (c =? ")")%char then emit (TPunct RParen) true s'
          else if (c =? "+")%char then
            if starts_with "+" s' then emit (TPunct PlusPlus) false (drop 1 s')
            else emit (TPunct Plus) false s'
          else if (c =? "-")%char then
            if starts_with "-" s' then emit (TPunct MinusMinus) false (drop 1 s')
            else emit (TPunct Minus) false s'
          else if (c =? "*")%char then
            if starts_with "*" s' then emit (TPunct StarStar) false (drop 1 s')
            else emit (TPunct Star) false s'
          else if (c =? "/")%char then
            if starts_with "/" s' then Accepted []
            else if starts_with "*" s' then
              match skip_comment (drop 1 s') with
              | Some rest => lex fuel' operand rest
              | None => Rejected
              end
            else if operand then emit (TPunct Slash) false s'
            else
              match scan_regexp s' with
              | Some (body, rest) => emit (TRegExp body) true rest
              | None => Rejected
              end
          else if (c =? ".")%char && negb (starts_with_digit s') then
            if prefix ".." s' then emit (TPunct Ellipsis) false (drop 2 s')
            else emit (TPunct Dot) false s'
          else if is_digit c || (c =? ".")%char then
            match scan_number s with
            | Some (x, rest) => emit (TNumber x) true rest
            | None => Rejected
            end
          else Rejected
      end
  end.

Inductive unary_operator : Type := UPlus | UMinus.

Inductive binary_operator : Type := Add | Sub | Mul | Div | Exp.

Inductive expr : Type :=
| Num (x : float)
| RegExp (body : string)
| Unary (op : unary_operator) (e : expr)
| Binary (op : binary_operator) (l r : expr)
| Call (callee : expr)
| CallWith (callee : expr) (spread : bool) (argument : expr).

(** A binary operator, its precedence, and the least precedence of its
    right operand ([**] associates to the right). *)
Definition binary (p : punctuator) : option (binary_operator * nat * nat) :=
  match p with
  | Plus => Some (Add, 1, 2)
  | Minus => Some (Sub, 1, 2)
  | Star => Some (Mul, 2, 3)
  | Slash => Some (Div, 2, 3)
  | StarStar => Some (Exp, 3, 3)
  | _ => None
  end%nat.

Definition expect_rparen {A : Type} (ts : list token)
  (k : list token -> parsing A) : parsing A :=
  match ts with
  | TPunct RParen :: ts' => k ts'
  | _ => Rejected
  end.

(** The parser, by precedence climbing.  [expression min] reads a unary
    expression and then the binary operators of precedence [min] or more;
    the flag next to an operand tells whether it is a unary [+] or [-]
    expression, which cannot be the base of [**]; [call_tail] reads the
    argument lists that follow a primary expression. *)
Fixpoint expression (fuel : nat) (min : nat) (ts : list token)
  : parsing (expr * list token) :=
  match fuel with
  | O => OutOfFuel
  | S fuel' =>
      andThen (unary fuel' ts)
        (fun '(lhs, is_unary, rest) => climb fuel' min lhs is_unary rest)
  end
with climb (fuel : nat) (min : nat) (lhs : expr) (is_unary : bool)
  (ts : list token) : parsing (expr * list token) :=
  match fuel with
  | O => OutOfFuel
  | S fuel' =>
      match ts with
      | TPunct p :: ts' =>
          match binary p with
          | Some (op, precedence, right_min) =>
              if (min <=? precedence)%nat then
                match op, is_unary with
                | Exp, true => Rejected
                | _, _ =>
                    andThen (expression fuel' right_min ts')
                      (fun '(rhs, rest) =>
                         climb fuel' min (Binary op lhs rhs) false rest)
                end
              else Accepted (lhs, ts)
          | None => Accepted (lhs, ts)
          end
      | _ => Accepted (lhs, ts)
      end
  end
with unary (fuel : nat) (ts : list token)
  : parsing (expr * bool * list token) :=
  match fuel with
  | O => OutOfFuel
  | S fuel' =>
      let operator op ts' :=
        andThen (unary fuel' ts')
          (fun '(e, _, rest) => Accepted (Unary op e, true, rest)) in
      let primary e rest :=
        andThen (call_tail fuel' e rest)
          (fun '(e', rest') => Accepted (e', false, rest')) in
      match ts with
      | TPunct Plus :: ts' => operator UPlus ts'
      | TPunct Minus :: ts' => operator UMinus ts'
      | TNumber x :: ts' => primary (Num x) ts'
      | TRegExp body :: ts' => primary (RegExp body) ts'
      | TPunct LParen :: ts' =>
          andThen (expression fuel' 1 ts')
            (fun '(e, rest) => expect_rparen rest (primary e))
      | _ => Rejected
      end
  end
with call_tail (fuel : nat) (callee : expr) (ts : list token)
  : parsing (expr * list token) :=
  match fuel with
  | O => OutOfFuel
  | S fuel' =>
      let argument spread ts' :=
        andThen (expression fuel' 1 ts')
          (fun '(a, rest) =>
             expect_rparen rest
               (call_tail fuel' (CallWith callee spread a))) in
      match ts with
      | TPunct LParen :: TPunct RParen :: ts' =>
          call_tail fuel' (Call callee) ts'
      | TPunct LParen :: TPunct Ellipsis :: ts' => argument true ts'
      | TPunct LParen :: ts' => argument false ts'
      | _ => Accepted (callee, ts)
      end
  end.

(** A script: nothing, or one expression statement *)
Definition script (ts : list token) : parsing (option expr) :=
  match ts with
  | [] => Accepted None
  | _ =>
      andThen (expression (3 * List.length ts + 3) 1 ts)
        (fun '(e, rest) =>
           match rest with
           | [] => Accepted (Some e)
           | _ => Rejected
           end)
  end.

Inductive value : Type :=
| VUndefined
| VNumber (x : float)
| VString (s : string)
| VRegExp (body : string).

(** [ToString] *)
Definition ToString (v : value) : string :=
  match v with
  | VUndefined => "undefined"
  | VNumber x => Number.toString x
  | VString s => s
  | VRegExp body => "/" ++ body ++ "/"
  end.

(** [ToNumber].  A string an expression of this alphabet produces comes
    from a regular expression and holds a [/]: it is not a numeric
    string. *)
Definition ToNumber (v : value) : float :=
  match v with
  | VNumber x => x
  | _ => nan
  end.

Definition is_number (v : value) : bool :=
  match v with
  | VNumber _ => true
  | _ => false
  end.

(** The operators.  [exponentiate] is [Number::exponentiate], which the
    engine approximates. *)
Definition apply_binary (exponentiate : float -> float -> float)
  (op : binary_operator) (l r : value) : value :=
  match op with
  | Add =>
      if is_number l && is_number r
      then VNumber (ToNumber l + ToNumber r)%float
      else VString (ToString l ++ ToString r)
  | Sub => VNumber (ToNumber l - ToNumber r)%float
  | Mul => VNumber (ToNumber l * ToNumber r)%float
  | Div => VNumber (ToNumber l / ToNumber r)%float
  | Exp => VNumber (exponentiate (ToNumber l) (ToNumber r))
  end.

Definition apply_unary (op : unary_operator) (v : value) : value :=
  match op with
  | UPlus => VNumber (ToNumber v)
  | UMinus => VNumber (- ToNumber v)%float
  end.

Fixpoint evaluate (exponentiate : float -> float -> float) (e : expr)
  : completion value :=
  match e with
  | Num x => Return (VNumber x)
  | RegExp body => Return (VRegExp body)
  | Unary op e' =>
      v <- evaluate exponentiate e' ;;
      Return (apply_unary op v)
  | Binary op l r =>
      lv <- evaluate exponentiate l ;;
      rv <- evaluate exponentiate r ;;
      Return (apply_binary exponentiate op lv rv)
  | Call callee =>
      _ <- evaluate exponentiate callee ;;
      Throw "TypeError: callee is not a function"
  | CallWith callee spread argument =>
      _ <- evaluate exponentiate callee ;;
      _ <- evaluate exponentiate argument ;;
      Throw (if spread then "TypeError: argument is not iterable"
             else "TypeError: callee is not a function")
  end.

(** [eval(source)] *)
Definition eval (exponentiate : float -> float -> float) (source : string)
  : completion value :=
  match andThen (lex (S (length source)) false source) script with
  | Accepted None => Return VUndefined
  | Accepted (Some e) => evaluate exponentiate e
  | Rejected => Throw "SyntaxError"
  | OutOfFuel => Throw "RangeError: out of fuel"
  end.

End JSEval.

Definition calculate (exponentiate : float -> float -> float)
  (expression : string) : tool_result :=
  try_catch
    (result <- JSEval.eval exponentiate (sanitize expression) ;;
     Return ["Result: " ++ JSEval.ToString result])
    (fun _ =>
       ["Error: Could not evaluate expression '" ++ expression ++ "'"]).

(** An argument for inputs without [**], which do not consult it. *)
Definition no_exponentiation : float -> float -> float := fun _ _ => nan.

(** ** The echo tool (route.ts, lines 74-76) *)

Definition echo (message : string) : tool_result :=
  ["Tool echo: " ++ message].

(** ** The schemas held by the module (route.ts, lines 38-47)

    [databaseSchemas] starts as [{}].  The promise of
    [loadDatabaseSchemas()] is fulfilled at some later turn of the event
    loop, and its callback assigns the loaded object; tool calls arrive
    before or after that turn.  The lines written to the console are not
    part of the state: no tool reads them. *)

Inductive event : Type :=
| SchemasLoaded
| NlToSqlCalled (query : string).

(** What a turn does to [databaseSchemas], and the outcome of a call: its
    result and the prompts it sent.  The handler reads [databaseSchemas]
    before its first [await]. *)
Definition turn (fs : FileSystem) (cwd : string) (key : string)
  (generateContent : string -> completion string)
  (databaseSchemas : JSObject.t) (e : event)
  : JSObject.t * option (tool_result * list string) :=
  match e with
  | SchemasLoaded => (loadDatabaseSchemas fs cwd, None)
  | NlToSqlCalled query =>
      (databaseSchemas,
       Some (nl_to_sql key databaseSchemas generateContent query))
  end.

(** The outcomes of the calls of a sequence of turns, in order *)
Fixpoint serve (fs : FileSystem) (cwd : string) (key : string)
  (generateContent : string -> completion string)
  (databaseSchemas : JSObject.t) (events : list event)
  : list (tool_result * list string) :=
  match events with
  | [] => []
  | e :: events' =>
      let (databaseSchemas', outcome) :=
        turn fs cwd key generateContent databaseSchemas e in
      match outcome with
      | Some o => o :: serve fs cwd key generateContent databaseSchemas' events'
      | None => serve fs cwd key generateContent databaseSchemas' events'
      end
  end.

(** The server from the evaluation of the module on *)
Definition server (fs : FileSystem) (cwd : string) (env : option string)
  (generateContent : string -> completion string) (events : list event)
  : list (tool_result * list string) :=
  serve fs cwd (GEMINI_API_KEY env) generateContent JSObject.empty events.

(** * Properties *)

Lemma append_assoc (a b c : string) : (a ++ b) ++ c = a ++ (b ++ c).
Proof. induction a as [|x a IH]; simpl; [reflexivity | now rewrite IH]. Qed.

Lemma append_empty_r (a : string) : a ++ "" = a.
Proof. induction a as [|x a IH]; simpl; [reflexivity | now rewrite IH]. Qed.

(** ** Prompt assembly *)

Definition preamble : string :=
  "You are a SQL expert that converts natural language queries to precise SQL. "
  ++ "Based on the following database schema:" ++ LF ++ LF.

Definition table_block (entry : string * string) : string :=
  "Table: " ++ fst entry ++ LF ++ snd entry ++ LF ++ LF.

Definition query_block (query : string) : string :=
  "Convert this natural language query to valid SQL:" ++ LF
  ++ DQUOTE ++ query ++ DQUOTE ++ LF ++ LF.

Definition sql_only_instruction : string :=
  "Respond only with the SQL query, no explanation or other text.".

Lemma fold_blocks (l : list (string * string)) (acc : string) :
  fold_left
    (fun promptText '(tableName, ddl) =>
       promptText ++ ("Table: " ++ tableName ++ LF ++ ddl ++ LF ++ LF)) l acc
  = acc ++ concat "" (map table_block l).
Proof.
  revert acc; induction l as [|[name ddl] l IH]; intro acc.
  - simpl. now rewrite append_empty_r.
  - cbn [fold_left map]. rewrite IH.
    destruct l as [|e l].
    + cbn [map concat]. rewrite append_empty_r. reflexivity.
    + cbn [map concat]. rewrite append_assoc. reflexivity.
Qed.

(** C1: the prompt is the preamble, one block per schema entry in the order
    of [Object.entries], the quoted query, and the instruction to answer
    with SQL only; and the handler sends no other prompt. *)
Theorem C1_prompt_structure (databaseSchemas : JSObject.t) (query : string) :
  assemble_prompt databaseSchemas query
  = preamble
    ++ concat "" (map table_block (JSObject.entries databaseSchemas))
    ++ query_block query
    ++ sql_only_instruction
  /\ forall key generateContent prompt,
      In prompt (snd (nl_to_sql key databaseSchemas generateContent query)) ->
      prompt = assemble_prompt databaseSchemas query.
Proof.
  split.
  - unfold assemble_prompt. rewrite fold_blocks.
    unfold preamble, query_block, sql_only_instruction.
    now rewrite !append_assoc.
  - intros key generateContent prompt. unfold nl_to_sql.
    destruct (key =? ""); [intros []|].
    destruct (List.length (JSObject.keys databaseSchemas) =? 0)%nat; [intros []|].
    cbn [snd]. intros [H|[]]. now symmetry.
Qed.

(** ** Guards of nl-to-sql *)

(** C2: without a credential, or without a loaded schema, the handler
    answers with the fixed error text and sends nothing to the remote
    model; a prompt is sent exactly when a credential is present and the
    schema object has a key. *)
Theorem C2_guards_before_remote_call (env : option string)
  (databaseSchemas : JSObject.t) (generateContent : string -> completion string)
  (query : string) :
  let key := GEMINI_API_KEY env in
  let outcome := nl_to_sql key databaseSchemas generateContent query in
  ((env = None \/ env = Some "") -> outcome = ([missing_key_error], []))
  /\ (key <> "" -> JSObject.keys databaseSchemas = [] ->
      outcome = ([no_schemas_error], []))
  /\ (snd outcome <> [] <-> key <> "" /\ JSObject.keys databaseSchemas <> []).
Proof.
  cbv zeta. unfold nl_to_sql. repeat split.
  - intros [->| ->]; reflexivity.
  - intros Hkey Hkeys. apply String.eqb_neq in Hkey. rewrite Hkey, Hkeys. reflexivity.
  - destruct (String.eqb_spec (GEMINI_API_KEY env) ""); [now intros [] | assumption].
  - destruct (GEMINI_API_KEY env =? ""); [now intros []|].
    destruct (JSObject.keys databaseSchemas); [now intros [] | discriminate].
  - intros [Hkey Hkeys]. apply String.eqb_neq in Hkey. rewrite Hkey.
    destruct (JSObject.keys databaseSchemas); [contradiction | discriminate].
Qed.

(** ** Schema Loader *)

(** The failure policy as the specification words it: the entries read
    before the first failing read are kept. *)
Fixpoint spec_partial_load (fs : FileSystem) (schemasDir : string)
  (schemaFiles : list string) (schemas : JSObject.t) : JSObject.t :=
  match schemaFiles with
  | [] => schemas
  | file :: rest =>
      if endsWith file ".sql" then
        match readFile fs (join schemasDir file) with
        | Return content =>
            spec_partial_load fs schemasDir rest
              (JSObject.set (remove_first ".sql" file) content schemas)
        | Throw _ => schemas
        end
      else spec_partial_load fs schemasDir rest schemas
  end.

(** A directory with two definition files, the second of which cannot be
    read. *)
Definition fs_second_unreadable : FileSystem := {|
  readdir := fun dir =>
    if dir =? "/srv/app/schemas" then Return ["a.sql"; "b.sql"]
    else Throw "ENOENT: no such file or directory";
  readFile := fun path =>
    if path =? "/srv/app/schemas/a.sql" then Return "CREATE TABLE a (id INT);"
    else Throw "EACCES: permission denied"
|}.

(** C3, as stated, fails: one read succeeds, the next one fails, and the
    loader returns the empty object, not the entry read before the error. *)
Lemma C3_partial_subset_counterexample :
  readFile fs_second_unreadable "/srv/app/schemas/a.sql"
    = Return "CREATE TABLE a (id INT);"
  /\ readFile fs_second_unreadable "/srv/app/schemas/b.sql"
    = Throw "EACCES: permission denied"
  /\ spec_partial_load fs_second_unreadable "/srv/app/schemas"
       ["a.sql"; "b.sql"] JSObject.empty
     = [("a", "CREATE TABLE a (id INT);")]
  /\ loadDatabaseSchemas fs_second_unreadable "/srv" = JSObject.empty
  /\ loadDatabaseSchemas fs_second_unreadable "/srv"
     <> spec_partial_load fs_second_unreadable "/srv/app/schemas"
          ["a.sql"; "b.sql"] JSObject.empty.
Proof. repeat split; try reflexivity. discriminate. Qed.

Lemma load_files_failing_read (fs : FileSystem) (schemasDir file : string)
  (schemaFiles : list string) :
  In file schemaFiles ->
  endsWith file ".sql" = true ->
  (exists message, readFile fs (join schemasDir file) = Throw message) ->
  forall schemas,
  exists message, load_files fs schemasDir schemaFiles schemas = Throw message.
Proof.
  intros Hin Hsql [m Hm].
  induction schemaFiles as [|f rest IH]; [contradiction|].
  intro schemas. cbn [load_files].
  destruct Hin as [-> | Hin].
  - rewrite Hsql, Hm. now exists m.
  - destruct (endsWith f ".sql"); [|now apply IH].
    destruct (readFile fs (join schemasDir f)) as [content|m'].
    + cbn [bind]. now apply IH.
    + now exists m'.
Qed.

(** C3, amended: when the directory cannot be listed, or the read of any
    definition file of the listing is rejected, the loader returns the empty
    object: entries read before the error are discarded.  The loader itself
    never throws. *)
Theorem C3_read_failure_gives_no_schemas (fs : FileSystem) (cwd : string)
  (H : (exists message, readdir fs (schemas_dir cwd) = Throw message)
       \/ (exists schemaFiles file message,
             readdir fs (schemas_dir cwd) = Return schemaFiles
             /\ In file schemaFiles
             /\ endsWith file ".sql" = true
             /\ readFile fs (join (schemas_dir cwd) file) = Throw message)) :
  loadDatabaseSchemas fs cwd = JSObject.empty.
Proof.
  unfold loadDatabaseSchemas.
  destruct H as [[m Hdir] | (files & file & m & Hdir & Hin & Hsql & Hread)].
  - now rewrite Hdir.
  - rewrite Hdir. cbn [bind].
    destruct (load_files_failing_read fs (schemas_dir cwd) file files Hin Hsql
                (ex_intro _ m Hread) JSObject.empty) as [m' ->].
    reflexivity.
Qed.

Lemma C3_read_failure_witness :
  loadDatabaseSchemas fs_second_unreadable "/srv" = JSObject.empty.
Proof.
  apply C3_read_failure_gives_no_schemas.
  right. exists ["a.sql"; "b.sql"], "b.sql", "EACCES: permission denied".
  repeat split; try reflexivity. simpl; auto.
Defined.

(** A directory whose only file has [.sql] inside its name as well as at
    its end. *)
Definition fs_sqlite_dump : FileSystem := {|
  readdir := fun dir =>
    if dir =? "/srv/app/schemas" then Return ["x.sqlite.sql"]
    else Throw "ENOENT: no such file or directory";
  readFile := fun path =>
    if path =? "/srv/app/schemas/x.sqlite.sql" then Return "CREATE TABLE x (id INT);"
    else Throw "ENOENT: no such file or directory"
|}.

(** The file name with its extension removed: all but the last four
    characters of a name that ends in [.sql]. *)
Definition without_extension (file : string) : string :=
  substring 0 (length file - 4) file.

(** C4 fails on a readable definition file named [x.sqlite.sql]: the key is
    [xite.sql] (the first [.sql] was removed), not [x.sqlite]. *)
Theorem C4_key_removes_first_occurrence :
  endsWith "x.sqlite.sql" ".sql" = true
  /\ without_extension "x.sqlite.sql" = "x.sqlite"
  /\ loadDatabaseSchemas fs_sqlite_dump "/srv"
     = [("xite.sql", "CREATE TABLE x (id INT);")]
  /\ JSObject.keys (loadDatabaseSchemas fs_sqlite_dump "/srv") = ["xite.sql"]
  /\ ~ In "x.sqlite" (JSObject.keys (loadDatabaseSchemas fs_sqlite_dump "/srv")).
Proof.
  repeat split; try reflexivity.
  vm_compute. intros [H|[]]. discriminate.
Qed.

(** ** convert *)

Lemma length_append (a b : string) : length (a ++ b) = (length a + length b)%nat.
Proof. induction a as [|x a IH]; simpl; [reflexivity | now rewrite IH]. Qed.

Lemma take_drop (n : nat) (s : string) : take n s ++ drop n s = s.
Proof.
  revert s; induction n as [|n IH]; intros [|c s]; simpl; try reflexivity.
  now rewrite IH.
Qed.

Lemma length_take (n : nat) (s : string) :
  (n <= length s)%nat -> length (take n s) = n.
Proof.
  revert s; induction n as [|n IH]; intros [|c s]; simpl; intro H;
    try reflexivity; try lia.
  rewrite IH; [reflexivity | lia].
Qed.

Lemma all_digits_append (a b : string) :
  all_digits (a ++ b) = all_digits a && all_digits b.
Proof.
  induction a as [|x a IH]; simpl; [reflexivity|].
  now rewrite IH, andb_assoc.
Qed.

Lemma all_digits_repeat_zero (n : nat) : all_digits (repeat_char "0" n) = true.
Proof. induction n as [|n IH]; simpl; [reflexivity | exact IH]. Qed.

Lemma length_repeat_char (c : ascii) (n : nat) : length (repeat_char c n) = n.
Proof. induction n as [|n IH]; simpl; [reflexivity | now rewrite IH]. Qed.

Lemma all_digits_uint (d : Decimal.uint) :
  all_digits (NilEmpty.string_of_uint d) = true.
Proof. induction d; simpl; auto. Qed.

Lemma all_digits_decimal (n : N) : all_digits (Number.decimal n) = true.
Proof.
  unfold Number.decimal, NilZero.string_of_uint.
  destruct (N.to_uint n) eqn:E; try reflexivity;
    rewrite <- E; apply all_digits_uint.
Qed.

(** The shape [-?D+.DDDD] of a number written with four decimals. *)
Fixpoint split_at_point (s : string) : option (string * string) :=
  match s with
  | EmptyString => None
  | String c s' =>
      if (c =? ".")%char then Some (EmptyString, s')
      else match split_at_point s' with
           | Some (a, b) => Some (String c a, b)
           | None => None
           end
  end.

Definition unsigned_four_decimals (s : string) : bool :=
  match split_at_point s with
  | Some (a, b) =>
      negb (a =? "") && all_digits a && all_digits b && (length b =? 4)%nat
  | None => false
  end.

Definition four_decimals (s : string) : bool :=
  match s with
  | String "-" s' => unsigned_four_decimals s'
  | _ => unsigned_four_decimals s
  end.

Lemma split_at_point_digits (a b : string) :
  all_digits a = true -> split_at_point (a ++ String "." b) = Some (a, b).
Proof.
  induction a as [|c a IH]; simpl; intro H; [reflexivity|].
  apply andb_prop in H as [Hc Ha].
  destruct (Ascii.eqb_spec c "."); [subst c; discriminate Hc|].
  now rewrite IH.
Qed.

Lemma fixed4_digits_shape (n : N) :
  unsigned_four_decimals (Number.fixed4_digits n) = true.
Proof.
  unfold Number.fixed4_digits, Number.zeros.
  set (d := repeat_char "0" (5 - length (Number.decimal n)) ++ Number.decimal n).
  assert (Hd : all_digits d = true).
  { unfold d. rewrite all_digits_append, all_digits_repeat_zero.
    apply all_digits_decimal. }
  assert (Hlen : (5 <= length d)%nat).
  { unfold d. rewrite length_append, length_repeat_char. lia. }
  assert (Hsplit : all_digits (take (length d - 4) d) = true
                   /\ all_digits (drop (length d - 4) d) = true).
  { apply andb_prop. rewrite <- all_digits_append, take_drop. exact Hd. }
  destruct Hsplit as [Ha Hb].
  unfold unsigned_four_decimals.
  change (?a ++ "." ++ ?b) with (a ++ String "." b).
  rewrite (split_at_point_digits _ _ Ha).
  rewrite Ha, Hb.
  assert (Hla : length (take (length d - 4) d) = (length d - 4)%nat)
    by (apply length_take; lia).
  assert (Hlb : length (drop (length d - 4) d) = 4%nat).
  { pose proof (f_equal length (take_drop (length d - 4) d)) as E.
    rewrite length_append, Hla in E. lia. }
  rewrite Hlb.
  destruct (take (length d - 4) d); [simpl in Hla; lia | reflexivity].
Qed.

Lemma four_decimals_signed (sign : bool) (n : N) :
  four_decimals ((if sign then "-" else "") ++ Number.fixed4_digits n) = true.
Proof.
  pose proof (fixed4_digits_shape n) as H.
  destruct sign; cbn [append]; [exact H|].
  unfold four_decimals.
  destruct (Number.fixed4_digits n) as [|c s] eqn:E; [exact H|].
  destruct (Ascii.eqb_spec c "-") as [->|Hc].
  - unfold unsigned_four_decimals in H. simpl in H.
    destruct (split_at_point s) as [[a b]|]; discriminate H.
  - destruct c as [[] [] [] [] [] [] [] []]; try exact H. now contradiction Hc.
Qed.

(** In fixed notation [toFixed(4)] writes a number with four decimals. *)
Lemma toFixed4_shape (x : float) :
  Number.in_fixed_range x = true -> four_decimals (Number.toFixed4 x) = true.
Proof.
  unfold Number.in_fixed_range, Number.toFixed4.
  destruct (Prim2SF x) as [s|s| |s m e]; try discriminate.
  - intros _. apply (four_decimals_signed false).
  - intro H.
    replace (1 <=? Number.floor_scaled (Z.pos m) e (-21))%Z with false
      by (symmetry; apply Z.leb_gt; now apply Z.ltb_lt).
    apply four_decimals_signed.
Qed.

(** The supported pairs and their formulas, as the specification lists
    them. *)
Definition supported_pairs : list (string * string * (float -> float)) :=
  [("celsius", "fahrenheit", fun c => (c * 9 / 5 + 32)%float);
   ("fahrenheit", "celsius", fun f => ((f - 32) * 5 / 9)%float);
   ("kilometers", "miles", fun km => (km * 0.621371)%float);
   ("miles", "kilometers", fun mi => (mi * 1.60934)%float);
   ("kilograms", "pounds", fun kg => (kg * 2.20462)%float);
   ("pounds", "kilograms", fun lb => (lb * 0.453592)%float)].

(** [n / 10^4] is a nearest multiple of [10^-4] to [m * 2^e], the larger
    one of two. *)
Definition nearest_ten_thousandth (m : positive) (e : Z) (n : Z) : Prop :=
  let num := Number.numerator (Zpos m) e 4 in
  let den := Number.denominator e 4 in
  (- den < 2 * (n * den - num) <= den)%Z.

(** [text] is [x] written in fixed notation with four decimals. *)
Definition written_with_four_decimals (x : float) (text : string) : Prop :=
  four_decimals text = true
  /\ match Prim2SF x with
     | S754_zero _ => text = "0.0000"
     | S754_finite s m e =>
         exists n : Z,
           (0 <= n)%Z /\ nearest_ten_thousandth m e n
           /\ text = (if s then "-" else "") ++ Number.fixed4_digits (Z.to_N n)
     | _ => False
     end.

Lemma denominator_pos (e2 e10 : Z) : (0 < Number.denominator e2 e10)%Z.
Proof.
  unfold Number.denominator.
  apply Z.mul_pos_pos; apply Z.pow_pos_nonneg; lia.
Qed.

Lemma numerator_nonneg (m : positive) (e2 e10 : Z) :
  (0 <= Number.numerator (Zpos m) e2 e10)%Z.
Proof.
  unfold Number.numerator.
  repeat apply Z.mul_nonneg_nonneg; try lia; apply Z.pow_nonneg; lia.
Qed.

Lemma nearest_up_spec (m : positive) (e : Z) :
  (0 <= Number.nearest_up (Zpos m) e 4)%Z
  /\ nearest_ten_thousandth m e (Number.nearest_up (Zpos m) e 4).
Proof.
  unfold nearest_ten_thousandth, Number.nearest_up, Number.floor_scaled.
  pose proof (denominator_pos e 4) as Hden.
  pose proof (numerator_nonneg m e 4) as Hnum.
  set (num := Number.numerator (Z.pos m) e 4) in *.
  set (den := Number.denominator e 4) in *.
  pose proof (Z.div_mod num den ltac:(lia)) as Hdm.
  pose proof (Z.mod_pos_bound num den Hden) as Hr.
  pose proof (Z.div_pos num den Hnum Hden) as Hq.
  cbv zeta.
  destruct (Z.ltb_spec (2 * (num mod den)) den); split; nia.
Qed.

Lemma toFixed4_written (x : float) :
  Number.in_fixed_range x = true ->
  written_with_four_decimals x (Number.toFixed4 x).
Proof.
  intro H. split; [now apply toFixed4_shape|].
  unfold Number.in_fixed_range in H. unfold Number.toFixed4.
  destruct (Prim2SF x) as [s|s| |s m e]; try discriminate; [reflexivity|].
  replace (1 <=? Number.floor_scaled (Z.pos m) e (-21))%Z with false
    by (symmetry; apply Z.leb_gt; now apply Z.ltb_lt).
  exists (Number.nearest_up (Z.pos m) e 4).
  destruct (nearest_up_spec m e) as [H0 H1].
  split; [exact H0 | split; [exact H1 | reflexivity]].
Qed.

Lemma own_In {A : Type} (name : string) (o : list (string * A)) (a : A) :
  own name o = Some a -> In (name, a) o.
Proof.
  induction o as [|[k b] o IH]; simpl; [discriminate|].
  destruct (String.eqb_spec k name) as [->|_].
  - intros [= ->]. now left.
  - intro H. right. now apply IH.
Qed.

Lemma convert_supported (builtins : builtin_members) (value : float)
  (fromUnit toUnit : string) (formula : float -> float) :
  In (fromUnit, toUnit, formula) supported_pairs ->
  convert builtins value fromUnit toUnit
  = [Number.toString value ++ " " ++ fromUnit ++ " = "
     ++ Number.toFixed4 (formula value) ++ " " ++ toUnit].
Proof.
  intros [H|[H|[H|[H|[H|[H|[]]]]]]]; injection H as <- <- <-; reflexivity.
Qed.

Lemma convert_unsupported (builtins : builtin_members) (value : float)
  (fromUnit toUnit : string) :
  inherited fromUnit = false -> inherited toUnit = false ->
  (forall formula, ~ In (fromUnit, toUnit, formula) supported_pairs) ->
  convert builtins value fromUnit toUnit
  = ["Error: Conversion from " ++ fromUnit ++ " to " ++ toUnit
     ++ " is not supported."].
Proof.
  unfold inherited. intros Hfrom Hto Hnot.
  unfold convert, get.
  destruct (own fromUnit Object_prototype_members); [discriminate|].
  destruct (own toUnit Object_prototype_members) eqn:Eto; [discriminate|].
  destruct (own fromUnit conversions) as [row|] eqn:Erow; [|reflexivity].
  apply own_In in Erow.
  assert (Hrow : own toUnit row = None).
  { destruct (own toUnit row) as [f|] eqn:Ef; [|reflexivity].
    apply own_In in Ef. exfalso. apply (Hnot f).
    destruct Erow as [E|[E|[E|[E|[E|[E|[]]]]]]]; injection E as <- <-;
      destruct Ef as [Ef|[]]; injection Ef as <- <-; simpl; tauto. }
  rewrite Hrow. reflexivity.
Qed.

(** C5, as stated, fails: for the value [1e21] the result is written in
    exponent notation, not with four decimals. *)
Lemma C5_exponent_notation_counterexample :
  In ("celsius", "fahrenheit", fun c => (c * 9 / 5 + 32)%float) supported_pairs
  /\ convert no_builtin_members 1e21%float "celsius" "fahrenheit"
     = ["1e+21 celsius = 1.8e+21 fahrenheit"]
  /\ Number.toFixed4 (1e21 * 9 / 5 + 32)%float = "1.8e+21"
  /\ four_decimals "1.8e+21" = false.
Proof. split; [now left|]. repeat split; vm_compute; reflexivity. Qed.

(** C5, amended: for unit names that [Object.prototype] does not define, a
    supported pair gives [<value> <fromUnit> = <result> <toUnit>], where
    <result> is [toFixed(4)] of the formula's result: that result written
    with four decimals when it is finite and below [10^21] in magnitude;
    any other pair gives the error text that names both units. *)
Theorem C5_convert_formats_or_rejects (builtins : builtin_members)
  (value : float) (fromUnit toUnit : string)
  (Hfrom : inherited fromUnit = false) (Hto : inherited toUnit = false) :
  (forall formula,
      In (fromUnit, toUnit, formula) supported_pairs ->
      convert builtins value fromUnit toUnit
      = [Number.toString value ++ " " ++ fromUnit ++ " = "
         ++ Number.toFixed4 (formula value) ++ " " ++ toUnit]
      /\ (Number.in_fixed_range (formula value) = true ->
          written_with_four_decimals (formula value)
            (Number.toFixed4 (formula value))))
  /\ ((forall formula, ~ In (fromUnit, toUnit, formula) supported_pairs) ->
      convert builtins value fromUnit toUnit
      = ["Error: Conversion from " ++ fromUnit ++ " to " ++ toUnit
         ++ " is not supported."])
  /\ convert builtins 0%float "celsius" "fahrenheit"
     = ["0 celsius = 32.0000 fahrenheit"]
  /\ convert builtins 10%float "celsius" "kelvin"
     = ["Error: Conversion from celsius to kelvin is not supported."].
Proof.
  split; [|split; [|split]].
  - intros formula Hin. split.
    + now apply convert_supported.
    + apply toFixed4_written.
  - now apply convert_unsupported.
  - vm_compute. reflexivity.
  - vm_compute. reflexivity.
Qed.

Lemma C5_convert_witness :
  convert no_builtin_members 100%float "kilometers" "miles"
  = ["100 kilometers = 62.1371 miles"].
Proof.
  destruct (C5_convert_formats_or_rejects no_builtin_members 100%float
              "kilometers" "miles" eq_refl eq_refl) as [H _].
  destruct (H (fun km => (km * 0.621371)%float)) as [-> _].
  - simpl; tauto.
  - vm_compute. reflexivity.
Defined.

(** C10 fails for the pair (celsius, __proto__): the property read finds
    the inherited [__proto__], an object; calling it throws, and the catch
    branch answers. *)
Theorem C10_catch_branch_reached (builtins : builtin_members) (value : float) :
  inherited "__proto__" = true
  /\ convert builtins value "celsius" "__proto__"
     = ["Error during conversion: conversions[fromUnit][toUnit] is not a function"]
  /\ convert builtins value "celsius" "__defineGetter__"
     = ["Error during conversion: Object.prototype.__defineGetter__: Expecting function"].
Proof. repeat split. Qed.

(** C6, as stated, fails: two weights in pounds, the first below the
    second, convert to the same number of kilograms. *)
Lemma C6_equal_results_counterexample :
  match own "pounds" conversions with
  | Some row =>
      match own "kilograms" row with
      | Some conversion =>
          (3.000000000000002 <? 3.0000000000000027)%float = true
          /\ (conversion 3.000000000000002 <? conversion 3.0000000000000027)%float
             = false
          /\ (conversion 3.000000000000002 =? conversion 3.0000000000000027)%float
             = true
      | None => False
      end
  | None => False
  end.
Proof. vm_compute. repeat split. Qed.

(** ** Monotonicity of the conversions

    The arithmetic of [float] is specified by [SpecFloat]: an operation on
    finite values rounds its exact result with [binary_round_aux].  This
    section gives that function its meaning over the reals (the result is
    a representable number nearest to the exact one, or an infinity beyond
    the largest), and derives from it that multiplying by, dividing by,
    adding and subtracting a constant preserve the order. *)

Module Binary64.

#[local] Open Scope R_scope.

(** *** Powers of two *)

Definition bpow (e : Z) : R := powerRZ 2 e.

Lemma bpow_gt_0 (e : Z) : 0 < bpow e.
Proof. apply powerRZ_lt. lra. Qed.

Lemma bpow_plus (e1 e2 : Z) : bpow (e1 + e2) = bpow e1 * bpow e2.
Proof. apply powerRZ_add. lra. Qed.

Lemma bpow_succ (e : Z) : bpow (e + 1) = 2 * bpow e.
Proof. rewrite bpow_plus. unfold bpow at 2. simpl. lra. Qed.

Lemma bpow_IZR (n : Z) : (0 <= n)%Z -> bpow n = IZR (2 ^ n).
Proof.
  intro Hn. unfold bpow.
  rewrite <- (Z2Nat.id n Hn) at 1. rewrite <- pow_powerRZ.
  rewrite pow_IZR, Z2Nat.id by assumption. reflexivity.
Qed.

Lemma bpow_ge_1 (n : Z) : (0 <= n)%Z -> 1 <= bpow n.
Proof.
  intro Hn. rewrite bpow_IZR by assumption. apply IZR_le.
  pose proof (Z.pow_pos_nonneg 2 n ltac:(lia) Hn). lia.
Qed.

Lemma bpow_le (e1 e2 : Z) : (e1 <= e2)%Z -> bpow e1 <= bpow e2.
Proof.
  intro H. replace e2 with (e1 + (e2 - e1))%Z by lia. rewrite bpow_plus.
  pose proof (bpow_gt_0 e1). pose proof (bpow_ge_1 (e2 - e1) ltac:(lia)). nra.
Qed.

Lemma bpow_lt (e1 e2 : Z) : (e1 < e2)%Z -> bpow e1 < bpow e2.
Proof.
  intro H. replace e2 with ((e1 + 1) + (e2 - e1 - 1))%Z by lia.
  rewrite bpow_plus, bpow_succ.
  pose proof (bpow_gt_0 e1). pose proof (bpow_ge_1 (e2 - e1 - 1) ltac:(lia)). nra.
Qed.

(** *** The number of binary digits *)

Lemma digits_bounds (m : positive) :
  (2 ^ (Zpos (digits2_pos m) - 1) <= Zpos m < 2 ^ Zpos (digits2_pos m))%Z.
Proof.
  induction m as [m IH|m IH|]; cbn [digits2_pos].
  - rewrite Pos2Z.inj_succ.
    replace (Z.succ (Z.pos (digits2_pos m)) - 1)%Z
      with (Z.succ (Z.pos (digits2_pos m) - 1))%Z by lia.
    rewrite !Z.pow_succ_r by lia. lia.
  - rewrite Pos2Z.inj_succ.
    replace (Z.succ (Z.pos (digits2_pos m)) - 1)%Z
      with (Z.succ (Z.pos (digits2_pos m) - 1))%Z by lia.
    rewrite !Z.pow_succ_r by lia. lia.
  - simpl. lia.
Qed.

Lemma digits_bounds_R (m : positive) :
  bpow (Zpos (digits2_pos m) - 1) <= IZR (Zpos m) < bpow (Zpos (digits2_pos m)).
Proof.
  destruct (digits_bounds m) as [H1 H2].
  rewrite !bpow_IZR by lia. split; [apply IZR_le | apply IZR_lt]; assumption.
Qed.

(** *** The value of a binary64 number *)

Definition F2R (m e : Z) : R := IZR m * bpow e.

Definition SF2R (x : spec_float) : R :=
  match x with
  | S754_finite s m e => F2R (cond_Zopp s (Zpos m)) e
  | _ => 0
  end.

Definition finite (x : spec_float) : bool :=
  match x with
  | S754_zero _ | S754_finite _ _ _ => true
  | _ => false
  end.

Lemma bounded_spec (m : positive) (e : Z) :
  SpecFloat.bounded prec emax m e = true ->
  (e = Z.max (Zpos (digits2_pos m) + e - 53) (-1074) /\ e <= 971)%Z.
Proof.
  unfold SpecFloat.bounded, canonical_mantissa, fexp, SpecFloat.emin, prec, emax.
  intro H. apply andb_prop in H as [H1 H2].
  apply Z.eqb_eq in H1. apply Z.leb_le in H2. lia.
Qed.

Lemma F2R_pos (m : positive) (e : Z) : 0 < F2R (Zpos m) e.
Proof.
  unfold F2R. pose proof (bpow_gt_0 e).
  assert (0 < IZR (Zpos m)) by (apply IZR_lt; lia). nra.
Qed.

Lemma F2R_opp (s : bool) (m : positive) (e : Z) :
  F2R (cond_Zopp s (Zpos m)) e
  = if s then - F2R (Zpos m) e else F2R (Zpos m) e.
Proof.
  destruct s; cbn [cond_Zopp]; [|reflexivity].
  unfold F2R. rewrite opp_IZR. lra.
Qed.

(** Numbers in canonical form are ordered by exponent, then mantissa. *)
Lemma canonical_lt (m1 m2 : positive) (e1 e2 : Z) :
  SpecFloat.bounded prec emax m1 e1 = true -> SpecFloat.bounded prec emax m2 e2 = true ->
  (e1 < e2)%Z -> F2R (Zpos m1) e1 < F2R (Zpos m2) e2.
Proof.
  intros H1 H2 He.
  apply bounded_spec in H1 as [H1 _]. apply bounded_spec in H2 as [H2 _].
  destruct (digits_bounds_R m1) as [_ Hm1].
  destruct (digits_bounds_R m2) as [Hm2 _].
  unfold F2R.
  assert (Hd1 : (Zpos (digits2_pos m1) <= 53)%Z) by lia.
  assert (Hd2 : (Zpos (digits2_pos m2) = 53)%Z) by lia.
  rewrite Hd2 in Hm2.
  pose proof (bpow_le _ _ Hd1) as Hb1.
  pose proof (bpow_le (e1 + 1) e2 ltac:(lia)) as Hb2.
  rewrite bpow_succ in Hb2.
  replace (53 - 1)%Z with 52%Z in Hm2 by lia.
  assert (Hb53 : bpow 53 = 2 * bpow 52).
  { replace 53%Z with (52 + 1)%Z by lia. apply bpow_succ. }
  pose proof (bpow_gt_0 e1). pose proof (bpow_gt_0 e2). pose proof (bpow_gt_0 52).
  assert (IZR (Zpos m1) * bpow e1 < 2 * bpow 52 * bpow e1) by nra.
  assert (bpow 52 * (2 * bpow e1) <= bpow 52 * bpow e2) by nra.
  assert (bpow 52 * bpow e2 <= IZR (Zpos m2) * bpow e2) by nra.
  lra.
Qed.

Definition compares (c : comparison) (x y : R) : Prop :=
  match c with
  | Lt => x < y
  | Eq => x = y
  | Gt => y < x
  end.

Lemma compares_opp (c : comparison) (x y : R) :
  compares c x y -> compares (CompOpp c) (- x) (- y).
Proof. destruct c; simpl; lra. Qed.

Lemma compare_canonical (m1 m2 : positive) (e1 e2 : Z) :
  SpecFloat.bounded prec emax m1 e1 = true -> SpecFloat.bounded prec emax m2 e2 = true ->
  compares
    match (e1 ?= e2)%Z with
    | Lt => Lt
    | Gt => Gt
    | Eq => Pos.compare_cont Eq m1 m2
    end
    (F2R (Zpos m1) e1) (F2R (Zpos m2) e2).
Proof.
  intros H1 H2. destruct (Z.compare_spec e1 e2) as [->|He|He].
  - change (Pos.compare_cont Eq m1 m2) with (Pos.compare m1 m2).
    unfold F2R. pose proof (bpow_gt_0 e2).
    destruct (Pos.compare_spec m1 m2) as [->|Hm|Hm]; simpl.
    + reflexivity.
    + assert (IZR (Zpos m1) < IZR (Zpos m2)) by (apply IZR_lt; lia). nra.
    + assert (IZR (Zpos m2) < IZR (Zpos m1)) by (apply IZR_lt; lia). nra.
  - now apply canonical_lt.
  - now apply canonical_lt.
Qed.

(** [SFcompare] on finite numbers in canonical form compares the values. *)
Lemma SFcompare_finite (x y : spec_float) :
  valid_binary x = true -> valid_binary y = true ->
  finite x = true -> finite y = true ->
  exists c, SFcompare x y = Some c /\ compares c (SF2R x) (SF2R y).
Proof.
  intros Hx Hy Fx Fy.
  destruct x as [sx|sx| |sx mx ex]; try discriminate Fx;
    destruct y as [sy|sy| |sy my ey]; try discriminate Fy;
    cbn [SFcompare SF2R valid_binary] in *.
  - exists Eq. split; [reflexivity | simpl; reflexivity].
  - rewrite F2R_opp. pose proof (F2R_pos my ey).
    destruct sy; eexists; (split; [reflexivity | simpl; lra]).
  - rewrite F2R_opp. pose proof (F2R_pos mx ex).
    destruct sx; eexists; (split; [reflexivity | simpl; lra]).
  - rewrite !F2R_opp. pose proof (F2R_pos mx ex). pose proof (F2R_pos my ey).
    pose proof (compare_canonical mx my ex ey Hx Hy) as Hc.
    destruct sx, sy; eexists; (split; [reflexivity|]);
      try (simpl; lra); try exact Hc.
    apply compares_opp in Hc.
    destruct (ex ?= ey)%Z; try exact Hc.
Qed.

Lemma SFleb_finite (x y : spec_float) :
  valid_binary x = true -> valid_binary y = true ->
  finite x = true -> finite y = true ->
  (SFleb x y = true <-> SF2R x <= SF2R y).
Proof.
  intros Hx Hy Fx Fy.
  destruct (SFcompare_finite x y Hx Hy Fx Fy) as (c & Hc & Hv).
  unfold SFleb. rewrite Hc.
  destruct c; simpl in Hv; split; intro H; try reflexivity; try lra;
    discriminate H.
Qed.

(** *** Shifting a mantissa with its round and sticky bits *)

(** [u] lies between [m * 2^e] and [(m + 1) * 2^e], at the place the round
    bit [r] and the sticky bit [s] tell: on [m * 2^e], below the middle,
    on the middle, or above it. *)
Definition located (m e : Z) (r s : bool) (u : R) : Prop :=
  match r, s with
  | false, false => u = F2R m e
  | false, true => F2R m e < u < (IZR m + / 2) * bpow e
  | true, false => u = (IZR m + / 2) * bpow e
  | true, true => (IZR m + / 2) * bpow e < u < (IZR m + 1) * bpow e
  end.

Definition located_record (mrs : shr_record) (e : Z) (u : R) : Prop :=
  (0 <= shr_m mrs)%Z /\ located (shr_m mrs) e (shr_r mrs) (shr_s mrs) u.

Lemma located_bounds (m e : Z) (r s : bool) (u : R) :
  located m e r s u -> F2R m e <= u < F2R (m + 1) e.
Proof.
  unfold located, F2R. rewrite plus_IZR. pose proof (bpow_gt_0 e).
  destruct r, s; intro Hu; nra.
Qed.

Lemma IZR_xI (p : positive) : IZR (Zpos p~1) = 2 * IZR (Zpos p) + 1.
Proof. rewrite Pos2Z.inj_xI, plus_IZR, mult_IZR. reflexivity. Qed.

Lemma IZR_xO (p : positive) : IZR (Zpos p~0) = 2 * IZR (Zpos p).
Proof. rewrite Pos2Z.inj_xO, mult_IZR. reflexivity. Qed.

Lemma shr_1_located (mrs : shr_record) (e : Z) (u : R) :
  located_record mrs e u -> located_record (shr_1 mrs) (e + 1) u.
Proof.
  destruct mrs as [m r s]. unfold located_record. cbn [shr_m shr_r shr_s].
  intros [Hm Hu]. pose proof (bpow_gt_0 e) as HB.
  destruct m as [|p|p]; [| |lia].
  - cbn [shr_1 shr_m shr_r shr_s]. split; [lia|].
    unfold located, F2R in *. rewrite bpow_succ.
    destruct r, s; cbn [orb]; lra.
  - destruct p as [p|p|]; cbn [shr_1 shr_m shr_r shr_s]; (split; [lia|]);
    unfold located, F2R in *; rewrite bpow_succ.
    + rewrite IZR_xI in Hu. set (x := IZR (Z.pos p)) in *. set (b := bpow e) in *.
      destruct r, s; cbn [orb]; nra.
    + rewrite IZR_xO in Hu. set (x := IZR (Z.pos p)) in *. set (b := bpow e) in *.
      destruct r, s; cbn [orb]; nra.
    + destruct r, s; cbn [orb]; lra.
Qed.

Lemma iter_shr_1_located (n : positive) (u : R) :
  forall mrs e,
    located_record mrs e u ->
    located_record (SpecFloat.iter_pos shr_1 n mrs) (e + Zpos n) u.
Proof.
  induction n as [n IH|n IH|]; intros mrs e H; cbn [SpecFloat.iter_pos].
  - replace (e + Zpos n~1)%Z with (((e + 1) + Zpos n) + Zpos n)%Z by lia.
    now apply IH, IH, shr_1_located.
  - replace (e + Zpos n~0)%Z with ((e + Zpos n) + Zpos n)%Z by lia.
    now apply IH, IH.
  - now apply shr_1_located.
Qed.

Lemma shr_located (mrs : shr_record) (e n : Z) (u : R) :
  (0 <= n)%Z -> located_record mrs e u ->
  located_record (fst (shr mrs e n)) (e + n) u /\ snd (shr mrs e n) = (e + n)%Z.
Proof.
  intros Hn H. destruct n as [|p|p]; [| |lia]; cbn [shr fst snd].
  - rewrite Z.add_0_r. now split.
  - split; [|reflexivity]. now apply iter_shr_1_located.
Qed.

Lemma record_of_loc_of_record (mrs : shr_record) :
  shr_record_of_loc (shr_m mrs) (loc_of_shr_record mrs) = mrs.
Proof. destruct mrs as [m [] []]; reflexivity. Qed.

(** The nearest of [m] and [m + 1], the even one on the middle. *)
Lemma round_nearest_even_spec (mrs : shr_record) (e : Z) (u : R) :
  located_record mrs e u ->
  let m := shr_m mrs in
  let mr := round_nearest_even m (loc_of_shr_record mrs) in
  (mr = m /\ u - F2R m e <= F2R (m + 1) e - u)
  \/ (mr = (m + 1)%Z /\ F2R (m + 1) e - u <= u - F2R m e).
Proof.
  destruct mrs as [m r s]. unfold located_record. cbn [shr_m shr_r shr_s].
  intros [Hm Hu]. cbv zeta. pose proof (bpow_gt_0 e) as HB.
  unfold located, F2R in *. rewrite plus_IZR.
  destruct r, s; cbn [loc_of_shr_record round_nearest_even].
  - right. split; [reflexivity | nra].
  - destruct (Z.even m); [left | right]; (split; [reflexivity | nra]).
  - left. split; [reflexivity | nra].
  - left. split; [reflexivity | nra].
Qed.

Lemma fexp_binary64 (e : Z) :
  fexp prec emax e = Z.max (e - 53) (-1074).
Proof. reflexivity. Qed.

Lemma Zdigits2_bounds (m : Z) :
  (0 < m)%Z -> (2 ^ (Zdigits2 m - 1) <= m < 2 ^ Zdigits2 m)%Z.
Proof. destruct m as [|p|p]; try lia. intros _. apply digits_bounds. Qed.

Lemma Zdigits2_nonneg (m : Z) : (0 <= Zdigits2 m)%Z.
Proof. destruct m; simpl; lia. Qed.

Lemma Zdigits2_le (m : Z) (k : Z) :
  (0 <= k)%Z -> (0 <= m < 2 ^ k)%Z -> (Zdigits2 m <= k)%Z.
Proof.
  intros Hk [H0 Hm]. destruct (Z.eq_dec m 0) as [->|Hne]; [simpl; lia|].
  destruct (Zdigits2_bounds m ltac:(lia)) as [Hd _].
  apply Z.nlt_ge. intro Hlt.
  assert (2 ^ k <= 2 ^ (Zdigits2 m - 1))%Z by (apply Z.pow_le_mono_r; lia).
  lia.
Qed.

(** *** Representable numbers next to a rounded one *)

Lemma Rabs_SF2R_finite (s : bool) (m : positive) (e : Z) :
  Rabs (SF2R (S754_finite s m e)) = F2R (Zpos m) e.
Proof.
  cbn [SF2R]. rewrite F2R_opp. pose proof (F2R_pos m e).
  destruct s; [rewrite Rabs_Ropp|]; apply Rabs_pos_eq; lra.
Qed.

(** No representable magnitude lies strictly between [m * 2^e] and
    [(m + 1) * 2^e] when [e] is the least exponent, or [m] has 53 bits. *)
Lemma no_float_between (m e : Z) (y : spec_float) :
  (0 <= m)%Z -> (-1074 <= e)%Z -> ((-1074 < e)%Z -> (2 ^ 52 <= m)%Z) ->
  valid_binary y = true -> finite y = true ->
  Rabs (SF2R y) <= F2R m e \/ F2R (m + 1) e <= Rabs (SF2R y).
Proof.
  intros Hm He Hnormal Hy Fy. pose proof (bpow_gt_0 e) as HB.
  assert (H0 : 0 <= F2R m e).
  { unfold F2R. assert (0 <= IZR m) by (apply IZR_le; lia). nra. }
  destruct y as [sy|sy| |sy my ey]; try discriminate Fy.
  - left. cbn [SF2R]. now rewrite Rabs_R0.
  - rewrite Rabs_SF2R_finite. cbn [valid_binary] in Hy.
    apply bounded_spec in Hy as [Hy _].
    destruct (Z.le_gt_cases e ey) as [Hle|Hgt].
    + assert (Hg : F2R (Zpos my) ey = F2R (Zpos my * 2 ^ (ey - e)) e).
      { unfold F2R. rewrite mult_IZR, <- bpow_IZR by lia.
        replace ey with ((ey - e) + e)%Z at 1 by lia. rewrite bpow_plus. ring. }
      rewrite Hg. unfold F2R.
      destruct (Z.le_gt_cases (Zpos my * 2 ^ (ey - e)) m) as [Hk|Hk].
      * left. apply IZR_le in Hk. nra.
      * right. assert (Hk' : (m + 1 <= Zpos my * 2 ^ (ey - e))%Z) by lia.
        apply IZR_le in Hk'. nra.
    + left. specialize (Hnormal ltac:(lia)).
      destruct (digits_bounds_R my) as [_ Hmy].
      assert (Hd : (Zpos (digits2_pos my) <= 53)%Z) by lia.
      pose proof (bpow_le _ _ Hd) as Hb.
      pose proof (bpow_le (ey + 1) e ltac:(lia)) as Hb2.
      rewrite bpow_succ in Hb2.
      assert (Hb53 : bpow 53 = 2 * IZR (2 ^ 52)).
      { replace 53%Z with (52 + 1)%Z by lia.
        rewrite bpow_succ, bpow_IZR by lia. reflexivity. }
      apply IZR_le in Hnormal. pose proof (bpow_gt_0 ey).
      unfold F2R.
      assert (IZR (Zpos my) * bpow ey < 2 * IZR (2 ^ 52) * bpow ey) by nra.
      assert (0 < IZR (2 ^ 52)) by (apply IZR_lt; lia).
      assert (IZR (2 ^ 52) * (2 * bpow ey) <= IZR (2 ^ 52) * bpow e) by nra.
      nra.
Qed.

(** *** The two shifts of [binary_round_aux] *)

Lemma first_shift (mx ex : Z) (lx : location) (u : R) :
  located_record (shr_record_of_loc mx lx) ex u ->
  (ex <= fexp prec emax (Zdigits2 mx + ex))%Z ->
  let e1 := fexp prec emax (Zdigits2 mx + ex) in
  exists mrs1,
    shr_fexp prec emax mx ex lx = (mrs1, e1)
    /\ located_record mrs1 e1 u
    /\ (shr_m mrs1 < 2 ^ 53)%Z
    /\ ((-1074 < e1)%Z -> (2 ^ 52 <= shr_m mrs1)%Z).
Proof.
  intros Hloc Hex e1. unfold shr_fexp. fold e1.
  destruct (shr_located _ ex (e1 - ex) u ltac:(lia) Hloc) as [Hloc1 He1].
  replace (ex + (e1 - ex))%Z with e1 in * by lia.
  destruct (shr (shr_record_of_loc mx lx) ex (e1 - ex)) as [mrs1 e1'].
  cbn [fst snd] in *. subst e1'. exists mrs1. split; [reflexivity|].
  split; [exact Hloc1|].
  assert (Hmx : (0 <= mx)%Z).
  { destruct Hloc as [H _]. now destruct lx as [|[]]. }
  assert (Hu : F2R mx ex <= u < F2R (mx + 1) ex).
  { destruct Hloc as [_ H]. apply located_bounds in H.
    now destruct lx as [|[]]. }
  destruct Hloc1 as [Hm1 Hu1]. apply located_bounds in Hu1.
  pose proof (bpow_gt_0 e1) as HB1. pose proof (bpow_gt_0 ex) as HBx.
  unfold e1 in *. rewrite fexp_binary64 in *.
  set (d := Zdigits2 mx) in *.
  pose proof (Zdigits2_nonneg mx) as Hd0. fold d in Hd0.
  split.
  - (* m1 * 2^e1 <= u < (mx + 1) * 2^ex <= 2^(d + ex) <= 2^(53 + e1) *)
    apply lt_IZR.
    assert (Hup : F2R (mx + 1) ex <= bpow (d + ex)).
    { unfold F2R. rewrite bpow_plus, (bpow_IZR d) by lia.
      destruct (Z.eq_dec mx 0) as [->|Hne].
      - assert (1 <= IZR (2 ^ d)).
        { apply IZR_le. pose proof (Z.pow_pos_nonneg 2 d ltac:(lia) Hd0). lia. }
        simpl. nra.
      - destruct (Zdigits2_bounds mx ltac:(lia)) as [_ H]. fold d in H.
        assert (IZR (mx + 1) <= IZR (2 ^ d)) by (apply IZR_le; lia). nra. }
    pose proof (bpow_le (d + ex) (53 + Z.max (d + ex - 53) (-1074)) ltac:(lia))
      as Hb.
    rewrite (bpow_plus 53), (bpow_IZR 53) in Hb by lia.
    unfold F2R in Hu1.
    apply Rmult_lt_reg_r with (bpow (Z.max (d + ex - 53) (-1074)));
      [exact HB1 | lra].
  - intro Hnormal.
    assert (He1 : Z.max (d + ex - 53) (-1074) = (d + ex - 53)%Z) by lia.
    rewrite He1 in *.
    assert (Hpos : (0 < mx)%Z).
    { destruct (Z.eq_dec mx 0) as [E|E]; [|lia].
      subst mx. unfold d in *. simpl in *. lia. }
    destruct (Zdigits2_bounds mx Hpos) as [Hlow _]. fold d in Hlow.
    assert (Hd1 : (1 <= d)%Z) by lia.
    apply IZR_le in Hlow. rewrite <- bpow_IZR in Hlow by lia.
    assert (Hlow' : bpow (52 + (d + ex - 53)) <= u).
    { replace (52 + (d + ex - 53))%Z with ((d - 1) + ex)%Z by lia.
      rewrite bpow_plus. unfold F2R in Hu. nra. }
    rewrite bpow_plus, (bpow_IZR 52) in Hlow' by lia.
    unfold F2R in Hu1.
    assert (Hlt : IZR (2 ^ 52) < IZR (shr_m mrs1 + 1)) by nra.
    apply lt_IZR in Hlt. lia.
Qed.

Lemma second_shift (mr e1 : Z) :
  (0 <= mr <= 2 ^ 53)%Z -> (-1074 <= e1)%Z ->
  exists mrs2 e2,
    shr_fexp prec emax mr e1 loc_Exact = (mrs2, e2)
    /\ F2R (shr_m mrs2) e2 = F2R mr e1
    /\ (0 <= shr_m mrs2 < 2 ^ 53)%Z
    /\ ((e2 = e1 /\ shr_m mrs2 = mr)
        \/ (e2 = e1 + 1 /\ mr = 2 ^ 53 /\ shr_m mrs2 = 2 ^ 52))%Z.
Proof.
  intros Hmr He1. unfold shr_fexp. rewrite fexp_binary64.
  destruct (Z.eq_dec mr (2 ^ 53)) as [->|Hne].
  - replace (Z.max (Zdigits2 (2 ^ 53) + e1 - 53) (-1074) - e1)%Z with 1%Z
      by (change (Zdigits2 (2 ^ 53)) with 54%Z; lia).
    eexists. eexists. split; [reflexivity|].
    cbn [shr_m shr_record_of_loc shr SpecFloat.iter_pos shr_1 Z.pow Z.pow_pos Pos.iter Z.mul Pos.mul].
    split; [|split; [lia | right; repeat split; lia]].
    unfold F2R. rewrite bpow_succ.
    lra.
  - assert (Hd : (Zdigits2 mr <= 53)%Z) by (apply Zdigits2_le; lia).
    assert (Hn : (Z.max (Zdigits2 mr + e1 - 53) (-1074) - e1 <= 0)%Z) by lia.
    exists (shr_record_of_loc mr loc_Exact), e1.
    split.
    + destruct (Z.max (Zdigits2 mr + e1 - 53) (-1074) - e1)%Z; try reflexivity.
      lia.
    + cbn [shr_record_of_loc shr_m].
      split; [reflexivity | split; [lia | left; split; reflexivity]].
Qed.

(** *** The meaning of [binary_round_aux] *)

(** Half an ulp above the largest finite number *)
Definition threshold : R := (IZR (2 ^ 53) - / 2) * bpow 971.

(** [z] is a rounding of [u]: a finite number nearest to [u] among the
    representable ones when [u] is within the threshold, the infinity of
    its sign when [u] is at or beyond it. *)
Definition rounds_to (u : R) (z : spec_float) : Prop :=
  match z with
  | S754_nan => False
  | S754_infinity s => if s then u <= - threshold else threshold <= u
  | _ =>
      Rabs u <= threshold
      /\ forall y, valid_binary y = true -> finite y = true ->
                   Rabs (SF2R z - u) <= Rabs (SF2R y - u)
  end.

Definition signed (s : bool) (u : R) : R := if s then - u else u.

Lemma Rabs_signed (s : bool) (u : R) : Rabs (signed s u) = Rabs u.
Proof. destruct s; [apply Rabs_Ropp | reflexivity]. Qed.

Lemma Rabs_signed_minus (s : bool) (a u : R) :
  Rabs (signed s a - signed s u) = Rabs (a - u).
Proof.
  destruct s; cbn [signed]; [|reflexivity].
  replace (- a - - u) with (- (a - u)) by ring. apply Rabs_Ropp.
Qed.

Lemma nearest_of_neighbours (lo hi r u g : R) :
  lo <= u <= hi ->
  (r = lo /\ u - lo <= hi - u) \/ (r = hi /\ hi - u <= u - lo) ->
  g <= lo \/ hi <= g ->
  Rabs (r - u) <= Rabs (g - u).
Proof.
  intros Hu Hr Hg. unfold Rabs.
  destruct (Rcase_abs (r - u)), (Rcase_abs (g - u)); lra.
Qed.

Lemma threshold_bounds :
  bpow (-1074) <= threshold
  /\ IZR (2 ^ 53 - 1) * bpow 971 + / 2 * bpow 971 = threshold
  /\ threshold <= IZR (2 ^ 52) * bpow 972.
Proof.
  unfold threshold.
  pose proof (bpow_le (-1074) 971 ltac:(lia)) as H1.
  pose proof (bpow_gt_0 971) as H2.
  assert (H3 : bpow 972 = 2 * bpow 971)
    by (replace 972%Z with (971 + 1)%Z by lia; apply bpow_succ).
  assert (H4 : IZR (2 ^ 53) = 2 * IZR (2 ^ 52))
    by (change (2 ^ 53)%Z with (2 * 2 ^ 52)%Z; now rewrite mult_IZR).
  assert (H5 : 1 <= IZR (2 ^ 52)) by (apply IZR_le; lia).
  rewrite minus_IZR, H3, H4. repeat split; nra.
Qed.

Theorem binary_round_aux_correct (s : bool) (mx ex : Z) (lx : location) (u : R) :
  located_record (shr_record_of_loc mx lx) ex u ->
  (ex <= fexp prec emax (Zdigits2 mx + ex))%Z ->
  rounds_to (signed s u) (binary_round_aux prec emax s mx ex lx).
Proof.
  intros Hloc Hex.
  destruct (first_shift mx ex lx u Hloc Hex) as (mrs1 & H1 & Hloc1 & Hlt & Hnormal).
  set (e1 := fexp prec emax (Zdigits2 mx + ex)) in *.
  assert (He1 : (-1074 <= e1)%Z) by (unfold e1; rewrite fexp_binary64; lia).
  pose proof (round_nearest_even_spec mrs1 e1 u Hloc1) as Hround.
  cbv zeta in Hround.
  set (m1 := shr_m mrs1) in *.
  set (mr := round_nearest_even m1 (loc_of_shr_record mrs1)) in *.
  destruct Hloc1 as [Hm1 Hu1]. apply located_bounds in Hu1. fold m1 in Hu1.
  assert (Hmr : (0 <= mr <= 2 ^ 53)%Z) by (destruct Hround as [[-> _]|[-> _]]; lia).
  destruct (second_shift mr e1 Hmr He1) as (mrs2 & e2 & H2 & Hval & Hm2 & Hcases).
  unfold binary_round_aux. rewrite H1. fold m1 mr. rewrite H2.
  pose proof (bpow_gt_0 e1) as HB1.
  destruct threshold_bounds as (HT1 & HT2 & HT3).
  assert (Hlo : 0 <= F2R m1 e1).
  { unfold F2R. assert (0 <= IZR m1) by (apply IZR_le; lia). nra. }
  assert (Hgap : F2R (m1 + 1) e1 = F2R m1 e1 + bpow e1).
  { unfold F2R. rewrite plus_IZR. ring. }
  assert (Hnear : forall y, valid_binary y = true -> finite y = true ->
                            Rabs (signed s (F2R mr e1) - signed s u)
                            <= Rabs (SF2R y - signed s u)).
  { intros y Hy Fy. rewrite Rabs_signed_minus.
    apply Rle_trans with (Rabs (Rabs (SF2R y) - u)).
    - apply (nearest_of_neighbours (F2R m1 e1) (F2R (m1 + 1) e1)).
      + lra.
      + destruct Hround as [[-> H]|[-> H]]; [left | right]; now split.
      + now apply no_float_between.
    - replace u with (Rabs (signed s u)) at 1
        by (rewrite Rabs_signed; apply Rabs_pos_eq; lra).
      apply Rabs_triang_inv2. }
  assert (Hhalf : Rabs (F2R mr e1 - u) <= / 2 * bpow e1).
  { unfold Rabs. destruct (Rcase_abs (F2R mr e1 - u));
      destruct Hround as [[-> H]|[-> H]]; lra. }
  assert (Habs_u : Rabs (signed s u) = u)
    by (rewrite Rabs_signed; apply Rabs_pos_eq; lra).
  destruct (shr_m mrs2) as [|m2|m2] eqn:Em2; [| |lia].
  - (* the result is a zero *)
    assert (Hzero : F2R mr e1 = 0) by (rewrite <- Hval; unfold F2R; simpl; ring).
    cbn [rounds_to SF2R]. split.
    + rewrite Habs_u.
      assert (Hmr0 : mr = 0%Z).
      { unfold F2R in Hzero. apply Rmult_integral in Hzero as [H|H]; [|lra].
        now apply eq_IZR_R0. }
      assert (Hm10 : m1 = 0%Z) by (destruct Hround as [[E _]|[E _]]; lia).
      assert (e1 = -1074)%Z.
      { destruct (Z.eq_dec e1 (-1074)) as [E|E]; [exact E|].
        specialize (Hnormal ltac:(lia)). lia. }
      rewrite Hm10, H in Hu1. unfold F2R in Hu1.
      change (IZR (0 + 1)) with 1 in Hu1. lra.
    + intros y Hy Fy. specialize (Hnear y Hy Fy).
      rewrite Hzero in Hnear. destruct s; cbn [signed] in *;
        rewrite ?Ropp_0 in Hnear; exact Hnear.
  - destruct (Z.leb_spec e2 (emax - prec)) as [He2|He2];
      change (emax - prec)%Z with 971%Z in He2.
    + (* a finite result *)
      cbn [rounds_to SF2R]. rewrite F2R_opp.
      assert (Hz : (if s then - F2R (Z.pos m2) e2 else F2R (Z.pos m2) e2)
                   = signed s (F2R mr e1)) by (now rewrite Hval).
      rewrite Hz. split; [|exact Hnear].
      rewrite Habs_u.
      assert (Hb : bpow e1 <= bpow 971) by (apply bpow_le; lia).
      assert (Hmax : F2R mr e1 <= IZR (2 ^ 53 - 1) * bpow 971).
      { rewrite <- Hval. unfold F2R.
        assert (IZR (Z.pos m2) <= IZR (2 ^ 53 - 1)) by (apply IZR_le; lia).
        assert (0 <= IZR (Z.pos m2)) by (apply IZR_le; lia).
        pose proof (bpow_le e2 971 He2). pose proof (bpow_gt_0 e2). nra. }
      unfold Rabs in Hhalf. destruct (Rcase_abs (F2R mr e1 - u)); lra.
    + (* an overflow *)
      cbn [rounds_to].
      assert (Hover : threshold <= u).
      { destruct Hcases as [[E Em]|(E & Emr & _)].
        - subst e2. specialize (Hnormal ltac:(lia)).
          apply IZR_le in Hnormal. fold m1 in Hnormal.
          pose proof (bpow_le 972 e1 ltac:(lia)).
          pose proof (bpow_gt_0 972).
          assert (0 < IZR (2 ^ 52)) by (apply IZR_lt; lia).
          unfold F2R in Hu1.
          assert (IZR (2 ^ 52) * bpow 972 <= IZR m1 * bpow e1) by nra.
          lra.
        - assert (Hb : bpow 971 <= bpow e1) by (apply bpow_le; lia).
          assert (HF : F2R mr e1 = IZR (2 ^ 53) * bpow e1)
            by (rewrite Emr; reflexivity).
          unfold Rabs in Hhalf. unfold threshold.
          assert (0 < IZR (2 ^ 53) - / 2).
          { assert (1 <= IZR (2 ^ 53)) by (apply IZR_le; lia). lra. }
          destruct (Rcase_abs (F2R mr e1 - u)); nra. }
      destruct s; cbn [signed]; lra.
Qed.

(** *** Rounding preserves the order *)

Lemma threshold_pos : 0 < threshold.
Proof.
  destruct threshold_bounds as (H & _). pose proof (bpow_gt_0 (-1074)). lra.
Qed.

Lemma rounds_to_finite (u : R) (z : spec_float) :
  finite z = true -> rounds_to u z ->
  Rabs u <= threshold
  /\ forall y, valid_binary y = true -> finite y = true ->
               Rabs (SF2R z - u) <= Rabs (SF2R y - u).
Proof. destruct z; try discriminate; intros _ H; exact H. Qed.

Lemma SFleb_refl (z : spec_float) : z <> S754_nan -> SFleb z z = true.
Proof.
  destruct z as [s|s| |s m e]; intro H; try (now destruct s); [easy|].
  unfold SFleb, SFcompare. rewrite Z.compare_refl.
  change (PosDef.Pos.compare_cont Eq m m) with (Pos.compare m m).
  rewrite Pos.compare_refl. now destruct s.
Qed.

Lemma SFleb_neg_infinity (z : spec_float) :
  z <> S754_nan -> SFleb (S754_infinity true) z = true.
Proof. destruct z as [s|s| |s m e]; try easy; now destruct s. Qed.

Lemma SFleb_pos_infinity (z : spec_float) :
  z <> S754_nan -> SFleb z (S754_infinity false) = true.
Proof. destruct z as [s|s| |s m e]; try easy; now destruct s. Qed.

Lemma rounds_to_not_nan (u : R) (z : spec_float) :
  rounds_to u z -> z <> S754_nan.
Proof. intros H E. now rewrite E in H. Qed.

(** Of two numbers, the rounding of the lesser is not above the rounding
    of the greater. *)
Lemma rounds_to_mono (u1 u2 : R) (z1 z2 : spec_float) :
  u1 < u2 -> rounds_to u1 z1 -> rounds_to u2 z2 ->
  valid_binary z1 = true -> valid_binary z2 = true ->
  SFleb z1 z2 = true.
Proof.
  intros Hu H1 H2 V1 V2. pose proof threshold_pos as HT.
  destruct (finite z1) eqn:F1, (finite z2) eqn:F2.
  - apply SFleb_finite; try assumption.
    apply rounds_to_finite in H1 as [_ H1]; [|assumption].
    apply rounds_to_finite in H2 as [_ H2]; [|assumption].
    specialize (H1 z2 V2 F2). specialize (H2 z1 V1 F1).
    unfold Rabs in H1, H2.
    destruct (Rcase_abs (SF2R z1 - u1)), (Rcase_abs (SF2R z2 - u1)),
      (Rcase_abs (SF2R z2 - u2)), (Rcase_abs (SF2R z1 - u2)); lra.
  - apply rounds_to_finite in H1 as [H1 _]; [|assumption].
    destruct z2 as [s|[|]| |s m e]; try discriminate F2.
    + exfalso. cbn [rounds_to] in H2. unfold Rabs in H1.
      destruct (Rcase_abs u1); lra.
    + apply SFleb_pos_infinity. now destruct z1.
    + contradiction.
  - apply rounds_to_finite in H2 as [H2 _]; [|assumption].
    destruct z1 as [s|[|]| |s m e]; try discriminate F1.
    + apply SFleb_neg_infinity. now destruct z2.
    + exfalso. cbn [rounds_to] in H1. unfold Rabs in H2.
      destruct (Rcase_abs u2); lra.
    + contradiction.
  - destruct z1 as [s|[|]| |s m e]; try discriminate F1; try contradiction;
      destruct z2 as [s|[|]| |s m e]; try discriminate F2; try contradiction;
      try reflexivity.
    exfalso. cbn [rounds_to] in H1, H2. lra.
Qed.

(** *** Operations that round an increasing function *)

Definition is_zero (z : spec_float) : bool :=
  match z with
  | S754_zero _ => true
  | _ => false
  end.

(** Two finite numbers of the same value are the same, or two zeros. *)
Lemma SF2R_inj (x y : spec_float) :
  valid_binary x = true -> valid_binary y = true ->
  finite x = true -> finite y = true ->
  SF2R x = SF2R y ->
  x = y \/ (is_zero x = true /\ is_zero y = true).
Proof.
  intros Hx Hy Fx Fy.
  destruct x as [sx|sx| |sx mx ex]; try discriminate Fx;
    destruct y as [sy|sy| |sy my ey]; try discriminate Fy;
    cbn [SF2R valid_binary] in *; rewrite ?F2R_opp.
  - right. now split.
  - pose proof (F2R_pos my ey). destruct sy; lra.
  - pose proof (F2R_pos mx ex). destruct sx; lra.
  - pose proof (F2R_pos mx ex). pose proof (F2R_pos my ey).
    pose proof (compare_canonical mx my ex ey Hx Hy) as Hc.
    intro E. left.
    assert (Hv : F2R (Zpos mx) ex = F2R (Zpos my) ey /\ sx = sy)
      by (destruct sx, sy; split; (reflexivity || lra)).
    destruct Hv as [Hv <-].
    destruct (Z.compare_spec ex ey) as [->|He|He]; cbn [compares] in Hc;
      [|lra|lra].
    change (Pos.compare_cont Eq mx my) with (Pos.compare mx my) in Hc.
    destruct (Pos.compare_spec mx my) as [->|Hm|Hm]; cbn [compares] in Hc;
      [reflexivity|lra|lra].
Qed.

(** [op] rounds the increasing function [g]: it keeps the infinities, and
    maps a finite number [x] to a rounding of [g x]. *)
Record rounds (op : spec_float -> spec_float) (g : R -> R) : Prop := {
  rounds_infinity : forall s, op (S754_infinity s) = S754_infinity s;
  rounds_zero :
    forall s s', SFleb (op (S754_zero s)) (op (S754_zero s')) = true;
  rounds_finite :
    forall x, valid_binary x = true -> finite x = true ->
              rounds_to (g (SF2R x)) (op x);
  rounds_increasing : forall u v, u < v -> g u < g v
}.

Lemma rounds_monotone (op : spec_float -> spec_float) (g : R -> R) :
  rounds op g ->
  forall x y,
    valid_binary x = true -> valid_binary y = true ->
    valid_binary (op x) = true -> valid_binary (op y) = true ->
    SFleb x y = true -> SFleb (op x) (op y) = true.
Proof.
  intros [Hinf Hzero Hfin Hinc] x y Vx Vy Vox Voy Hle.
  destruct (finite x) eqn:Fx, (finite y) eqn:Fy.
  - pose proof (Hfin x Vx Fx) as Rx. pose proof (Hfin y Vy Fy) as Ry.
    apply SFleb_finite in Hle; try assumption.
    destruct Hle as [Hlt|Heq].
    + apply (rounds_to_mono (g (SF2R x)) (g (SF2R y))); try assumption.
      now apply Hinc.
    + destruct (SF2R_inj x y Vx Vy Fx Fy Heq) as [->|[Zx Zy]].
      * apply SFleb_refl. now apply rounds_to_not_nan in Ry.
      * destruct x; try discriminate Zx. destruct y; try discriminate Zy.
        apply Hzero.
  - pose proof (Hfin x Vx Fx) as Rx. apply rounds_to_not_nan in Rx.
    destruct y as [s|[|]| |s m e]; try discriminate Fy.
    + now destruct x as [[|]|[|]| |[|] ? ?].
    + rewrite Hinf. now apply SFleb_pos_infinity.
    + now destruct x.
  - pose proof (Hfin y Vy Fy) as Ry. apply rounds_to_not_nan in Ry.
    destruct x as [s|[|]| |s m e]; try discriminate Fx.
    + rewrite Hinf. now apply SFleb_neg_infinity.
    + now destruct y as [[|]|[|]| |[|] ? ?].
    + discriminate Hle.
  - destruct x as [s|sx| |s m e]; try discriminate Fx; try discriminate Hle.
    destruct y as [s|sy| |s m e]; try discriminate Fy; try discriminate Hle.
    rewrite !Hinf. exact Hle.
Qed.

(** *** Monotone functions on [float] *)

Definition monotone (f : float -> float) : Prop :=
  forall a b, (a <=? b)%float = true -> (f a <=? f b)%float = true.

Lemma monotone_of_rounds (f : float -> float)
  (op : spec_float -> spec_float) (g : R -> R) :
  (forall x, Prim2SF (f x) = op (Prim2SF x)) -> rounds op g -> monotone f.
Proof.
  intros Hf Hop a b. rewrite !leb_spec, !Hf.
  apply (rounds_monotone op g Hop);
    rewrite <- ?Hf; apply Prim2SF_valid.
Qed.

Lemma monotone_compose (f g : float -> float) :
  monotone f -> monotone g -> monotone (fun x => g (f x)).
Proof. intros Hf Hg a b H. now apply Hg, Hf. Qed.

Lemma ltb_leb (a b : float) :
  (a <? b)%float = true -> (a <=? b)%float = true.
Proof.
  rewrite ltb_spec, leb_spec. unfold SFltb, SFleb.
  now destruct (SFcompare (Prim2SF a) (Prim2SF b)) as [[| |]|].
Qed.

(** *** Multiplication by a positive constant *)

(** A positive number whose mantissa has all 53 bits *)
Definition positive_normal (c : spec_float) : bool :=
  match c with
  | S754_finite false m e =>
      SpecFloat.bounded prec emax m e && (Zpos (digits2_pos m) =? 53)%Z
  | _ => false
  end.

Lemma F2R_mult (m1 m2 e1 e2 : Z) :
  F2R m1 e1 * F2R m2 e2 = F2R (m1 * m2) (e1 + e2).
Proof. unfold F2R. rewrite mult_IZR, bpow_plus. ring. Qed.

Lemma signed_F2R (s : bool) (m : positive) (e : Z) :
  signed s (F2R (Zpos m) e) = F2R (cond_Zopp s (Zpos m)) e.
Proof. now rewrite F2R_opp. Qed.

Lemma rounds_to_zero (s : bool) : rounds_to 0 (S754_zero s).
Proof.
  cbn [rounds_to SF2R]. pose proof threshold_pos. split.
  - rewrite Rabs_R0. lra.
  - intros y _ _. rewrite Rminus_diag, Rabs_R0. apply Rabs_pos.
Qed.

Lemma digits_product (m c : positive) :
  Zpos (digits2_pos c) = 53%Z -> (53 <= Zdigits2 (Zpos (m * c)))%Z.
Proof.
  intro Hc. destruct (digits_bounds c) as [Hlow _]. rewrite Hc in Hlow.
  destruct (Zdigits2_bounds (Zpos (m * c)) ltac:(lia)) as [_ Hup].
  apply Z.nlt_ge. intro Hlt.
  assert (2 ^ Zdigits2 (Z.pos (m * c)) <= 2 ^ 52)%Z
    by (apply Z.pow_le_mono_r; lia).
  change (53 - 1)%Z with 52%Z in Hlow. nia.
Qed.

Lemma SFmul_rounds (c : spec_float) :
  positive_normal c = true ->
  rounds (fun x => SFmul prec emax x c) (fun u => u * SF2R c).
Proof.
  destruct c as [|s| |[|] mc ec]; try discriminate. cbn [positive_normal].
  intro H. apply andb_prop in H as [Hb Hd]. apply Z.eqb_eq in Hd.
  pose proof (F2R_pos mc ec) as Hc.
  split.
  - now intros [|].
  - now intros [|] [|].
  - intros [sx|sx| |sx mx ex] Vx Fx; try discriminate Fx; cbn [SFmul SF2R].
    + rewrite Rmult_0_l. apply rounds_to_zero.
    + cbn [cond_Zopp]. rewrite xorb_false_r, F2R_mult.
      replace (cond_Zopp sx (Z.pos mx) * Z.pos mc)%Z
        with (cond_Zopp sx (Z.pos (mx * mc))) by (now destruct sx).
      rewrite <- signed_F2R.
      apply binary_round_aux_correct.
      * split; [cbn; lia|]. reflexivity.
      * pose proof (digits_product mx mc Hd). rewrite fexp_binary64. lia.
  - intros u v Huv. cbn [SF2R cond_Zopp]. now apply Rmult_lt_compat_r.
Qed.

(** *** Addition of a constant *)

Lemma iter_xO_value (d m : positive) :
  Zpos (Pos.iter xO m d) = (Zpos m * 2 ^ Zpos d)%Z.
Proof.
  induction d as [|d IH] using Pos.peano_ind.
  - cbn [Pos.iter]. lia.
  - rewrite Pos.iter_succ, Pos2Z.inj_xO, IH, Pos2Z.inj_succ, Z.pow_succ_r; lia.
Qed.

Lemma iter_xO_digits (d m : positive) :
  Zpos (digits2_pos (Pos.iter xO m d)) = (Zpos (digits2_pos m) + Zpos d)%Z.
Proof.
  induction d as [|d IH] using Pos.peano_ind.
  - cbn [Pos.iter digits2_pos]. lia.
  - rewrite Pos.iter_succ. cbn [digits2_pos]. lia.
Qed.

Lemma F2R_shift (m e d : Z) :
  (0 <= d)%Z -> F2R (m * 2 ^ d) (e - d) = F2R m e.
Proof.
  intro Hd. unfold F2R. rewrite mult_IZR, <- bpow_IZR by assumption.
  replace e with ((e - d) + d)%Z at 2 by lia. rewrite bpow_plus. ring.
Qed.

(** [shl_align] lowers the exponent to [e'], keeping the value. *)
Lemma shl_align_spec (m : positive) (e e' : Z) :
  (e' <= e)%Z ->
  snd (shl_align m e e') = e'
  /\ Zpos (fst (shl_align m e e')) = (Zpos m * 2 ^ (e - e'))%Z
  /\ (Zpos (digits2_pos (fst (shl_align m e e'))) + e'
      = Zpos (digits2_pos m) + e)%Z.
Proof.
  intro He. unfold shl_align.
  destruct (e' - e)%Z as [|d|d] eqn:Ed; try lia; cbn [fst snd].
  - replace (e - e')%Z with 0%Z by lia. repeat split; lia.
  - rewrite iter_xO_value, iter_xO_digits.
    replace (e - e')%Z with (Zpos d) by lia. repeat split; lia.
Qed.

Lemma binary_round_correct (s : bool) (m : positive) (e : Z) :
  rounds_to (signed s (F2R (Zpos m) e)) (binary_round prec emax s m e).
Proof.
  unfold binary_round.
  set (e' := fexp prec emax (Z.pos (digits2_pos m) + e)).
  destruct (Z.le_gt_cases e' e) as [He|He].
  - destruct (shl_align_spec m e e' He) as (H1 & H2 & H3).
    destruct (shl_align m e e') as [mz ez]. cbn [fst snd] in *. subst ez.
    replace (F2R (Zpos m) e) with (F2R (Zpos mz) e').
    + apply binary_round_aux_correct.
      * split; [cbn; lia | reflexivity].
      * cbn [Zdigits2]. rewrite H3. fold e'. lia.
    + rewrite H2. replace e' with (e - (e - e'))%Z at 2 by lia.
      apply F2R_shift. lia.
  - unfold shl_align. destruct (e' - e)%Z as [|d|d] eqn:Ed; try lia.
    apply binary_round_aux_correct.
    + split; [cbn; lia | reflexivity].
    + cbn [Zdigits2]. fold e'. lia.
Qed.

Lemma binary_normalize_correct (m e : Z) (szero : bool) :
  rounds_to (F2R m e) (binary_normalize prec emax m e szero).
Proof.
  destruct m as [|p|p]; cbn [binary_normalize].
  - replace (F2R 0 e) with 0 by (unfold F2R; ring). apply rounds_to_zero.
  - apply (binary_round_correct false).
  - replace (F2R (Z.neg p) e) with (signed true (F2R (Zpos p) e))
      by (now rewrite signed_F2R).
    apply binary_round_correct.
Qed.

Lemma finite_bound (s : bool) (m : positive) (e : Z) :
  SpecFloat.bounded prec emax m e = true -> F2R (Zpos m) e <= threshold.
Proof.
  intro H. apply bounded_spec in H as [H1 H2].
  destruct (digits_bounds m) as [_ Hm].
  assert (Hd : (Zpos (digits2_pos m) <= 53)%Z) by lia.
  assert (Hm' : (Zpos m <= 2 ^ 53 - 1)%Z).
  { assert (2 ^ Zpos (digits2_pos m) <= 2 ^ 53)%Z
      by (apply Z.pow_le_mono_r; lia). lia. }
  destruct threshold_bounds as (_ & <- & _).
  apply IZR_le in Hm'. pose proof (bpow_le e 971 H2).
  pose proof (bpow_gt_0 e). pose proof (bpow_gt_0 971).
  assert (0 < IZR (Zpos m)) by (apply IZR_lt; lia).
  unfold F2R.
  apply Rle_trans with (IZR (Zpos m) * bpow 971).
  - apply Rmult_le_compat_l; lra.
  - apply Rle_trans with (IZR (2 ^ 53 - 1) * bpow 971); [|lra].
    apply Rmult_le_compat_r; lra.
Qed.

(** A finite number is a rounding of its own value. *)
Lemma rounds_to_exact (z : spec_float) :
  valid_binary z = true -> finite z = true -> rounds_to (SF2R z) z.
Proof.
  intros V F. destruct z as [s|s| |s m e]; try discriminate F.
  - apply rounds_to_zero.
  - cbn [rounds_to]. split.
    + rewrite Rabs_SF2R_finite. now apply (finite_bound s).
    + intros y _ _. rewrite Rminus_diag, Rabs_R0. apply Rabs_pos.
Qed.

Lemma F2R_plus (m1 m2 e : Z) : F2R (m1 + m2) e = F2R m1 e + F2R m2 e.
Proof. unfold F2R. rewrite plus_IZR. ring. Qed.

Lemma shl_align_value (s : bool) (m : positive) (e e' : Z) :
  (e' <= e)%Z ->
  F2R (cond_Zopp s (Zpos (fst (shl_align m e e')))) e'
  = F2R (cond_Zopp s (Zpos m)) e.
Proof.
  intro He. destruct (shl_align_spec m e e' He) as (_ & H & _).
  rewrite H.
  replace (cond_Zopp s (Z.pos m * 2 ^ (e - e')))
    with (cond_Zopp s (Z.pos m) * 2 ^ (e - e'))%Z
    by (destruct s; cbn [cond_Zopp]; lia).
  replace e' with (e - (e - e'))%Z at 2 by lia. apply F2R_shift. lia.
Qed.

Lemma SFadd_rounds (c : spec_float) :
  valid_binary c = true -> finite c = true -> is_zero c = false ->
  rounds (fun x => SFadd prec emax x c) (fun u => u + SF2R c).
Proof.
  destruct c as [|s| |sc mc ec]; try discriminate. intros Vc _ _.
  split.
  - now intros [|].
  - intros s s'. cbn [SFadd]. now apply SFleb_refl.
  - intros [sx|sx| |sx mx ex] Vx Fx; try discriminate Fx.
    + cbn [SFadd]. replace (SF2R (S754_zero sx)) with 0 by reflexivity.
      rewrite Rplus_0_l. now apply rounds_to_exact.
    + cbn [SFadd SF2R].
      rewrite <- (shl_align_value sx mx ex (Z.min ex ec)) by lia.
      rewrite <- (shl_align_value sc mc ec (Z.min ex ec)) by lia.
      rewrite <- F2R_plus. apply binary_normalize_correct.
  - intros u v Huv. lra.
Qed.

(** *** Subtraction of a constant *)

Lemma SFsub_SFadd (x : spec_float) (s : bool) (m : positive) (e : Z) :
  SFsub prec emax x (S754_finite s m e)
  = SFadd prec emax x (S754_finite (negb s) m e).
Proof.
  destruct x as [sx|sx| |sx mx ex]; try reflexivity. cbn [SFsub SFadd].
  f_equal. destruct s; cbn [negb cond_Zopp]; lia.
Qed.

(** *** Division by a positive constant *)

Lemma located_fraction (q e : Z) (t : R) (l : location) :
  (0 <= q)%Z ->
  match l with
  | loc_Exact => t = 0
  | loc_Inexact Lt => 0 < t < / 2
  | loc_Inexact Eq => t = / 2
  | loc_Inexact Gt => / 2 < t < 1
  end ->
  located_record (shr_record_of_loc q l) e ((IZR q + t) * bpow e).
Proof.
  intros Hq Ht. pose proof (bpow_gt_0 e) as HB.
  destruct l as [|[| |]]; (split; [exact Hq|]);
    cbn [shr_record_of_loc shr_m shr_r shr_s located]; unfold F2R.
  - rewrite Ht. ring.
  - rewrite Ht. ring.
  - split; apply Rmult_lt_compat_r; lra.
  - split; apply Rmult_lt_compat_r; lra.
Qed.

(** The location of [k / n] in the unit interval *)
Lemma new_location_spec (n k : Z) :
  (0 < n)%Z -> (0 <= k < n)%Z ->
  match new_location n k with
  | loc_Exact => IZR k / IZR n = 0
  | loc_Inexact Lt => 0 < IZR k / IZR n < / 2
  | loc_Inexact Eq => IZR k / IZR n = / 2
  | loc_Inexact Gt => / 2 < IZR k / IZR n < 1
  end.
Proof.
  intros Hn Hk.
  assert (Hn' : 0 < IZR n) by (apply IZR_lt; lia).
  set (t := IZR k / IZR n).
  assert (Ht : t * IZR n = IZR k) by (unfold t; field; lra).
  assert (Hlow : (0 < k)%Z -> 0 < t).
  { intro H. apply IZR_lt in H. apply Rmult_lt_reg_r with (IZR n); lra. }
  assert (Hhigh : t < 1).
  { apply Rmult_lt_reg_r with (IZR n); [lra|].
    assert (IZR k < IZR n) by (apply IZR_lt; lia). lra. }
  assert (Hlt : (2 * k < n)%Z -> t < / 2).
  { intro H. apply IZR_lt in H. rewrite mult_IZR in H.
    apply Rmult_lt_reg_r with (IZR n); lra. }
  assert (Hgt : (n < 2 * k)%Z -> / 2 < t).
  { intro H. apply IZR_lt in H. rewrite mult_IZR in H.
    apply Rmult_lt_reg_r with (IZR n); lra. }
  assert (Heq : (2 * k = n)%Z -> t = / 2).
  { intro H. apply (f_equal IZR) in H. rewrite mult_IZR in H.
    apply Rmult_eq_reg_r with (IZR n); lra. }
  unfold new_location, new_location_even, new_location_odd.
  destruct (Z.even n) eqn:En.
  - destruct (Z.eqb_spec k 0) as [->|Hk0].
    + unfold t. unfold Rdiv. apply Rmult_0_l.
    + destruct (Z.compare_spec (2 * k) n).
      * now apply Heq.
      * split; [apply Hlow | apply Hlt]; lia.
      * split; [apply Hgt; lia | exact Hhigh].
  - destruct (Z.eqb_spec k 0) as [->|Hk0].
    + unfold t. unfold Rdiv. apply Rmult_0_l.
    + assert (Hodd : (2 * k <> n)%Z).
      { intro E. rewrite <- E, Z.even_mul in En. discriminate En. }
      destruct (Z.compare_spec (2 * k + 1) n).
      * split; [apply Hlow | apply Hlt]; lia.
      * split; [apply Hlow | apply Hlt]; lia.
      * split; [apply Hgt; lia | exact Hhigh].
Qed.

Lemma digits_lower (q k : Z) :
  (0 <= k)%Z -> (2 ^ k <= q)%Z -> (k + 1 <= Zdigits2 q)%Z.
Proof.
  intros Hk Hq.
  assert (Hpos : (0 < q)%Z) by (pose proof (Z.pow_pos_nonneg 2 k); lia).
  destruct (Zdigits2_bounds q Hpos) as [_ Hup].
  apply Z.nlt_ge. intro Hlt.
  assert (2 ^ Zdigits2 q <= 2 ^ k)%Z
    by (apply Z.pow_le_mono_r; pose proof (Zdigits2_nonneg q); lia).
  lia.
Qed.

Lemma SFdiv_core_binary_spec (mx mc : positive) (ex ec : Z) :
  exists q r e',
    SFdiv_core_binary prec emax (Zpos mx) ex (Zpos mc) ec
    = (q, e', new_location (Zpos mc) r)
    /\ (0 <= r < Zpos mc)%Z /\ (0 <= q)%Z
    /\ (0 <= ex - ec - e')%Z
    /\ (Zpos mx * 2 ^ (ex - ec - e') = Zpos mc * q + r)%Z
    /\ (e' <= fexp prec emax (Zdigits2 q + e'))%Z.
Proof.
  unfold SFdiv_core_binary. cbn [Zdigits2].
  set (d1 := Zpos (digits2_pos mx)). set (d2 := Zpos (digits2_pos mc)).
  set (e' := Z.min (fexp prec emax (d1 + ex - (d2 + ec))) (ex - ec)).
  set (s := (ex - ec - e')%Z).
  assert (Hs : (0 <= s)%Z) by (unfold s, e'; lia).
  set (m' := match s with
             | 0%Z => Zpos mx
             | Zpos _ => Z.shiftl (Zpos mx) s
             | Zneg _ => 0%Z
             end).
  assert (Hm' : m' = (Zpos mx * 2 ^ s)%Z).
  { unfold m'. destruct s as [|p|p] eqn:Es; [lia| |lia].
    apply Z.shiftl_mul_pow2. lia. }
  pose proof (Z_div_mod m' (Zpos mc) ltac:(lia)) as Hdiv.
  destruct (Z.div_eucl m' (Zpos mc)) as [q r]. destruct Hdiv as [Hq Hr].
  exists q, r, e'. split; [reflexivity|].
  assert (Hm0 : (0 < m')%Z).
  { rewrite Hm'. pose proof (Z.pow_pos_nonneg 2 s). lia. }
  assert (Hq0 : (0 <= q)%Z) by nia.
  split; [exact Hr|]. split; [exact Hq0|]. split; [exact Hs|].
  split; [fold s; rewrite <- Hm'; exact Hq|].
  rewrite fexp_binary64.
  destruct (Z.le_gt_cases e' (-1074)) as [Hsub|Hnorm]; [lia|].
  assert (He' : (e' <= d1 + ex - (d2 + ec) - 53)%Z)
    by (unfold e' in *; rewrite fexp_binary64 in *; lia).
  destruct (digits_bounds mx) as [Hx _]. fold d1 in Hx.
  destruct (digits_bounds mc) as [_ Hc]. fold d2 in Hc.
  assert (Hd1 : (1 <= d1)%Z) by (unfold d1; lia).
  assert (Hd2 : (1 <= d2)%Z) by (unfold d2; lia).
  assert (Hpow : (2 ^ 52 * 2 ^ d2 <= 2 ^ (d1 - 1) * 2 ^ s)%Z).
  { rewrite <- !Z.pow_add_r by lia. apply Z.pow_le_mono_r; unfold s; lia. }
  assert (Hbig : (2 ^ 52 <= q)%Z).
  { assert (0 < 2 ^ s)%Z by (apply Z.pow_pos_nonneg; lia).
    assert (2 ^ (d1 - 1) * 2 ^ s <= m')%Z by (rewrite Hm'; nia).
    assert (2 ^ 52 * Zpos mc < Zpos mc * (q + 1))%Z by nia.
    nia. }
  pose proof (digits_lower q 52 ltac:(lia) Hbig). lia.
Qed.

Definition positive_finite (c : spec_float) : bool :=
  match c with
  | S754_finite false _ _ => true
  | _ => false
  end.

Lemma quotient_value (mx mc : positive) (ex ec e' q r : Z) :
  (0 <= ex - ec - e')%Z ->
  (Zpos mx * 2 ^ (ex - ec - e') = Zpos mc * q + r)%Z ->
  F2R (Zpos mx) ex / F2R (Zpos mc) ec
  = (IZR q + IZR r / IZR (Zpos mc)) * bpow e'.
Proof.
  intros Hs H. unfold F2R.
  apply (f_equal IZR) in H.
  rewrite plus_IZR, !mult_IZR, <- bpow_IZR in H by assumption.
  replace ex with ((ex - ec - e') + ec + e')%Z at 1 by lia.
  rewrite !bpow_plus.
  pose proof (bpow_gt_0 ec).
  assert (0 < IZR (Zpos mc)) by (apply IZR_lt; lia).
  set (b := bpow (ex - ec - e')) in *.
  replace (IZR (Zpos mx) * (b * bpow ec * bpow e'))
    with ((IZR (Zpos mc) * IZR q + IZR r) * bpow ec * bpow e')
    by (rewrite <- H; ring).
  field. split; lra.
Qed.

Lemma SFdiv_rounds (c : spec_float) :
  positive_finite c = true ->
  rounds (fun x => SFdiv prec emax x c) (fun u => u / SF2R c).
Proof.
  destruct c as [|s| |[|] mc ec]; try discriminate. intros _.
  pose proof (F2R_pos mc ec) as Hc.
  split.
  - now intros [|].
  - now intros [|] [|].
  - intros [sx|sx| |sx mx ex] Vx Fx; try discriminate Fx; cbn [SFdiv SF2R].
    + unfold Rdiv. rewrite Rmult_0_l. apply rounds_to_zero.
    + destruct (SFdiv_core_binary_spec mx mc ex ec)
        as (q & r & e' & -> & Hr & Hq & Hs & Hm & He).
      rewrite xorb_false_r. cbn [cond_Zopp].
      replace (F2R (cond_Zopp sx (Zpos mx)) ex / F2R (Zpos mc) ec)
        with (signed sx (F2R (Zpos mx) ex / F2R (Zpos mc) ec)).
      2:{ rewrite F2R_opp. destruct sx; cbn [signed]; unfold Rdiv; ring. }
      apply binary_round_aux_correct; [|exact He].
      rewrite (quotient_value mx mc ex ec e' q r Hs Hm).
      apply located_fraction; [exact Hq|]. apply new_location_spec; lia.
  - intros u v Huv. cbn [SF2R cond_Zopp]. unfold Rdiv.
    apply Rmult_lt_compat_r; [|exact Huv]. now apply Rinv_0_lt_compat.
Qed.

(** *** The four operations on [float] *)

Lemma mul_monotone (c : float) :
  positive_normal (Prim2SF c) = true -> monotone (fun x => (x * c)%float).
Proof.
  intro H.
  apply (monotone_of_rounds _ (fun x => SFmul prec emax x (Prim2SF c))
           (fun u => u * SF2R (Prim2SF c))).
  - intro x. apply mul_spec.
  - now apply SFmul_rounds.
Qed.

Lemma div_monotone (c : float) :
  positive_finite (Prim2SF c) = true -> monotone (fun x => (x / c)%float).
Proof.
  intro H.
  apply (monotone_of_rounds _ (fun x => SFdiv prec emax x (Prim2SF c))
           (fun u => u / SF2R (Prim2SF c))).
  - intro x. apply div_spec.
  - now apply SFdiv_rounds.
Qed.

Lemma add_monotone (c : float) :
  finite (Prim2SF c) = true -> is_zero (Prim2SF c) = false ->
  monotone (fun x => (x + c)%float).
Proof.
  intros F Z.
  apply (monotone_of_rounds _ (fun x => SFadd prec emax x (Prim2SF c))
           (fun u => u + SF2R (Prim2SF c))).
  - intro x. apply add_spec.
  - apply SFadd_rounds; try assumption. apply Prim2SF_valid.
Qed.

Lemma sub_monotone (c : float) :
  finite (Prim2SF c) = true -> is_zero (Prim2SF c) = false ->
  monotone (fun x => (x - c)%float).
Proof.
  intros F Z. pose proof (Prim2SF_valid c) as V.
  destruct (Prim2SF c) as [|s| |s m e] eqn:E; try discriminate.
  apply (monotone_of_rounds _
           (fun x => SFadd prec emax x (S754_finite (negb s) m e))
           (fun u => u + SF2R (S754_finite (negb s) m e))).
  - intro x. rewrite sub_spec, E. apply SFsub_SFadd.
  - now apply SFadd_rounds.
Qed.

Lemma digits_53 (m : Z) : (2 ^ 52 <= m < 2 ^ 53)%Z -> Zdigits2 m = 53%Z.
Proof.
  intros [Hlow Hup].
  pose proof (digits_lower m 52 ltac:(lia) Hlow).
  pose proof (Zdigits2_le m 53 ltac:(lia) ltac:(lia)). lia.
Qed.

(** The result of [binary_round_aux] is in canonical form. *)
Theorem binary_round_aux_valid (s : bool) (mx ex : Z) (lx : location) (u : R) :
  located_record (shr_record_of_loc mx lx) ex u ->
  (ex <= fexp prec emax (Zdigits2 mx + ex))%Z ->
  valid_binary (binary_round_aux prec emax s mx ex lx) = true.
Proof.
  intros Hloc Hex.
  destruct (first_shift mx ex lx u Hloc Hex) as (mrs1 & H1 & Hloc1 & Hlt & Hnormal).
  set (e1 := fexp prec emax (Zdigits2 mx + ex)) in *.
  assert (He1 : (-1074 <= e1)%Z) by (unfold e1; rewrite fexp_binary64; lia).
  pose proof (round_nearest_even_spec mrs1 e1 u Hloc1) as Hround.
  cbv zeta in Hround.
  set (m1 := shr_m mrs1) in *.
  set (mr := round_nearest_even m1 (loc_of_shr_record mrs1)) in *.
  destruct Hloc1 as [Hm1 _].
  assert (Hmr : (m1 <= mr <= m1 + 1)%Z)
    by (destruct Hround as [[-> _]|[-> _]]; lia).
  destruct (second_shift mr e1 ltac:(lia) He1)
    as (mrs2 & e2 & H2 & _ & Hm2 & Hcases).
  unfold binary_round_aux. rewrite H1. fold m1 mr. rewrite H2.
  destruct (shr_m mrs2) as [|m2|m2] eqn:Em2; [reflexivity | | lia].
  destruct (Z.leb_spec e2 (emax - prec)) as [He2|He2]; [|reflexivity].
  cbn [SpecFloat.valid_binary]. unfold SpecFloat.bounded, canonical_mantissa.
  apply andb_true_intro. split; [|now apply Z.leb_le].
  apply Z.eqb_eq. rewrite fexp_binary64.
  change (Z.pos (digits2_pos m2)) with (Zdigits2 (Z.pos m2)).
  destruct Hcases as [[-> Em]|(-> & _ & Em)].
  - destruct (Z.eq_dec e1 (-1074)) as [E|E].
    + pose proof (Zdigits2_le (Z.pos m2) 53 ltac:(lia) ltac:(lia)). lia.
    + specialize (Hnormal ltac:(lia)). rewrite (digits_53 (Z.pos m2)); lia.
  - rewrite Em. change (Zdigits2 (2 ^ 52)) with 53%Z. lia.
Qed.

End Binary64.

(** Every formula of the table is a chain of steps that preserve the
    order: a product or a quotient by a positive constant, a sum or a
    difference with a constant. *)
Lemma conversions_monotone (fromUnit toUnit : string)
  (row : list (string * (float -> float))) (conversion : float -> float) :
  own fromUnit conversions = Some row -> own toUnit row = Some conversion ->
  Binary64.monotone conversion.
Proof.
  intros Hrow Hconv. apply own_In in Hrow.
  destruct Hrow as [H|[H|[H|[H|[H|[H|[]]]]]]]; injection H as <- <-;
    apply own_In in Hconv; destruct Hconv as [H|[]]; injection H as <- <-.
  - apply (Binary64.monotone_compose
             (fun c => (c * 9 / 5)%float) (fun x => (x + 32)%float)).
    + apply (Binary64.monotone_compose
               (fun c => (c * 9)%float) (fun x => (x / 5)%float)).
      * now apply Binary64.mul_monotone.
      * now apply Binary64.div_monotone.
    + now apply Binary64.add_monotone.
  - apply (Binary64.monotone_compose
             (fun f => ((f - 32) * 5)%float) (fun x => (x / 9)%float)).
    + apply (Binary64.monotone_compose
               (fun f => (f - 32)%float) (fun x => (x * 5)%float)).
      * now apply Binary64.sub_monotone.
      * now apply Binary64.mul_monotone.
    + now apply Binary64.div_monotone.
  - now apply Binary64.mul_monotone.
  - now apply Binary64.mul_monotone.
  - now apply Binary64.mul_monotone.
  - now apply Binary64.mul_monotone.
Qed.

(** C6, amended: for every supported unit pair the conversion function
    preserves the order weakly: for all values a and b with a < b, the
    converted result of a is less than or equal to the converted result of
    b (two close values can round to the same result). *)
Theorem C6_conversion_preserves_order (fromUnit toUnit : string)
  (row : list (string * (float -> float))) (conversion : float -> float)
  (a b : float) :
  own fromUnit conversions = Some row -> own toUnit row = Some conversion ->
  (a <? b)%float = true ->
  (conversion a <=? conversion b)%float = true.
Proof.
  intros Hrow Hconv Hlt.
  apply (conversions_monotone fromUnit toUnit row conversion Hrow Hconv).
  now apply Binary64.ltb_leb.
Qed.

Lemma C6_preserves_order_witness :
  (36.6 <? 36.7)%float = true
  /\ ((36.6 * 9 / 5 + 32) <=? (36.7 * 9 / 5 + 32))%float = true.
Proof.
  split; [reflexivity|].
  apply (C6_conversion_preserves_order "celsius" "fahrenheit"
           [("fahrenheit", fun c => (c * 9 / 5 + 32)%float)]
           (fun c => (c * 9 / 5 + 32)%float) 36.6%float 36.7%float);
    reflexivity.
Defined.

(** ** calculate *)

Module JSEvalFacts.
Import JSEval.

(** *** Fuel: more fuel does not change a result, and the fuel given to
    the lexer and to the parser is enough *)

Definition refines {A : Type} (p q : parsing A) : Prop :=
  p = OutOfFuel \/ p = q.

Lemma refines_refl {A : Type} (p : parsing A) : refines p p.
Proof. now right. Qed.

Lemma andThen_refines {A B : Type} (p p' : parsing A) (k k' : A -> parsing B) :
  refines p p' -> (forall a, refines (k a) (k' a)) ->
  refines (andThen p k) (andThen p' k').
Proof.
  intros [-> | ->] Hk; [now left|].
  destruct p'; simpl; [now left | now right | apply Hk].
Qed.

Lemma expression_S (f min : nat) (ts : list token) :
  expression (S f) min ts
  = andThen (unary f ts)
      (fun '(lhs, is_unary, rest) => climb f min lhs is_unary rest).
Proof. reflexivity. Qed.

Lemma climb_S (f min : nat) (lhs : expr) (is_unary : bool) (ts : list token) :
  climb (S f) min lhs is_unary ts
  = match ts with
    | TPunct p :: ts' =>
        match binary p with
        | Some (op, precedence, right_min) =>
            if (min <=? precedence)%nat then
              match op, is_unary with
              | Exp, true => Rejected
              | _, _ =>
                  andThen (expression f right_min ts')
                    (fun '(rhs, rest) =>
                       climb f min (Binary op lhs rhs) false rest)
              end
            else Accepted (lhs, ts)
        | None => Accepted (lhs, ts)
        end
    | _ => Accepted (lhs, ts)
    end.
Proof. reflexivity. Qed.

Definition primary (f : nat) (e : expr) (rest : list token)
  : parsing (expr * bool * list token) :=
  andThen (call_tail f e rest) (fun '(e', rest') => Accepted (e', false, rest')).

Lemma unary_S (f : nat) (ts : list token) :
  unary (S f) ts
  = match ts with
    | TPunct Plus :: ts' =>
        andThen (unary f ts')
          (fun '(e, _, rest) => Accepted (Unary UPlus e, true, rest))
    | TPunct Minus :: ts' =>
        andThen (unary f ts')
          (fun '(e, _, rest) => Accepted (Unary UMinus e, true, rest))
    | TNumber x :: ts' => primary f (Num x) ts'
    | TRegExp body :: ts' => primary f (RegExp body) ts'
    | TPunct LParen :: ts' =>
        andThen (expression f 1 ts')
          (fun '(e, rest) => expect_rparen rest (primary f e))
    | _ => Rejected
    end.
Proof. reflexivity. Qed.

Definition argument (f : nat) (callee : expr) (spread : bool) (ts : list token)
  : parsing (expr * list token) :=
  andThen (expression f 1 ts)
    (fun '(a, rest) =>
       expect_rparen rest (call_tail f (CallWith callee spread a))).

Lemma call_tail_S (f : nat) (callee : expr) (ts : list token) :
  call_tail (S f) callee ts
  = match ts with
    | TPunct LParen :: TPunct RParen :: ts' => call_tail f (Call callee) ts'
    | TPunct LParen :: TPunct Ellipsis :: ts' => argument f callee true ts'
    | TPunct LParen :: ts' => argument f callee false ts'
    | _ => Accepted (callee, ts)
    end.
Proof. reflexivity. Qed.

Lemma expect_rparen_refines {A : Type} (ts : list token)
  (k k' : list token -> parsing A) :
  (forall r, refines (k r) (k' r)) ->
  refines (expect_rparen ts k) (expect_rparen ts k').
Proof.
  intro H. destruct ts as [|[| |[]] ts]; simpl; try apply refines_refl. apply H.
Qed.

Lemma parser_step (f : nat) :
  (forall min ts, refines (expression f min ts) (expression (S f) min ts))
  /\ (forall min lhs u ts,
         refines (climb f min lhs u ts) (climb (S f) min lhs u ts))
  /\ (forall ts, refines (unary f ts) (unary (S f) ts))
  /\ (forall callee ts,
         refines (call_tail f callee ts) (call_tail (S f) callee ts)).
Proof.
  induction f as [|f (IHe & IHc & IHu & IHt)].
  { repeat split; intros; now left. }
  assert (Hprimary : forall e rest, refines (primary f e rest) (primary (S f) e rest)).
  { intros. apply andThen_refines; [apply IHt | intros []; apply refines_refl]. }
  assert (Hargument : forall callee spread ts,
             refines (argument f callee spread ts) (argument (S f) callee spread ts)).
  { intros. apply andThen_refines; [apply IHe|].
    intros [a rest]. apply expect_rparen_refines. intro. apply IHt. }
  repeat split.
  - intros. rewrite !expression_S.
    apply andThen_refines; [apply IHu | intros [[] ]; apply IHc].
  - intros. rewrite !climb_S.
    destruct ts as [|[| |p] ts]; try apply refines_refl.
    destruct (binary p) as [[[op precedence] right_min]|]; try apply refines_refl.
    destruct (min <=? precedence)%nat; try apply refines_refl.
    destruct op, u; try apply refines_refl;
      (apply andThen_refines; [apply IHe | intros []; apply IHc]).
  - intros. rewrite !unary_S.
    destruct ts as [|[| |[]] ts]; try apply refines_refl;
      try apply Hprimary;
      try (apply andThen_refines; [apply IHu | intros [[] ]; apply refines_refl]).
    apply andThen_refines; [apply IHe|].
    intros []. apply expect_rparen_refines. intro. apply Hprimary.
  - intros. rewrite !call_tail_S.
    destruct ts as [|[| |[]] ts]; try apply refines_refl.
    destruct ts as [|[| |[]] ts]; try apply Hargument. apply IHt.
Qed.

Lemma refines_trans {A : Type} (p q r : parsing A) :
  refines p q -> refines q r -> refines p r.
Proof. intros [-> | ->] H; [now left | exact H]. Qed.

Lemma expression_more_fuel (f f' min : nat) (ts : list token) :
  (f <= f')%nat -> refines (expression f min ts) (expression f' min ts).
Proof.
  induction 1 as [|f' _ IH]; [apply refines_refl|].
  eapply refines_trans; [exact IH | apply parser_step].
Qed.

Lemma climb_more_fuel (f f' min : nat) lhs u (ts : list token) :
  (f <= f')%nat -> refines (climb f min lhs u ts) (climb f' min lhs u ts).
Proof.
  induction 1 as [|f' _ IH]; [apply refines_refl|].
  eapply refines_trans; [exact IH | apply parser_step].
Qed.

Lemma unary_more_fuel (f f' : nat) (ts : list token) :
  (f <= f')%nat -> refines (unary f ts) (unary f' ts).
Proof.
  induction 1 as [|f' _ IH]; [apply refines_refl|].
  eapply refines_trans; [exact IH | apply parser_step].
Qed.

Lemma call_tail_more_fuel (f f' : nat) callee (ts : list token) :
  (f <= f')%nat -> refines (call_tail f callee ts) (call_tail f' callee ts).
Proof.
  induction 1 as [|f' _ IH]; [apply refines_refl|].
  eapply refines_trans; [exact IH | apply parser_step].
Qed.

(** [p] did not run out of fuel, and what it left unread satisfies [P]. *)
Definition finished {A : Type} (rest_of : A -> list token)
  (P : list token -> Prop) (p : parsing A) : Prop :=
  match p with
  | OutOfFuel => False
  | Rejected => True
  | Accepted a => P (rest_of a)
  end.

Lemma andThen_finished {A B : Type} (ra : A -> list token) (rb : B -> list token)
  (P Q : list token -> Prop) (p : parsing A) (k : A -> parsing B) :
  finished ra P p -> (forall a, P (ra a) -> finished rb Q (k a)) ->
  finished rb Q (andThen p k).
Proof. destruct p; simpl; auto. Qed.

Definition shorter (ts rest : list token) : Prop :=
  (List.length rest < List.length ts)%nat.

Definition no_longer (ts rest : list token) : Prop :=
  (List.length rest <= List.length ts)%nat.

Lemma expect_rparen_finished {A : Type} (ra : A -> list token)
  (Q : list token -> Prop) (ts : list token) (k : list token -> parsing A) :
  (forall r, shorter ts r -> finished ra Q (k r)) ->
  finished ra Q (expect_rparen ts k).
Proof.
  intro H. destruct ts as [|[| |[]] ts]; simpl; auto.
  apply H. unfold shorter. simpl. lia.
Qed.

Lemma parser_enough (f : nat) :
  (forall min ts, (3 * List.length ts + 3 <= f)%nat ->
     finished snd (shorter ts) (expression f min ts))
  /\ (forall min lhs u ts, (3 * List.length ts + 1 <= f)%nat ->
        finished snd (no_longer ts) (climb f min lhs u ts))
  /\ (forall ts, (3 * List.length ts + 2 <= f)%nat ->
        finished snd (shorter ts) (unary f ts))
  /\ (forall callee ts, (3 * List.length ts + 1 <= f)%nat ->
        finished snd (no_longer ts) (call_tail f callee ts)).
Proof.
  induction f as [|f (IHe & IHc & IHu & IHt)].
  { repeat split; intros; lia. }
  assert (Hprimary : forall e ts rest,
             shorter ts rest -> (3 * List.length ts + 1 <= f)%nat ->
             finished snd (shorter ts) (primary f e rest)).
  { intros e ts rest Hs Hf.
    apply (andThen_finished snd snd (no_longer rest)).
    - apply IHt. unfold shorter in Hs. lia.
    - intros [e' r]. unfold no_longer, shorter in *. simpl. lia. }
  assert (Hargument : forall callee spread ts,
             (3 * List.length ts + 3 <= f)%nat ->
             finished snd (no_longer ts) (argument f callee spread ts)).
  { intros callee spread ts Hf.
    apply (andThen_finished snd snd (shorter ts)); [now apply IHe|].
    intros [a rest] Hs. apply expect_rparen_finished. intros r Hr.
    simpl in Hs. unfold shorter in *.
    assert (Ht : finished snd (no_longer r)
                   (call_tail f (CallWith callee spread a) r))
      by (apply IHt; lia).
    destruct (call_tail f (CallWith callee spread a) r) as [| |[]]; simpl in *;
      auto. unfold no_longer in *. simpl in *. lia. }
  repeat split.
  - intros min ts Hf. rewrite expression_S.
    apply (andThen_finished snd snd (shorter ts)); [apply IHu; lia|].
    intros [[lhs u] rest] Hs. simpl in Hs. unfold shorter in Hs.
    assert (Hc : finished snd (no_longer rest) (climb f min lhs u rest))
      by (apply IHc; lia).
    destruct (climb f min lhs u rest) as [| |[]]; simpl in *; auto.
    unfold no_longer, shorter in *. simpl in *. lia.
  - intros min lhs u ts Hf. rewrite climb_S.
    destruct ts as [|[| |p] ts]; try (simpl; unfold no_longer; simpl; lia).
    destruct (binary p) as [[[op precedence] right_min]|];
      try (simpl; unfold no_longer; simpl; lia).
    destruct (min <=? precedence)%nat; try (simpl; unfold no_longer; simpl; lia).
    simpl in Hf.
    assert (Hgo : finished snd (no_longer (TPunct p :: ts))
                    (andThen (expression f right_min ts)
                       (fun '(rhs, rest) =>
                          climb f min (Binary op lhs rhs) false rest))).
    { apply (andThen_finished snd snd (shorter ts)); [apply IHe; lia|].
      intros [rhs rest] Hs. simpl in Hs. unfold shorter in Hs.
      assert (Hc : finished snd (no_longer rest)
                     (climb f min (Binary op lhs rhs) false rest))
        by (apply IHc; lia).
      destruct (climb f min (Binary op lhs rhs) false rest) as [| |[]];
        simpl in *; auto. unfold no_longer in *. simpl in *. lia. }
    destruct op, u; try exact Hgo; exact I.
  - intros ts Hf. rewrite unary_S.
    destruct ts as [|[x|body|[]] ts]; try exact I; simpl in Hf.
    + apply Hprimary; [unfold shorter; simpl; lia | simpl; lia].
    + apply Hprimary; [unfold shorter; simpl; lia | simpl; lia].
    + apply (andThen_finished snd snd (shorter ts)); [apply IHe; lia|].
      intros [e rest] Hs. simpl in Hs. apply expect_rparen_finished.
      intros r Hr. unfold shorter in *.
      assert (Hp : finished snd (shorter (TPunct LParen :: ts)) (primary f e r)).
      { apply Hprimary; [unfold shorter; simpl; lia | simpl; lia]. }
      exact Hp.
    + apply (andThen_finished snd snd (shorter ts)); [apply IHu; lia|].
      intros [[e u] rest] Hs. unfold shorter in *. simpl in *. lia.
    + apply (andThen_finished snd snd (shorter ts)); [apply IHu; lia|].
      intros [[e u] rest] Hs. unfold shorter in *. simpl in *. lia.
  - intros callee ts Hf. rewrite call_tail_S.
    destruct ts as [|[| |[]] ts]; try (simpl; unfold no_longer; simpl; lia).
    simpl in Hf.
    assert (Harg : forall spread ts',
               (List.length ts' <= List.length ts)%nat ->
               finished snd (no_longer (TPunct LParen :: ts))
                 (argument f callee spread ts')).
    { intros spread ts' Hl.
      assert (Ha : finished snd (no_longer ts') (argument f callee spread ts'))
        by (apply Hargument; lia).
      destruct (argument f callee spread ts') as [| |[]]; simpl in *; auto.
      unfold no_longer in *. simpl in *. lia. }
    destruct ts as [|[| |[]] ts']; try (apply Harg; simpl; lia).
    + simpl in Hf.
      assert (Ht : finished snd (no_longer ts') (call_tail f (Call callee) ts'))
        by (apply IHt; lia).
      destruct (call_tail f (Call callee) ts') as [| |[]]; simpl in *; auto.
      unfold no_longer in *. simpl in *. lia.
Qed.

Lemma expression_fuel (f min : nat) (ts : list token) r :
  expression f min ts = Accepted r ->
  expression (3 * List.length ts + 3) min ts = Accepted r.
Proof.
  intro H. destruct (Nat.le_ge_cases f (3 * List.length ts + 3)) as [Hle|Hge].
  - destruct (expression_more_fuel _ _ min ts Hle) as [E|E]; congruence.
  - destruct (expression_more_fuel _ _ min ts Hge) as [E|E]; [|congruence].
    pose proof (proj1 (parser_enough _) min ts (le_n _)) as Hfin.
    rewrite E in Hfin. contradiction.
Qed.

Definition emit (f : nat) (t : token) (operand : bool) (rest : string)
  : parsing (list token) :=
  andThen (lex f operand rest) (fun ts => Accepted (t :: ts)).

Lemma lex_S (f : nat) (operand : bool) (s : string) :
  lex (S f) operand s
  = match s with
    | EmptyString => Accepted []
    | String c s' =>
        if (c =? "(")%char then emit f (TPunct LParen) false s'
        else if (c =? ")")%char then emit f (TPunct RParen) true s'
        else if (c =? "+")%char then
          if starts_with "+" s' then emit f (TPunct PlusPlus) false (drop 1 s')
          else emit f (TPunct Plus) false s'
        else if (c =? "-")%char then
          if starts_with "-" s' then emit f (TPunct MinusMinus) false (drop 1 s')
          else emit f (TPunct Minus) false s'
        else if (c =? "*")%char then
          if starts_with "*" s' then emit f (TPunct StarStar) false (drop 1 s')
          else emit f (TPunct Star) false s'
        else if (c =? "/")%char then
          if starts_with "/" s' then Accepted []
          else if starts_with "*" s' then
            match skip_comment (drop 1 s') with
            | Some rest => lex f operand rest
            | None => Rejected
            end
          else if operand then emit f (TPunct Slash) false s'
          else
            match scan_regexp s' with
            | Some (body, rest) => emit f (TRegExp body) true rest
            | None => Rejected
            end
        else if (c =? ".")%char && negb (starts_with_digit s') then
          if prefix ".." s' then emit f (TPunct Ellipsis) false (drop 2 s')
          else emit f (TPunct Dot) false s'
        else if is_digit c || (c =? ".")%char then
          match scan_number s with
          | Some (x, rest) => emit f (TNumber x) true rest
          | None => Rejected
          end
        else Rejected
    end.
Proof. reflexivity. Qed.

Lemma lex_step (f : nat) (operand : bool) (s : string) :
  refines (lex f operand s) (lex (S f) operand s).
Proof.
  revert operand s. induction f as [|f IH]; intros; [now left|].
  assert (Hemit : forall t o r, refines (emit f t o r) (emit (S f) t o r)).
  { intros. apply andThen_refines; [apply IH | intro; apply refines_refl]. }
  rewrite (lex_S f), (lex_S (S f)).
  destruct s as [|c s']; [apply refines_refl|].
  repeat match goal with
         | |- refines (if ?b then _ else _) _ => destruct b
         | |- refines (match ?x with Some _ => _ | None => _ end) _ =>
             destruct x as [[]|]
         | |- refines (match skip_comment ?x with _ => _ end) _ =>
             destruct (skip_comment x)
         end;
    try apply Hemit; try apply refines_refl; apply IH.
Qed.

Lemma lex_more_fuel (f f' : nat) (operand : bool) (s : string) :
  (f <= f')%nat -> refines (lex f operand s) (lex f' operand s).
Proof.
  induction 1 as [|f' _ IH]; [apply refines_refl|].
  eapply refines_trans; [exact IH | apply lex_step].
Qed.

Lemma length_drop (n : nat) (s : string) : (length (drop n s) <= length s)%nat.
Proof.
  revert s; induction n as [|n IH]; intros [|c s]; simpl; try lia.
  specialize (IH s). lia.
Qed.

Lemma span_digits_length (s : string) :
  (length (snd (span_digits s)) <= length s)%nat.
Proof.
  induction s as [|c s IH]; simpl; [lia|].
  destruct (is_digit c); [|simpl; lia].
  destruct (span_digits s). simpl in *. lia.
Qed.

Lemma span_to_slash_length (s body r : string) :
  span_to_slash s = Some (body, r) -> (length r < length s)%nat.
Proof.
  revert body; induction s as [|c s IH]; simpl; intro body; [discriminate|].
  destruct (c =? "/")%char; [intros [= _ <-]; lia|].
  destruct (span_to_slash s) as [[b r']|]; [|discriminate].
  intros [= _ <-]. specialize (IH b eq_refl). lia.
Qed.

Lemma skip_comment_length (s r : string) :
  skip_comment s = Some r -> (length r < length s)%nat.
Proof.
  induction s as [|c s IH]; simpl; [discriminate|].
  destruct s as [|d s']; [discriminate|].
  destruct ((c =? "*") && (d =? "/"))%char; [intros [= <-]; simpl; lia|].
  intro H. specialize (IH H). simpl in *. lia.
Qed.

Lemma scan_number_length (c : ascii) (s' : string) x rest :
  is_digit c || (c =? ".")%char = true ->
  scan_number (String c s') = Some (x, rest) ->
  (length rest <= length s')%nat.
Proof.
  intro Hc. unfold scan_number.
  assert (Hspan : forall r, (length (snd (
            if starts_with "." r then span_digits (drop 1 r)
            else (EmptyString, r))) <= length r)%nat).
  { intro r. destruct (starts_with "." r); [|simpl; lia].
    pose proof (span_digits_length (drop 1 r)).
    pose proof (length_drop 1 r). lia. }
  cbn [span_digits].
  destruct (is_digit c) eqn:Hd.
  - pose proof (span_digits_length s') as Hs.
    destruct (span_digits s') as [d r]. simpl in Hs.
    specialize (Hspan r).
    destruct (if starts_with "." r then span_digits (drop 1 r)
              else (EmptyString, r)) as [fr rest'].
    simpl in Hspan.
    destruct (starts_with "0" (String c d) && (1 <? length (String c d))%nat);
      [discriminate|].
    intros [= _ <-]. lia.
  - simpl in Hc. apply Ascii.eqb_eq in Hc. subst c.
    cbn [starts_with Ascii.eqb Bool.eqb andb length Nat.ltb Nat.leb drop].
    pose proof (span_digits_length s') as Hs.
    destruct (span_digits s') as [fr rest']. simpl in Hs.
    intros [= _ <-]. exact Hs.
Qed.

Lemma lex_enough (f : nat) (operand : bool) (s : string) :
  (length s < f)%nat -> lex f operand s <> OutOfFuel.
Proof.
  revert operand s. induction f as [|f IH]; intros operand s Hf; [lia|].
  assert (Hemit : forall t o r, (length r < f)%nat -> emit f t o r <> OutOfFuel).
  { intros t o r Hr. unfold emit. specialize (IH o r Hr).
    destruct (lex f o r); simpl; congruence. }
  rewrite lex_S. destruct s as [|c s']; [discriminate|]. simpl in Hf.
  pose proof (length_drop 1 s'). pose proof (length_drop 2 s').
  repeat match goal with
         | |- (if ?b then _ else _) <> _ => destruct b eqn:?
         end;
    try discriminate; try (apply Hemit; lia).
  - destruct (skip_comment (drop 1 s')) as [rest|] eqn:E; [|discriminate].
    apply skip_comment_length in E. apply IH. lia.
  - unfold scan_regexp.
    destruct (span_to_slash s') as [[body r]|] eqn:E; [|discriminate].
    apply span_to_slash_length in E.
    destruct (negb (starts_with_digit r) && valid_pattern 0 false body);
      [|discriminate].
    apply Hemit. lia.
  - destruct (scan_number (String c s')) as [[x rest]|] eqn:E; [|discriminate].
    apply scan_number_length in E; [|assumption]. apply Hemit. lia.
Qed.

Lemma lex_fuel (f : nat) (operand : bool) (s : string) ts :
  lex f operand s = Accepted ts ->
  lex (S (length s)) operand s = Accepted ts.
Proof.
  intro H. destruct (Nat.le_ge_cases f (S (length s))) as [Hle|Hge].
  - destruct (lex_more_fuel _ _ operand s Hle) as [E|E]; congruence.
  - destruct (lex_more_fuel _ _ operand s Hge) as [E|E]; [|congruence].
    exfalso. revert E. apply lex_enough. lia.
Qed.

(** *** Arithmetic in the usual notation

    The grammar of arithmetic, with the precedence and the left
    association of the four operations written into its three levels:

      sum     ::= sum + product | sum - product | product
      product ::= product * factor | product / factor | factor
      factor  ::= literal | ( sum ) | - factor | + factor

    A literal is [12], [12.5], [12.] or [.5]; its integer part has no
    leading zero.  A sign does not stand before the same sign, since two
    adjacent signs would be the one token [++] or [--].  A tree of [arith]
    is a derivation in this grammar, [write] its text. *)

Inductive arith : Type :=
| Literal (integer : string) (fraction : option string)
| Group (a : arith)
| Negative (a : arith)
| Positive (a : arith)
| Sum (a b : arith)
| Difference (a b : arith)
| Product (a b : arith)
| Quotient (a b : arith).

Definition fraction_digits (fraction : option string) : string :=
  match fraction with
  | Some digits => digits
  | None => ""
  end.

Definition literal_text (integer : string) (fraction : option string) : string :=
  integer ++ match fraction with
             | Some digits => "." ++ digits
             | None => ""
             end.

Definition well_formed_literal (integer : string) (fraction : option string)
  : bool :=
  all_digits integer && all_digits (fraction_digits fraction)
  && negb ((integer =? "") && (fraction_digits fraction =? ""))
  && negb (starts_with "0" integer && (1 <? length integer)%nat).

(** 1 for a sum, 2 for a product, 3 for a factor *)
Definition level (t : arith) : nat :=
  match t with
  | Sum _ _ | Difference _ _ => 1
  | Product _ _ | Quotient _ _ => 2
  | Literal _ _ | Group _ | Negative _ | Positive _ => 3
  end.

Fixpoint write (t : arith) : string :=
  match t with
  | Literal integer fraction => literal_text integer fraction
  | Group a => "(" ++ write a ++ ")"
  | Negative a => "-" ++ write a
  | Positive a => "+" ++ write a
  | Sum a b => write a ++ "+" ++ write b
  | Difference a b => write a ++ "-" ++ write b
  | Product a b => write a ++ "*" ++ write b
  | Quotient a b => write a ++ "/" ++ write b
  end.

(** The tree is a derivation of the grammar. *)
Fixpoint well_formed (t : arith) : bool :=
  match t with
  | Literal integer fraction => well_formed_literal integer fraction
  | Group a => well_formed a
  | Negative a =>
      well_formed a && (level a =? 3)%nat && negb (starts_with "-" (write a))
  | Positive a =>
      well_formed a && (level a =? 3)%nat && negb (starts_with "+" (write a))
  | Sum a b =>
      well_formed a && well_formed b && (2 <=? level b)%nat
      && negb (starts_with "+" (write b))
  | Difference a b =>
      well_formed a && well_formed b && (2 <=? level b)%nat
      && negb (starts_with "-" (write b))
  | Product a b | Quotient a b =>
      well_formed a && well_formed b && (2 <=? level a)%nat
      && (level b =? 3)%nat
  end.

(** The value of a tree: each literal is the Number its digits denote,
    each operation the Number operation. *)
Fixpoint value_of (t : arith) : float :=
  match t with
  | Literal integer fraction =>
      literal_value integer (fraction_digits fraction)
  | Group a => value_of a
  | Negative a => (- value_of a)%float
  | Positive a => value_of a
  | Sum a b => (value_of a + value_of b)%float
  | Difference a b => (value_of a - value_of b)%float
  | Product a b => (value_of a * value_of b)%float
  | Quotient a b => (value_of a / value_of b)%float
  end.

(** The tokens and the syntax tree the text of a tree stands for. *)
Fixpoint tokens (t : arith) : list token :=
  match t with
  | Literal integer fraction =>
      [TNumber (literal_value integer (fraction_digits fraction))]
  | Group a => TPunct LParen :: tokens a ++ [TPunct RParen]
  | Negative a => TPunct Minus :: tokens a
  | Positive a => TPunct Plus :: tokens a
  | Sum a b => tokens a ++ TPunct Plus :: tokens b
  | Difference a b => tokens a ++ TPunct Minus :: tokens b
  | Product a b => tokens a ++ TPunct Star :: tokens b
  | Quotient a b => tokens a ++ TPunct Slash :: tokens b
  end%list.

Fixpoint tree (t : arith) : expr :=
  match t with
  | Literal integer fraction =>
      Num (literal_value integer (fraction_digits fraction))
  | Group a => tree a
  | Negative a => Unary UMinus (tree a)
  | Positive a => Unary UPlus (tree a)
  | Sum a b => Binary Add (tree a) (tree b)
  | Difference a b => Binary Sub (tree a) (tree b)
  | Product a b => Binary Mul (tree a) (tree b)
  | Quotient a b => Binary Div (tree a) (tree b)
  end.

(** *** The lexer on the text of a tree *)

Lemma digit_is_no_punctuator (c : ascii) :
  is_digit c = true ->
  (c =? "(")%char = false /\ (c =? ")")%char = false
  /\ (c =? "+")%char = false /\ (c =? "-")%char = false
  /\ (c =? "*")%char = false /\ (c =? "/")%char = false
  /\ (c =? ".")%char = false.
Proof.
  destruct c as [[] [] [] [] [] [] [] []]; intro H; try discriminate H;
    repeat split.
Qed.

(** The characters a tree's text can start with *)
Definition head_class (c : ascii) : Prop :=
  is_digit c = true \/ In c ["."; "("; "-"; "+"]%char.

Definition operand_head (s : string) : Prop :=
  exists c s', s = String c s' /\ head_class c.

(** The text does not continue a literal. *)
Definition stops (s : string) : Prop :=
  starts_with_digit s = false /\ starts_with "." s = false.

Lemma operand_head_app (s rest : string) :
  operand_head s -> operand_head (s ++ rest).
Proof. intros (c & s' & -> & H). exists c, (s' ++ rest). now split. Qed.

Lemma starts_with_app (c : ascii) (s rest : string) :
  s <> "" -> starts_with c (s ++ rest) = starts_with c s.
Proof. destruct s; [contradiction | reflexivity]. Qed.

Lemma operand_head_not_empty (s : string) : operand_head s -> s <> "".
Proof. intros (c & s' & -> & _). discriminate. Qed.

Lemma operand_head_no_operator (s : string) :
  operand_head s -> starts_with "*" s = false /\ starts_with "/" s = false.
Proof.
  intros (c & s' & -> & [Hd|Hc]); cbn [starts_with].
  - now destruct (digit_is_no_punctuator c Hd) as (_ & _ & _ & _ & -> & -> & _).
  - cbn [In] in Hc. destruct Hc as [<-|[<-|[<-|[<-|[]]]]]; now split.
Qed.

Lemma literal_head (integer : string) (fraction : option string) :
  well_formed_literal integer fraction = true ->
  operand_head (literal_text integer fraction).
Proof.
  unfold well_formed_literal, literal_text. intro H.
  apply andb_prop in H as [H _]. apply andb_prop in H as [H Hne].
  apply andb_prop in H as [Hi Hf]. apply negb_true_iff in Hne.
  destruct integer as [|c i].
  - destruct fraction as [digits|]; [|discriminate Hne].
    exists "."%char, digits. split; [reflexivity|]. right. cbn [In]. auto.
  - exists c. eexists. split; [reflexivity|]. left.
    cbn [all_digits] in Hi. now apply andb_prop in Hi as [Hc _].
Qed.

Lemma write_head (t : arith) : well_formed t = true -> operand_head (write t).
Proof.
  induction t as [i fr|a IHa|a IHa|a IHa|a IHa b _|a IHa b _|a IHa b _
                 |a IHa b _]; cbn [well_formed write]; intro H.
  - now apply literal_head.
  - exists "("%char. eexists. split; [reflexivity|]. right. cbn [In]. auto.
  - exists "-"%char. eexists. split; [reflexivity|]. right. cbn [In]. auto.
  - exists "+"%char. eexists. split; [reflexivity|]. right. cbn [In]. auto.
  - apply andb_prop in H as [H _]. apply andb_prop in H as [H _].
    apply andb_prop in H as [H _]. now apply operand_head_app, IHa.
  - apply andb_prop in H as [H _]. apply andb_prop in H as [H _].
    apply andb_prop in H as [H _]. now apply operand_head_app, IHa.
  - apply andb_prop in H as [H _]. apply andb_prop in H as [H _].
    apply andb_prop in H as [H _]. now apply operand_head_app, IHa.
  - apply andb_prop in H as [H _]. apply andb_prop in H as [H _].
    apply andb_prop in H as [H _]. now apply operand_head_app, IHa.
Qed.

Lemma span_digits_app (d rest : string) :
  all_digits d = true -> starts_with_digit rest = false ->
  span_digits (d ++ rest) = (d, rest).
Proof.
  intros Hd Hr. induction d as [|c d IH]; cbn [append span_digits].
  - destruct rest as [|c r]; [reflexivity|].
    cbn [starts_with_digit] in Hr. cbn [span_digits]. now rewrite Hr.
  - cbn [all_digits] in Hd. apply andb_prop in Hd as [Hc Hd].
    rewrite Hc, (IH Hd). reflexivity.
Qed.

Lemma scan_number_literal (integer : string) (fraction : option string)
  (rest : string) :
  well_formed_literal integer fraction = true -> stops rest ->
  scan_number (literal_text integer fraction ++ rest)
  = Some (literal_value integer (fraction_digits fraction), rest).
Proof.
  unfold well_formed_literal, literal_text, scan_number. intros H [Hd Hp].
  apply andb_prop in H as [H Hzero]. apply andb_prop in H as [H _].
  apply andb_prop in H as [Hi Hfr]. apply negb_true_iff in Hzero.
  rewrite append_assoc. destruct fraction as [digits|]; cbn [fraction_digits] in *.
  - rewrite (span_digits_app integer); [|assumption|reflexivity].
    cbn [append starts_with Ascii.eqb Bool.eqb drop].
    rewrite (span_digits_app _ _ Hfr Hd), Hzero. reflexivity.
  - cbn [append]. rewrite (span_digits_app _ _ Hi Hd), Hp, Hzero. reflexivity.
Qed.

Lemma stops_punctuator (c : ascii) (s : string) :
  is_digit c = false -> c <> "."%char -> stops (String c s).
Proof.
  intros Hd Hp. split; [exact Hd|]. simpl. now apply Ascii.eqb_neq.
Qed.

(** One step of the lexer on a sign or an operator that an operand
    follows. *)
Lemma lex_operator (f : nat) (operand : bool) (c : ascii) (p : punctuator)
  (s : string) r :
  In (c, p) [("+"%char, Plus); ("-"%char, Minus); ("*"%char, Star);
             ("/"%char, Slash)] ->
  (c = "/"%char -> operand = true) ->
  operand_head s -> starts_with c s = false ->
  lex f false s = Accepted r ->
  lex (S f) operand (String c s) = Accepted (TPunct p :: r).
Proof.
  intros Hin Hslash Hhead Hc H. rewrite lex_S.
  destruct (operand_head_no_operator s Hhead) as [Hstar Hdiv].
  destruct Hin as [E|[E|[E|[E|[]]]]]; injection E as <- <-;
    cbn [Ascii.eqb Bool.eqb andb]; rewrite ?Hc, ?Hstar, ?Hdiv;
    try rewrite (Hslash eq_refl); unfold emit; rewrite H; reflexivity.
Qed.

Lemma lex_lparen (f : nat) (operand : bool) (s : string) r :
  lex f false s = Accepted r ->
  lex (S f) operand (String "(" s) = Accepted (TPunct LParen :: r).
Proof. intro H. rewrite lex_S. cbn. unfold emit. now rewrite H. Qed.

Lemma lex_rparen (f : nat) (operand : bool) (s : string) r :
  lex f true s = Accepted r ->
  lex (S f) operand (String ")" s) = Accepted (TPunct RParen :: r).
Proof. intro H. rewrite lex_S. cbn. unfold emit. now rewrite H. Qed.

Lemma lex_literal (f : nat) (operand : bool) (integer : string)
  (fraction : option string) (rest : string) r :
  well_formed_literal integer fraction = true -> stops rest ->
  lex f true rest = Accepted r ->
  lex (S f) operand (literal_text integer fraction ++ rest)
  = Accepted (TNumber (literal_value integer (fraction_digits fraction)) :: r).
Proof.
  intros Hwf Hstop H.
  pose proof (scan_number_literal _ _ _ Hwf Hstop) as Hscan.
  destruct (literal_head _ _ Hwf) as (c & s' & Htext & Hc).
  rewrite Htext in *. cbn [append] in *. rewrite lex_S.
  destruct Hc as [Hc|Hc].
  - destruct (digit_is_no_punctuator c Hc) as (-> & -> & -> & -> & -> & -> & ->).
    cbn [andb]. rewrite Hc. cbn [orb].
    rewrite Hscan. unfold emit. now rewrite H.
  - assert (Hpoint : c = "."%char /\ starts_with_digit (s' ++ rest) = true).
    { unfold well_formed_literal, literal_text in *.
      apply andb_prop in Hwf as [Hwf _]. apply andb_prop in Hwf as [Hwf Hne].
      apply andb_prop in Hwf as [Hi Hf]. apply negb_true_iff in Hne.
      destruct integer as [|d i].
      - destruct fraction as [digits|]; [|discriminate Hne].
        cbn [append fraction_digits] in *. injection Htext as <- <-.
        split; [reflexivity|].
        destruct digits as [|d digits]; [discriminate Hne|].
        cbn [all_digits] in Hf. apply andb_prop in Hf as [Hd _]. exact Hd.
      - cbn [append] in Htext. injection Htext as <- _.
        cbn [all_digits] in Hi. apply andb_prop in Hi as [Hd _].
        cbn [In] in Hc. destruct Hc as [<-|[<-|[<-|[<-|[]]]]]; discriminate Hd. }
    destruct Hpoint as [-> Hdigit].
    cbn [Ascii.eqb Bool.eqb andb]. rewrite Hdigit. cbn [negb orb is_digit].
    change (is_digit ".") with false. cbn [orb].
    rewrite Hscan. unfold emit. now rewrite H.
Qed.

(** What [lex_write] says of a tree: its text, followed by a text that
    does not continue a literal, gives its tokens and then those of that
    text. *)
Definition lexes (text : string) (ts : list token) : Prop :=
  forall rest r f operand, stops rest -> lex f true rest = Accepted r ->
  exists f', lex f' operand (text ++ rest) = Accepted (ts ++ r)%list.

Lemma lexes_group (text : string) (ts : list token) :
  lexes text ts ->
  lexes ("(" ++ text ++ ")") (TPunct LParen :: ts ++ [TPunct RParen]).
Proof.
  intros H rest r f operand Hstop Hrest.
  destruct (H (String ")" rest) (TPunct RParen :: r) (S f) false) as [f1 H1].
  - now apply stops_punctuator.
  - now apply lex_rparen.
  - exists (S f1). cbn [append]. rewrite append_assoc. cbn [append].
    rewrite <- app_comm_cons, <- app_assoc. cbn [app].
    now apply lex_lparen.
Qed.

Lemma lexes_sign (c : ascii) (p : punctuator) (text : string)
  (ts : list token) :
  In (c, p) [("+"%char, Plus); ("-"%char, Minus)] ->
  operand_head text -> starts_with c text = false ->
  lexes text ts -> lexes (String c text) (TPunct p :: ts).
Proof.
  intros Hin Hhead Hc H rest r f operand Hstop Hrest.
  destruct (H rest r f false Hstop Hrest) as [f1 H1].
  exists (S f1). cbn [append app].
  apply lex_operator; try assumption.
  - cbn [In] in *. destruct Hin as [E|[E|[]]]; injection E as <- <-; auto.
  - destruct Hin as [E|[E|[]]]; injection E as <- _; discriminate.
  - now apply operand_head_app.
  - now rewrite starts_with_app by (now apply operand_head_not_empty).
Qed.

Lemma lexes_binary (c : ascii) (p : punctuator) (ta tb : string)
  (tsa tsb : list token) :
  In (c, p) [("+"%char, Plus); ("-"%char, Minus); ("*"%char, Star);
             ("/"%char, Slash)] ->
  operand_head tb -> starts_with c tb = false ->
  lexes ta tsa -> lexes tb tsb ->
  lexes (ta ++ String c tb) (tsa ++ TPunct p :: tsb).
Proof.
  intros Hin Hhead Hc Ha Hb rest r f operand Hstop Hrest.
  destruct (Hb rest r f false Hstop Hrest) as [fb Hfb].
  destruct (Ha (String c (tb ++ rest)) (TPunct p :: tsb ++ r)%list (S fb)
              operand) as [fa Hfa].
  - destruct Hin as [E|[E|[E|[E|[]]]]]; injection E as <- <-;
      now apply stops_punctuator.
  - apply lex_operator; try assumption; try reflexivity.
    + now apply operand_head_app.
    + now rewrite starts_with_app by (now apply operand_head_not_empty).
  - exists fa. rewrite append_assoc, <- app_assoc. exact Hfa.
Qed.

Lemma lex_write (t : arith) :
  well_formed t = true -> lexes (write t) (tokens t).
Proof.
  induction t as [i fr|a IHa|a IHa|a IHa|a IHa b IHb|a IHa b IHb|a IHa b IHb
                 |a IHa b IHb]; cbn [well_formed write tokens]; intro H.
  - intros rest r f operand Hstop Hrest. exists (S f). now apply lex_literal.
  - now apply lexes_group, IHa.
  - apply andb_prop in H as [H Hs]. apply andb_prop in H as [Ha _].
    apply negb_true_iff in Hs.
    apply (lexes_sign "-" Minus); auto using write_head. cbn [In]. auto.
  - apply andb_prop in H as [H Hs]. apply andb_prop in H as [Ha _].
    apply negb_true_iff in Hs.
    apply (lexes_sign "+" Plus); auto using write_head. cbn [In]. auto.
  - apply andb_prop in H as [H Hs]. apply andb_prop in H as [H _].
    apply andb_prop in H as [Ha Hb]. apply negb_true_iff in Hs.
    apply (lexes_binary "+" Plus); auto using write_head. cbn [In]. auto.
  - apply andb_prop in H as [H Hs]. apply andb_prop in H as [H _].
    apply andb_prop in H as [Ha Hb]. apply negb_true_iff in Hs.
    apply (lexes_binary "-" Minus); auto using write_head. cbn [In]. auto.
  - apply andb_prop in H as [H _]. apply andb_prop in H as [H _].
    apply andb_prop in H as [Ha Hb].
    apply (lexes_binary "*" Star); auto using write_head; [cbn [In]; auto|].
    apply operand_head_no_operator. now apply write_head.
  - apply andb_prop in H as [H _]. apply andb_prop in H as [H _].
    apply andb_prop in H as [Ha Hb].
    apply (lexes_binary "/" Slash); auto using write_head; [cbn [In]; auto 6|].
    apply operand_head_no_operator. now apply write_head.
Qed.

(** *** The parser on the tokens of a tree *)

Lemma refines_accepted {A : Type} (p q : parsing A) (a : A) :
  refines p q -> p = Accepted a -> q = Accepted a.
Proof. intros [-> | ->]; [discriminate | auto]. Qed.

(** What may come after an operand of level [l]: the end, a closing
    parenthesis, or a binary operator of precedence [l] or less. *)
Definition follows (l : nat) (rest : list token) : Prop :=
  match rest with
  | [] => True
  | TPunct RParen :: _ => True
  | TPunct p :: _ =>
      match binary p with
      | Some (_, precedence, _) => (precedence <= l)%nat
      | None => False
      end
  | _ => False
  end.

Lemma follows_le (l l' : nat) (rest : list token) :
  (l <= l')%nat -> follows l rest -> follows l' rest.
Proof.
  intro Hl. destruct rest as [|[| |[]] rest]; simpl; auto; lia.
Qed.

Lemma call_tail_stops (f l : nat) (e : expr) (rest : list token) :
  follows l rest -> call_tail (S f) e rest = Accepted (e, rest).
Proof.
  rewrite call_tail_S. destruct rest as [|[| |[]] rest]; simpl; tauto.
Qed.

Lemma climb_stops (f l min : nat) (e : expr) (u : bool) (rest : list token) :
  follows l rest -> (l < min)%nat ->
  climb (S f) min e u rest = Accepted (e, rest).
Proof.
  rewrite climb_S. intros H Hl.
  destruct rest as [|[| |[]] rest]; simpl in *; try tauto;
    match goal with
    | |- (if (min <=? ?p)%nat then _ else _) = _ =>
        destruct (Nat.leb_spec min p); [lia | reflexivity]
    end.
Qed.

Lemma primary_stops (f l : nat) (e : expr) (rest : list token) :
  follows l rest -> primary (S f) e rest = Accepted (e, false, rest).
Proof. intro H. unfold primary. now rewrite (call_tail_stops f l). Qed.

(** Before one of the four operators, it does not matter to [climb]
    whether its operand is a signed one. *)
Lemma climb_signed (f min : nat) (e : expr) (rest : list token) :
  follows 2 rest -> climb f min e true rest = climb f min e false rest.
Proof.
  intro H. destruct f as [|f]; [reflexivity|]. rewrite !climb_S.
  destruct rest as [|[| |[]] rest]; simpl in *; try reflexivity; try tauto.
  lia.
Qed.

(** The tokens [ts] of a tree of level [l] are read as the expression [e]
    by [expression], which then goes on climbing. *)
Definition parses (l : nat) (ts : list token) (e : expr) : Prop :=
  forall min rest f r,
    (min <= l)%nat -> follows (Nat.min l 2) rest ->
    climb f min e false rest = Accepted r ->
    exists f', expression f' min (ts ++ rest)%list = Accepted r.

(** The tokens [ts] of a factor are read as the expression [e] by
    [unary]. *)
Definition parses_factor (ts : list token) (e : expr) : Prop :=
  forall rest, follows 2 rest ->
  exists f' signed, unary f' (ts ++ rest)%list = Accepted (e, signed, rest).

Lemma factor_parses (ts : list token) (e : expr) :
  parses_factor ts e -> parses 3 ts e.
Proof.
  intros Hfactor min rest f r _ Hfollows Hclimb. cbn [Nat.min] in Hfollows.
  destruct (Hfactor rest Hfollows) as (f1 & signed & H1).
  exists (S (Nat.max f1 f)). rewrite expression_S.
  rewrite (refines_accepted _ _ _ (unary_more_fuel f1 _ _ (Nat.le_max_l f1 f)) H1).
  cbn [andThen].
  assert (Hc : climb f min e signed rest = Accepted r)
    by (destruct signed; [now rewrite climb_signed | exact Hclimb]).
  exact (refines_accepted _ _ _
           (climb_more_fuel f _ _ _ _ _ (Nat.le_max_r f1 f)) Hc).
Qed.

Lemma literal_factor (x : float) : parses_factor [TNumber x] (Num x).
Proof.
  intros rest H. exists 2%nat, false. cbn [app]. rewrite unary_S.
  apply (primary_stops _ 2), H.
Qed.

Lemma group_factor (l : nat) (ts : list token) (e : expr) :
  (1 <= l)%nat -> parses l ts e ->
  parses_factor (TPunct LParen :: ts ++ [TPunct RParen]) e.
Proof.
  intros Hl H rest Hfollows.
  destruct (H 1%nat (TPunct RParen :: rest) 1%nat (e, TPunct RParen :: rest))
    as [f1 H1]; [assumption | exact I | reflexivity |].
  exists (S (S f1)), false. cbn [app]. rewrite <- app_assoc. cbn [app].
  rewrite unary_S.
  rewrite (refines_accepted _ _ _
             (expression_more_fuel f1 (S f1) _ _ (Nat.le_succ_diag_r f1)) H1).
  cbn [andThen expect_rparen]. apply (primary_stops _ 2), Hfollows.
Qed.

Lemma signed_factor (p : punctuator) (op : unary_operator)
  (ts : list token) (e : expr) :
  In (p, op) [(Minus, UMinus); (Plus, UPlus)] ->
  parses_factor ts e -> parses_factor (TPunct p :: ts) (Unary op e).
Proof.
  intros Hin H rest Hfollows.
  destruct (H rest Hfollows) as (f1 & signed & H1).
  exists (S f1), true. cbn [app]. rewrite unary_S.
  destruct Hin as [E|[E|[]]]; injection E as <- <-; now rewrite H1.
Qed.

Lemma binary_parses (p : punctuator) (op : binary_operator) (l la lb : nat)
  (tsa tsb : list token) (ea eb : expr) :
  In (p, op, l) [(Plus, Add, 1); (Minus, Sub, 1); (Star, Mul, 2);
                 (Slash, Div, 2)]%nat ->
  (l <= la)%nat -> (S l <= lb)%nat ->
  parses la tsa ea -> parses lb tsb eb ->
  parses l (tsa ++ TPunct p :: tsb) (Binary op ea eb).
Proof.
  intros Hin Hla Hlb Ha Hb min rest f r Hmin Hfollows Hclimb.
  assert (Hl : (1 <= l <= 2)%nat)
    by (destruct Hin as [E|[E|[E|[E|[]]]]]; injection E as _ _ <-; lia).
  replace (Nat.min l 2) with l in Hfollows by lia.
  assert (Hb' : exists fb, expression fb (S l) (tsb ++ rest)%list
                           = Accepted (eb, rest)).
  { apply (Hb (S l) rest 1%nat (eb, rest)); [lia | |].
    - apply (follows_le l); [lia | assumption].
    - apply (climb_stops _ l); [assumption | lia]. }
  destruct Hb' as [fb Hfb].
  assert (Ha' : exists fa, expression fa min (tsa ++ TPunct p :: tsb ++ rest)%list
                           = Accepted r).
  { apply (Ha min (TPunct p :: tsb ++ rest)%list (S (Nat.max fb f)) r);
      [lia | |].
    - destruct Hin as [E|[E|[E|[E|[]]]]]; injection E as <- <- <-; simpl; lia.
    - rewrite climb_S.
      assert (Hbin : binary p = Some (op, l, S l) /\ op <> Exp)
        by (destruct Hin as [E|[E|[E|[E|[]]]]]; injection E as <- <- <-;
            (split; [reflexivity | discriminate])).
      destruct Hbin as [-> Hop].
      destruct (Nat.leb_spec min l); [|lia].
      rewrite (refines_accepted _ _ _
                 (expression_more_fuel fb _ _ _ (Nat.le_max_l fb f)) Hfb).
      cbn [andThen].
      pose proof (refines_accepted _ _ _
                    (climb_more_fuel f _ _ _ _ _ (Nat.le_max_r fb f)) Hclimb) as Hc.
      destruct op; exact Hc. }
  destruct Ha' as [fa Hfa]. exists fa. rewrite <- app_assoc. exact Hfa.
Qed.

Lemma level_bounds (t : arith) : (1 <= level t <= 3)%nat.
Proof. destruct t; simpl; lia. Qed.

Lemma parse_tokens (t : arith) :
  well_formed t = true ->
  parses (level t) (tokens t) (tree t)
  /\ (level t = 3%nat -> parses_factor (tokens t) (tree t)).
Proof.
  assert (Hfactor : forall t,
             parses_factor (tokens t) (tree t) ->
             level t = 3%nat ->
             parses (level t) (tokens t) (tree t)
             /\ (level t = 3%nat -> parses_factor (tokens t) (tree t))).
  { intros u H E. rewrite E. split; [now apply factor_parses | now intros]. }
  induction t as [i fr|a IHa|a IHa|a IHa|a IHa b IHb|a IHa b IHb|a IHa b IHb
                 |a IHa b IHb]; cbn [well_formed]; intro H.
  - apply Hfactor; [apply literal_factor | reflexivity].
  - destruct (IHa H) as [Ha _].
    apply Hfactor; [|reflexivity]. cbn [tokens tree].
    apply (group_factor (level a)); [apply level_bounds | exact Ha].
  - apply andb_prop in H as [H _]. apply andb_prop in H as [Ha Hl].
    apply Nat.eqb_eq in Hl. destruct (IHa Ha) as [_ Hfa].
    apply Hfactor; [|reflexivity]. cbn [tokens tree].
    apply (signed_factor Minus UMinus); [cbn [In]; auto | now apply Hfa].
  - apply andb_prop in H as [H _]. apply andb_prop in H as [Ha Hl].
    apply Nat.eqb_eq in Hl. destruct (IHa Ha) as [_ Hfa].
    apply Hfactor; [|reflexivity]. cbn [tokens tree].
    apply (signed_factor Plus UPlus); [cbn [In]; auto | now apply Hfa].
  - apply andb_prop in H as [H _]. apply andb_prop in H as [H Hl].
    apply andb_prop in H as [Ha Hb]. apply Nat.leb_le in Hl.
    destruct (IHa Ha) as [Pa _]. destruct (IHb Hb) as [Pb _].
    split; [|discriminate]. cbn [level tokens tree].
    apply (binary_parses Plus Add 1 (level a) (level b));
      [cbn [In]; auto | apply level_bounds | exact Hl | exact Pa | exact Pb].
  - apply andb_prop in H as [H _]. apply andb_prop in H as [H Hl].
    apply andb_prop in H as [Ha Hb]. apply Nat.leb_le in Hl.
    destruct (IHa Ha) as [Pa _]. destruct (IHb Hb) as [Pb _].
    split; [|discriminate]. cbn [level tokens tree].
    apply (binary_parses Minus Sub 1 (level a) (level b));
      [cbn [In]; auto | apply level_bounds | exact Hl | exact Pa | exact Pb].
  - apply andb_prop in H as [H Hlb]. apply andb_prop in H as [H Hla].
    apply andb_prop in H as [Ha Hb]. apply Nat.leb_le in Hla.
    apply Nat.eqb_eq in Hlb.
    destruct (IHa Ha) as [Pa _]. destruct (IHb Hb) as [Pb _].
    split; [|discriminate]. cbn [level tokens tree].
    apply (binary_parses Star Mul 2 (level a) (level b));
      [cbn [In]; auto | exact Hla | lia | exact Pa | exact Pb].
  - apply andb_prop in H as [H Hlb]. apply andb_prop in H as [H Hla].
    apply andb_prop in H as [Ha Hb]. apply Nat.leb_le in Hla.
    apply Nat.eqb_eq in Hlb.
    destruct (IHa Ha) as [Pa _]. destruct (IHb Hb) as [Pb _].
    split; [|discriminate]. cbn [level tokens tree].
    apply (binary_parses Slash Div 2 (level a) (level b));
      [cbn [In]; auto 6 | exact Hla | lia | exact Pa | exact Pb].
Qed.

(** *** Evaluation of the text of a tree *)

Lemma evaluate_tree (exponentiate : float -> float -> float) (t : arith) :
  evaluate exponentiate (tree t) = Return (VNumber (value_of t)).
Proof.
  induction t as [i fr|a IHa|a IHa|a IHa|a IHa b IHb|a IHa b IHb|a IHa b IHb
                 |a IHa b IHb];
    cbn [tree evaluate value_of]; rewrite ?IHa, ?IHb; reflexivity.
Qed.

Lemma tokens_not_empty (t : arith) : tokens t <> [].
Proof.
  induction t; cbn [tokens]; try discriminate;
    match goal with
    | |- (?ts ++ _ :: _)%list <> [] => destruct ts; discriminate
    end.
Qed.

Lemma script_tokens (t : arith) :
  well_formed t = true -> script (tokens t) = Accepted (Some (tree t)).
Proof.
  intro Hwf.
  destruct (proj1 (parse_tokens t Hwf) 1%nat [] 1%nat (tree t, []))
    as [f H]; [apply level_bounds | exact I | reflexivity |].
  rewrite app_nil_r in H. apply expression_fuel in H.
  unfold script. pose proof (tokens_not_empty t) as Hne.
  destruct (tokens t); [contradiction|]. now rewrite H.
Qed.

(** The text of a tree evaluates to the value of the tree. *)
Theorem eval_write (exponentiate : float -> float -> float) (t : arith) :
  well_formed t = true ->
  eval exponentiate (write t) = Return (VNumber (value_of t)).
Proof.
  intro Hwf.
  destruct (lex_write t Hwf "" [] 1%nat false) as [f H];
    [split; reflexivity | reflexivity |].
  rewrite append_empty_r, app_nil_r in H. apply lex_fuel in H.
  unfold eval. rewrite H. cbn [andThen]. rewrite script_tokens by assumption.
  apply evaluate_tree.
Qed.

(** So it does when a comment follows it. *)
Theorem eval_write_comment (exponentiate : float -> float -> float)
  (t : arith) (comment : string) :
  well_formed t = true ->
  eval exponentiate (write t ++ "//" ++ comment)
  = Return (VNumber (value_of t)).
Proof.
  intro Hwf.
  destruct (lex_write t Hwf ("//" ++ comment) [] 1%nat false) as [f H];
    [split; reflexivity | reflexivity |].
  rewrite app_nil_r in H. apply lex_fuel in H.
  unfold eval. rewrite H. cbn [andThen]. rewrite script_tokens by assumption.
  apply evaluate_tree.
Qed.

(** *** The value of a literal

    The number that decimal notation gives to digits, and a literal's
    value in it: a representable number nearest to [digits / 10^k], where
    [k] is the number of digits after the point. *)

Fixpoint digits_number (acc : R) (s : string) : R :=
  match s with
  | EmptyString => acc
  | String c s' => digits_number (10 * acc + INR (nat_of_ascii c - 48)) s'
  end.

Definition decimal_value (integer fraction : string) : R :=
  digits_number 0 (integer ++ fraction) / 10 ^ length fraction.

Lemma digits_value_number (s : string) (acc : N) :
  IZR (Z.of_N (digits_value acc s)) = digits_number (IZR (Z.of_N acc)) s.
Proof.
  revert acc. induction s as [|c s IH]; intro acc;
    cbn [digits_value digits_number]; [reflexivity|].
  rewrite IH. f_equal.
  rewrite N2Z.inj_add, N2Z.inj_mul, nat_N_Z, plus_IZR, mult_IZR, <- INR_IZR_INZ.
  reflexivity.
Qed.

Lemma round_ratio_nearest (num den : positive) :
  Binary64.rounds_to (IZR (Zpos num) / IZR (Zpos den))
    (Prim2SF (round_ratio num den)).
Proof.
  unfold round_ratio.
  destruct (Binary64.SFdiv_core_binary_spec num den 0 0)
    as (q & r & e' & -> & Hr & Hq & Hs & Hm & He).
  assert (Hloc : Binary64.located_record (shr_record_of_loc q (new_location (Zpos den) r)) e'
                   (IZR (Zpos num) / IZR (Zpos den))).
  { replace (IZR (Zpos num) / IZR (Zpos den))%R
      with (Binary64.F2R (Zpos num) 0 / Binary64.F2R (Zpos den) 0)%R
      by (unfold Binary64.F2R, Binary64.bpow; simpl; now rewrite !Rmult_1_r).
    rewrite (Binary64.quotient_value num den 0 0 e' q r Hs Hm).
    apply Binary64.located_fraction; [exact Hq|].
    apply Binary64.new_location_spec; lia. }
  rewrite Prim2SF_SF2Prim
    by (exact (Binary64.binary_round_aux_valid false _ _ _ _ Hloc He)).
  exact (Binary64.binary_round_aux_correct false _ _ _ _ Hloc He).
Qed.

(** A literal's value is a representable number nearest to the number
    its digits denote. *)
Theorem literal_value_nearest (integer fraction : string) :
  Binary64.rounds_to (decimal_value integer fraction)
    (Prim2SF (literal_value integer fraction)).
Proof.
  unfold literal_value, decimal_value.
  pose proof (digits_value_number (integer ++ fraction) 0) as Hn.
  change (IZR (Z.of_N 0)) with 0%R in Hn. rewrite <- Hn.
  destruct (digits_value 0 (integer ++ fraction)) as [|mantissa].
  - change (IZR (Z.of_N 0)) with 0%R. unfold Rdiv. rewrite Rmult_0_l.
    apply (Binary64.rounds_to_zero false).
  - cbn [Z.of_N].
    replace (10 ^ length fraction)%R
      with (IZR (Zpos (Z.to_pos (10 ^ Z.of_nat (length fraction))))).
    + apply round_ratio_nearest.
    + rewrite Z2Pos.id by (apply Z.pow_pos_nonneg; lia).
      now rewrite <- pow_IZR.
Qed.

End JSEvalFacts.

Import JSEvalFacts.

(** The set of characters the specification lists: digits, the point, the
    four operators and the parentheses. *)
Definition in_kept_set (c : ascii) : bool :=
  is_digit c
  || existsb (Ascii.eqb c)
       ["."; "+"; "-"; "*"; "/"; "("; ")"]%char.

Lemma class_matches_kept (c : ascii) :
  class_matches kept_class c = in_kept_set c.
Proof. destruct c as [[] [] [] [] [] [] [] []]; reflexivity. Qed.

Lemma sanitize_filter (expression : string) :
  list_ascii_of_string (sanitize expression)
  = filter in_kept_set (list_ascii_of_string expression).
Proof.
  unfold sanitize.
  induction expression as [|c s IH]; cbn [remove_matching list_ascii_of_string filter];
    [reflexivity|].
  rewrite class_matches_kept.
  destruct (in_kept_set c); cbn [negb list_ascii_of_string]; now rewrite IH.
Qed.

(** Syntactically valid arithmetic, read generously: numbers with an
    optional fraction, the four binary operators, signs, parentheses. *)
Inductive arithmetic : string -> Prop :=
| arithmetic_integer (digits : string) :
    all_digits digits = true -> digits <> "" -> arithmetic digits
| arithmetic_fraction (integer fraction : string) :
    all_digits integer = true -> all_digits fraction = true ->
    arithmetic (integer ++ "." ++ fraction)
| arithmetic_binary (a b : string) (c : ascii) :
    arithmetic a -> arithmetic b -> In c ["+"; "-"; "*"; "/"]%char ->
    arithmetic (a ++ String c b)
| arithmetic_sign (a : string) (c : ascii) :
    arithmetic a -> In c ["+"; "-"]%char -> arithmetic (String c a)
| arithmetic_parentheses (a : string) :
    arithmetic a -> arithmetic ("(" ++ a ++ ")").

Lemma arithmetic_not_empty (s : string) : arithmetic s -> s <> "".
Proof.
  induction 1 as [d _ Hd|i fr _ _|a b c _ _ _ _ _|a c _ _ _|a _ _];
    try assumption; try discriminate.
  - destruct i; discriminate.
  - destruct a; discriminate.
Qed.

(** The text of a derivation is arithmetic in the generous reading. *)
Lemma write_arithmetic (t : arith) : well_formed t = true -> arithmetic (write t).
Proof.
  induction t as [integer fraction|a IH|a IH|a IH|a IHa b IHb|a IHa b IHb
                 |a IHa b IHb|a IHa b IHb];
    cbn [well_formed write]; intro H.
  - unfold well_formed_literal in H.
    apply andb_prop in H as [H _]. apply andb_prop in H as [H Hne].
    apply andb_prop in H as [Hi Hf]. unfold literal_text.
    destruct fraction as [digits|]; cbn [fraction_digits] in *.
    + now apply arithmetic_fraction.
    + rewrite append_empty_r. apply arithmetic_integer; [exact Hi|].
      intros ->. discriminate Hne.
  - now apply arithmetic_parentheses, IH.
  - apply andb_prop in H as [H _]. apply andb_prop in H as [H _].
    apply (arithmetic_sign (write a) "-"); [now apply IH | cbn [In]; auto].
  - apply andb_prop in H as [H _]. apply andb_prop in H as [H _].
    apply (arithmetic_sign (write a) "+"); [now apply IH | cbn [In]; auto].
  - apply andb_prop in H as [H _]. apply andb_prop in H as [H _].
    apply andb_prop in H as [Ha Hb].
    apply (arithmetic_binary (write a) (write b) "+"); auto. cbn [In]. auto.
  - apply andb_prop in H as [H _]. apply andb_prop in H as [H _].
    apply andb_prop in H as [Ha Hb].
    apply (arithmetic_binary (write a) (write b) "-"); auto. cbn [In]. auto.
  - apply andb_prop in H as [H _]. apply andb_prop in H as [H _].
    apply andb_prop in H as [Ha Hb].
    apply (arithmetic_binary (write a) (write b) "*"); auto. cbn [In]. auto.
  - apply andb_prop in H as [H _]. apply andb_prop in H as [H _].
    apply andb_prop in H as [Ha Hb].
    apply (arithmetic_binary (write a) (write b) "/"); auto. cbn [In]. auto 6.
Qed.

Definition could_not_evaluate (expression : string) : tool_result :=
  ["Error: Could not evaluate expression '" ++ expression ++ "'"].

Example write_examples :
  write (Sum (Literal "2" None) (Product (Literal "3" None) (Literal "4" None)))
  = "2+3*4"
  /\ write (Product (Group (Sum (Literal "2" None) (Literal "3" None)))
              (Literal "4" None))
     = "(2+3)*4"
  /\ write (Sum (Negative (Literal "2" None)) (Literal "3" None)) = "-2+3"
  /\ write (Quotient (Literal "1" None) (Negative (Literal "" (Some "5"))))
     = "1/-.5"
  /\ well_formed (Negative (Negative (Literal "1" None))) = false.
Proof. repeat split. Qed.

(** C7, as stated, fails: the sanitized form of "2 +" is "2+", which has
    no value; the result is the error text, not a number as text. *)
Lemma C7_unfinished_expression_counterexample :
  sanitize "2 +" = "2+"
  /\ calculate no_exponentiation "2 +" = could_not_evaluate "2 +"
  /\ forall x : float,
       calculate no_exponentiation "2 +" <> ["Result: " ++ Number.toString x].
Proof. split; [reflexivity|]. split; [reflexivity|]. discriminate. Qed.

(** C7, amended: [calculate] removes from every input exactly the
    characters outside the set (digits, point, the four operators,
    parentheses), keeping the others in order; when what remains is an
    arithmetic expression (literals, the four operations, signs and
    parentheses, in the grammar of [arith]), the result is "Result: " and
    the value the expression has under the usual precedence and left
    association, where the value of a literal is a Number nearest to the
    number its digits denote; calculate("2+2") is "Result: 4" and
    "DROP TABLE x;1+1" is sanitized to "1+1". *)
Theorem C7_calculate_sanitizes_and_evaluates
  (exponentiate : float -> float -> float) :
  (forall expression,
      list_ascii_of_string (sanitize expression)
      = filter in_kept_set (list_ascii_of_string expression))
  /\ (forall expression t,
         well_formed t = true -> sanitize expression = write t ->
         calculate exponentiate expression
         = ["Result: " ++ Number.toString (value_of t)])
  /\ (forall integer fraction,
         Binary64.rounds_to
           (decimal_value integer (fraction_digits fraction))
           (Prim2SF (value_of (Literal integer fraction))))
  /\ calculate exponentiate "2+2" = ["Result: 4"]
  /\ calculate exponentiate "2.5+1" = ["Result: 3.5"]
  /\ sanitize "DROP TABLE x;1+1" = "1+1".
Proof.
  split; [exact sanitize_filter|].
  split; [|split; [|repeat split]].
  - intros expression t Hwf Hsan. unfold calculate.
    rewrite Hsan, (eval_write exponentiate t Hwf). reflexivity.
  - intros integer fraction. apply literal_value_nearest.
Qed.

Lemma C7_precedence_witness :
  calculate no_exponentiation "what is 2 + 3 * 4?" = ["Result: 14"]
  /\ calculate no_exponentiation "(2 + 3) * 4" = ["Result: 20"]
  /\ calculate no_exponentiation "-2+3" = ["Result: 1"].
Proof.
  destruct (C7_calculate_sanitizes_and_evaluates no_exponentiation)
    as (_ & H & _).
  split; [|split].
  - rewrite (H "what is 2 + 3 * 4?"
               (Sum (Literal "2" None)
                  (Product (Literal "3" None) (Literal "4" None))));
      reflexivity.
  - rewrite (H "(2 + 3) * 4"
               (Product (Group (Sum (Literal "2" None) (Literal "3" None)))
                  (Literal "4" None)));
      reflexivity.
  - rewrite (H "-2+3" (Sum (Negative (Literal "2" None)) (Literal "3" None)));
      reflexivity.
Defined.

(** *** Texts that are not arithmetic *)

Lemma arithmetic_head (s : string) :
  arithmetic s ->
  exists c s', s = String c s'
               /\ (is_digit c = true \/ In c ["."; "+"; "-"; "("]%char).
Proof.
  induction 1 as [d Hd Hne|i fr Hi _|a b c _ (c' & a' & -> & Hc) _ _ _
                 |a c _ _ Hc|a _ _].
  - destruct d as [|c d]; [contradiction|]. exists c, d. split; [reflexivity|].
    left. cbn [all_digits] in Hd. now apply andb_prop in Hd as [Hd _].
  - destruct i as [|c i].
    + exists "."%char, fr. split; [reflexivity|]. right. cbn [In]. auto.
    + exists c. eexists. split; [reflexivity|]. left.
      cbn [all_digits] in Hi. now apply andb_prop in Hi as [Hi _].
  - exists c'. eexists. split; [reflexivity | exact Hc].
  - exists c, a. split; [reflexivity|]. right.
    cbn [In] in *. destruct Hc as [<-|[<-|[]]]; auto.
  - exists "("%char. eexists. split; [reflexivity|]. right. cbn [In]. auto 6.
Qed.

Lemma not_arithmetic (c : ascii) (s : string) :
  In c [")"; "*"; "/"]%char -> ~ arithmetic (String c s).
Proof.
  intros Hc H. apply arithmetic_head in H as (c' & s' & [= <- _] & [Hd|Hin]);
    cbn [In] in *.
  - destruct Hc as [<-|[<-|[<-|[]]]]; discriminate Hd.
  - destruct Hc as [<-|[<-|[<-|[]]]];
      destruct Hin as [E|[E|[E|[E|[]]]]]; discriminate E.
Qed.

(** A text that starts with a closing parenthesis is rejected. *)
Lemma closing_first_is_rejected (exponentiate : float -> float -> float)
  (rest : string) :
  exists message,
    JSEval.eval exponentiate (String ")" rest) = Throw message.
Proof.
  unfold JSEval.eval. cbn [length]. rewrite lex_S.
  cbn [Ascii.eqb Bool.eqb andb]. unfold emit.
  pose proof (lex_enough (S (length rest)) true rest (Nat.lt_succ_diag_r _))
    as Hfuel.
  destruct (JSEval.lex (S (length rest)) true rest) as [| |ts];
    cbn [JSEval.andThen]; [contradiction | now eexists |].
  unfold JSEval.script.
  replace (3 * List.length (JSEval.TPunct JSEval.RParen :: ts) + 3)%nat
    with (S (S (3 * List.length (JSEval.TPunct JSEval.RParen :: ts) + 1)))%nat
    by lia.
  rewrite expression_S, unary_S. cbn [JSEval.andThen]. now eexists.
Qed.

(** C8 fails on every input that holds none of the kept characters, or
    whose kept characters start with two slashes: the sanitized text is
    not arithmetic, yet [eval] returns [undefined] without throwing, and
    the handler answers "Result: undefined" instead of the error text.
    Other texts that are not arithmetic do take the error path: one that
    starts with a closing parenthesis is answered with the error text. *)
Theorem C8_text_without_expression_is_not_reported
  (exponentiate : float -> float -> float) :
  (forall expression,
      sanitize expression = ""
      \/ (exists comment, sanitize expression = "//" ++ comment) ->
      ~ arithmetic (sanitize expression)
      /\ calculate exponentiate expression = ["Result: undefined"]
      /\ calculate exponentiate expression <> could_not_evaluate expression)
  /\ (forall expression rest,
         sanitize expression = String ")" rest ->
         ~ arithmetic (sanitize expression)
         /\ calculate exponentiate expression = could_not_evaluate expression).
Proof.
  split.
  - intros expression [H|[comment H]]; unfold calculate; rewrite H.
    + split; [|split; [reflexivity | discriminate]].
      intro Ha. now apply arithmetic_not_empty in Ha.
    + split; [|split; [reflexivity | discriminate]].
      apply not_arithmetic. cbn [In]. auto.
  - intros expression rest H. unfold calculate. rewrite H.
    split; [apply not_arithmetic; cbn [In]; auto|].
    now destruct (closing_first_is_rejected exponentiate rest) as [m ->].
Qed.

Lemma C8_hello_witness :
  calculate no_exponentiation "hello" = ["Result: undefined"]
  /\ calculate no_exponentiation "hello"
     <> ["Error: Could not evaluate expression 'hello'"]
  /\ calculate no_exponentiation "// see below" = ["Result: undefined"]
  /\ calculate no_exponentiation ") what?"
     = ["Error: Could not evaluate expression ') what?'"].
Proof.
  destruct (C8_text_without_expression_is_not_reported no_exponentiation)
    as [Hempty Hclosing].
  destruct (Hempty "hello") as (_ & H1 & H2); [now left|].
  destruct (Hempty "// see below") as (_ & H3 & _);
    [right; now exists ""|].
  destruct (Hclosing ") what?" "") as [_ H4]; [reflexivity|].
  split; [exact H1|]. split; [exact H2|]. split; [exact H3 | exact H4].
Defined.

Example calculate_examples (exponentiate : float -> float -> float) :
  calculate exponentiate "(1+" = could_not_evaluate "(1+"
  /\ calculate exponentiate "1 - -1" = could_not_evaluate "1 - -1"
  /\ calculate exponentiate "010" = could_not_evaluate "010"
  /\ calculate exponentiate "(1)(2)" = could_not_evaluate "(1)(2)"
  /\ calculate exponentiate "1//2" = ["Result: 1"]
  /\ calculate exponentiate "/1/" = ["Result: /1/"].
Proof. repeat split. Qed.

(** ** format-date *)

(** A host that knows one date, read in a zone at UTC. *)
Definition host_one_date : DateHost := {|
  Date_parse := fun text =>
    if text =? "2024-01-15T10:30:00"
    then ValidDate {| fullYear := 2024; month := 0; day := 15; hours := 10;
                      minutes := 30; seconds := 0;
                      isoString := "2024-01-15T10:30:00.000Z" |}
    else InvalidDate;
  Date_now := {| fullYear := 2026; month := 10; day := 3; hours := 4;
                 minutes := 8; seconds := 0;
                 isoString := "2026-11-03T04:08:00.000Z" |}
|}.

Example format_date_example :
  format_date host_one_date (Some "2024-01-15T10:30:00") (Some "YYYY-MM-DD")
  = ["2024-01-15"].
Proof. reflexivity. Qed.

(** C9 fails when a format pattern is supplied: an unparsable date is not
    reported; its fields, all NaN, are substituted into the pattern.
    Without a pattern the same date is reported as an error. *)
Theorem C9_unparsable_date_with_pattern (host : DateHost) (date format : string)
  (Hdate : date <> "") (Hformat : format <> "")
  (Hparse : Date_parse host date = InvalidDate) :
  format_date host (Some date) (Some format) = [formatDate InvalidDate format]
  /\ formatDate InvalidDate "YYYY-MM-DD HH:mm:ss" = "NaN-NaN-NaN NaN:NaN:NaN"
  /\ format_date host (Some date) None
     = ["Error formatting date: Invalid time value"].
Proof.
  unfold format_date, truthy.
  apply String.eqb_neq in Hdate, Hformat. rewrite Hdate, Hformat, Hparse.
  repeat split.
Qed.

Lemma C9_unparsable_date_witness :
  format_date host_one_date (Some "not a date") (Some "YYYY-MM-DD")
  = ["NaN-NaN-NaN"].
Proof.
  destruct (C9_unparsable_date_with_pattern host_one_date "not a date"
              "YYYY-MM-DD") as [-> _]; try discriminate; reflexivity.
Defined.

(** ** Objects: reading back what was assigned *)

Module JSObjectFacts.

Import JSObject.

Lemma own_app {A : Type} (name : string) (o o' : list (string * A)) :
  own name (o ++ o')%list
  = match own name o with
    | Some a => Some a
    | None => own name o'
    end.
Proof.
  induction o as [|[k a] o IH]; cbn [own app]; [reflexivity|].
  now destruct (k =? name).
Qed.

Lemma update_none (k v : string) (o : t) :
  update k v o = None <-> own k o = None.
Proof.
  induction o as [|[k' v'] o IH]; cbn [update own]; [tauto|].
  destruct (k' =? k); [split; discriminate|].
  destruct (update k v o); [|tauto].
  split; [discriminate|]. intro H. now apply IH in H.
Qed.

Lemma own_update (k v name : string) (o o' : t) :
  update k v o = Some o' ->
  own name o' = if name =? k then Some v else own name o.
Proof.
  revert o'. induction o as [|[k' v'] o IH]; cbn [update]; [discriminate|].
  intro o'. destruct (String.eqb_spec k' k) as [->|Hk].
  - intros [= <-]. cbn [own]. rewrite (String.eqb_sym name k).
    now destruct (k =? name).
  - destruct (update k v o) as [o''|]; [|discriminate]. intros [= <-].
    cbn [own]. destruct (String.eqb_spec k' name) as [->|Hn].
    + apply String.eqb_neq in Hk. rewrite Hk. reflexivity.
    + now apply IH.
Qed.

Lemma map_fst_update (k v : string) (o o' : t) :
  update k v o = Some o' -> map fst o' = map fst o.
Proof.
  revert o'. induction o as [|[k' v'] o IH]; cbn [update]; [discriminate|].
  intro o'. destruct (k' =? k).
  - now intros [= <-].
  - destruct (update k v o) as [o''|]; [|discriminate]. intros [= <-].
    cbn [map fst]. f_equal. now apply IH.
Qed.

Lemma own_none_not_key {A : Type} (name : string) (o : list (string * A)) :
  own name o = None <-> ~ In name (map fst o).
Proof.
  induction o as [|[k a] o IH]; cbn [own map fst In]; [tauto|].
  destruct (String.eqb_spec k name) as [->|Hk].
  - split; [discriminate | tauto].
  - rewrite IH. tauto.
Qed.

(** [o[k] = v; o[name]] *)
Lemma own_set (k v name : string) (o : t) :
  own name (set k v o)
  = if (name =? k) && negb (k =? "__proto__") then Some v else own name o.
Proof.
  unfold set. destruct (k =? "__proto__").
  - now rewrite andb_false_r.
  - rewrite andb_true_r. destruct (update k v o) as [o'|] eqn:E.
    + now apply own_update.
    + apply update_none in E. rewrite own_app. cbn [own].
      rewrite (String.eqb_sym k name).
      destruct (String.eqb_spec name k) as [->|_]; [now rewrite E|].
      now destruct (own name o).
Qed.

(** The keys of an object are distinct, and none is [__proto__]. *)
Definition well_keyed (o : t) : Prop :=
  NoDup (map fst o) /\ ~ In "__proto__" (map fst o).

Lemma well_keyed_empty : well_keyed empty.
Proof. split; [constructor | intros []]. Qed.

Lemma well_keyed_set (k v : string) (o : t) :
  well_keyed o -> well_keyed (set k v o).
Proof.
  intros [Hnd Hp]. unfold set, well_keyed.
  destruct (String.eqb_spec k "__proto__") as [->|Hk]; [now split|].
  destruct (update k v o) as [o'|] eqn:E.
  - rewrite (map_fst_update k v o o' E). now split.
  - apply update_none, own_none_not_key in E.
    rewrite map_app. cbn [map fst]. split.
    + apply NoDup_app; [exact Hnd | constructor; [intros [] | constructor] |].
      intros x Hx [<-|[]]. contradiction.
    + rewrite in_app_iff. cbn [In]. intros [H|[H|[]]]; [contradiction|].
      now apply Hk.
Qed.

(** *** The order of [Object.entries] *)

Lemma insert_index_perm (n : N) (kv : string * string)
  (l : list (N * (string * string))) :
  Permutation (insert_index n kv l) ((n, kv) :: l).
Proof.
  induction l as [|[m kv'] l IH]; cbn [insert_index]; [reflexivity|].
  destruct (n <=? m)%N; [reflexivity|].
  rewrite IH. apply perm_swap.
Qed.

Lemma entries_perm (o : t) : Permutation (entries o) o.
Proof.
  unfold entries.
  induction o as [|[k v] o IH]; cbn [split_keys]; [reflexivity|].
  destruct (split_keys o) as [ix rest].
  destruct (array_index k) as [n|].
  - rewrite (insert_index_perm n (k, v) ix). cbn [map snd app].
    now constructor.
  - rewrite <- Permutation_middle. now constructor.
Qed.

Lemma keys_perm (o : t) : Permutation (keys o) (map fst o).
Proof. unfold keys. apply Permutation_map, entries_perm. Qed.

Lemma keys_nil (o : t) : keys o = [] <-> o = [].
Proof.
  split.
  - intro H. pose proof (keys_perm o) as P. rewrite H in P.
    apply Permutation_nil in P. now destruct o.
  - now intros ->.
Qed.

End JSObjectFacts.
(** ** Schema Loader: what a load holds *)

Import JSObjectFacts.

(** The text of the last file of the listing that is a definition file
    and gives the table name [name]; [found] when there is none. *)
Fixpoint latest (content : string -> string) (schemaFiles : list string)
  (name : string) (found : option string) : option string :=
  match schemaFiles with
  | [] => found
  | file :: rest =>
      latest content rest name
        (if endsWith file ".sql" && (name =? remove_first ".sql" file)
         then Some (content file) else found)
  end.

Lemma load_files_well_keyed (fs : FileSystem) (schemasDir : string)
  (schemaFiles : list string) :
  forall schemas schemas',
    load_files fs schemasDir schemaFiles schemas = Return schemas' ->
    well_keyed schemas -> well_keyed schemas'.
Proof.
  induction schemaFiles as [|file rest IH]; intros schemas schemas';
    cbn [load_files].
  - now intros [= <-].
  - destruct (endsWith file ".sql"); [|apply IH].
    destruct (readFile fs (join schemasDir file)) as [content|m];
      cbn [bind]; [|discriminate].
    intros H Hk. apply (IH _ _ H). now apply well_keyed_set.
Qed.

Lemma loaded_well_keyed (fs : FileSystem) (cwd : string) :
  well_keyed (loadDatabaseSchemas fs cwd).
Proof.
  unfold loadDatabaseSchemas.
  destruct (readdir fs (schemas_dir cwd)) as [files|m]; cbn [bind try_catch];
    [|apply well_keyed_empty].
  destruct (load_files fs (schemas_dir cwd) files JSObject.empty) as [o|m]
    eqn:E; [|apply well_keyed_empty].
  apply (load_files_well_keyed _ _ _ _ _ E), well_keyed_empty.
Qed.

Lemma load_files_readable (fs : FileSystem) (schemasDir : string)
  (content : string -> string) (schemaFiles : list string) :
  (forall file, In file schemaFiles -> endsWith file ".sql" = true ->
                readFile fs (join schemasDir file) = Return (content file)) ->
  forall schemas,
  exists schemas',
    load_files fs schemasDir schemaFiles schemas = Return schemas'
    /\ forall name, name <> "__proto__" ->
         own name schemas' = latest content schemaFiles name (own name schemas).
Proof.
  induction schemaFiles as [|file rest IH]; intros Hread schemas;
    cbn [load_files latest].
  - now exists schemas.
  - assert (Hrest : forall f, In f rest -> endsWith f ".sql" = true ->
                      readFile fs (join schemasDir f) = Return (content f))
      by (intros f Hf; apply Hread; now right).
    destruct (endsWith file ".sql") eqn:Esql; cbn [andb].
    + rewrite (Hread file (or_introl eq_refl) Esql). cbn [bind].
      destruct (IH Hrest (JSObject.set (remove_first ".sql" file)
                             (content file) schemas)) as (o & -> & Ho).
      exists o. split; [reflexivity|]. intros name Hname.
      rewrite (Ho name Hname), own_set. f_equal.
      destruct (String.eqb_spec name (remove_first ".sql" file)) as [E|_];
        [|reflexivity].
      rewrite <- E. apply String.eqb_neq in Hname. now rewrite Hname.
    + apply (IH Hrest).
Qed.

Lemma latest_found (content : string -> string) (schemaFiles : list string)
  (file : string) :
  In file schemaFiles -> endsWith file ".sql" = true ->
  forall found,
    latest content schemaFiles (remove_first ".sql" file) found <> None.
Proof.
  intros Hin Hsql.
  assert (Hsome : forall files text,
             latest content files (remove_first ".sql" file) (Some text)
             <> None).
  { induction files as [|f rest IH]; intro text; cbn [latest]; [discriminate|].
    destruct (_ && _); apply IH. }
  induction schemaFiles as [|f rest IH]; [contradiction|].
  intro found. cbn [latest]. destruct Hin as [->|Hin].
  - rewrite Hsql, String.eqb_refl. apply Hsome.
  - now apply IH.
Qed.

(** X1: whatever the directory holds and whether or not it can be read,
    the table names of the loaded mapping are distinct, and [__proto__] is
    never one of them: the text of a file [__proto__.sql] is read and
    then dropped by the assignment. *)
Theorem X1_loaded_names_distinct (fs : FileSystem) (cwd : string) :
  NoDup (JSObject.keys (loadDatabaseSchemas fs cwd))
  /\ ~ In "__proto__" (JSObject.keys (loadDatabaseSchemas fs cwd)).
Proof.
  destruct (loaded_well_keyed fs cwd) as [Hnd Hp].
  pose proof (keys_perm (loadDatabaseSchemas fs cwd)) as P.
  split.
  - apply (Permutation_NoDup (Permutation_sym P) Hnd).
  - intro H. apply Hp. apply (Permutation_in _ P H).
Qed.

Lemma latest_none (content : string -> string) (schemaFiles : list string)
  (name : string) :
  (forall file, In file schemaFiles -> endsWith file ".sql" = true ->
                remove_first ".sql" file <> name) ->
  forall found, latest content schemaFiles name found = found.
Proof.
  induction schemaFiles as [|f rest IH]; intros H found; cbn [latest];
    [reflexivity|].
  rewrite IH by (intros file Hf; apply H; now right).
  destruct (endsWith f ".sql") eqn:E; [|reflexivity].
  destruct (String.eqb_spec name (remove_first ".sql" f)) as [->|_];
    [|reflexivity].
  now destruct (H f (or_introl eq_refl) E).
Qed.

Lemma loaded_own (fs : FileSystem) (cwd : string)
  (schemaFiles : list string) (content : string -> string) (name : string) :
  readdir fs (schemas_dir cwd) = Return schemaFiles ->
  (forall file, In file schemaFiles -> endsWith file ".sql" = true ->
             readFile fs (join (schemas_dir cwd) file) = Return (content file)) ->
  name <> "__proto__" ->
  own name (loadDatabaseSchemas fs cwd) = latest content schemaFiles name None.
Proof.
  intros Hdir Hread Hname.
  unfold loadDatabaseSchemas. rewrite Hdir. cbn [bind].
  destruct (load_files_readable fs (schemas_dir cwd) content schemaFiles Hread
              JSObject.empty) as (o & -> & Ho).
  cbn [try_catch]. now rewrite (Ho name Hname).
Qed.

(** X2: when the directory can be listed and each of its definition
    files can be read, the loaded mapping holds, under every table name
    other than [__proto__], the text of the last file of the listing that
    gives that name, and nothing under a name no file gives. *)
Theorem X2_loaded_text_is_latest (fs : FileSystem) (cwd : string)
  (schemaFiles : list string) (content : string -> string) (name : string)
  (Hdir : readdir fs (schemas_dir cwd) = Return schemaFiles)
  (Hread : forall file, In file schemaFiles -> endsWith file ".sql" = true ->
             readFile fs (join (schemas_dir cwd) file) = Return (content file))
  (Hname : name <> "__proto__") :
  own name (loadDatabaseSchemas fs cwd) = latest content schemaFiles name None
  /\ ((forall file, In file schemaFiles -> endsWith file ".sql" = true ->
                    remove_first ".sql" file <> name) ->
      own name (loadDatabaseSchemas fs cwd) = None).
Proof.
  rewrite (loaded_own fs cwd schemaFiles content name Hdir Hread Hname).
  split; [reflexivity|]. intro H. now apply latest_none.
Qed.

(** A directory in which two files give the table name [employees.sql] *)
Definition fs_two_dumps : FileSystem := {|
  readdir := fun _ => Return [".sqlemployees.sql"; "notes.txt"; "employees.sql.sql"];
  readFile := fun path =>
    if path =? "/srv/app/schemas/.sqlemployees.sql" then Return "first"
    else if path =? "/srv/app/schemas/employees.sql.sql" then Return "second"
    else Throw "ENOENT: no such file or directory"
|}.

Lemma X2_latest_witness :
  own "employees.sql" (loadDatabaseSchemas fs_two_dumps "/srv") = Some "second".
Proof.
  destruct (X2_loaded_text_is_latest fs_two_dumps "/srv"
              [".sqlemployees.sql"; "notes.txt"; "employees.sql.sql"]
              (fun file => if file =? ".sqlemployees.sql" then "first"
                           else "second") "employees.sql") as [-> _].
  - reflexivity.
  - intros file [<-|[<-|[<-|[]]]] H; try reflexivity. discriminate H.
  - discriminate.
  - reflexivity.
Defined.
(** ** The loaded schemas and the nl-to-sql tool *)

(** X3: with a credential, a directory that can be listed and definition
    files that can be read, the nl-to-sql tool sends one prompt, the one
    assembled from the loaded schemas, as soon as one definition file gives
    a table name other than [__proto__]; when no file does, the tool
    answers that the schemas are not loaded and sends nothing. *)
Theorem X3_prompt_sent_when_a_definition_loads (fs : FileSystem) (cwd : string)
  (schemaFiles : list string) (content : string -> string)
  (env : option string) (generateContent : string -> completion string)
  (query : string)
  (Hdir : readdir fs (schemas_dir cwd) = Return schemaFiles)
  (Hread : forall file, In file schemaFiles -> endsWith file ".sql" = true ->
             readFile fs (join (schemas_dir cwd) file) = Return (content file))
  (Hkey : GEMINI_API_KEY env <> "") :
  let loaded := loadDatabaseSchemas fs cwd in
  let outcome := nl_to_sql (GEMINI_API_KEY env) loaded generateContent query in
  ((exists file, In file schemaFiles /\ endsWith file ".sql" = true
                 /\ remove_first ".sql" file <> "__proto__") ->
   snd outcome = [assemble_prompt loaded query])
  /\ ((forall file, In file schemaFiles -> endsWith file ".sql" = true ->
                    remove_first ".sql" file = "__proto__") ->
      outcome = ([no_schemas_error], [])).
Proof.
  cbv zeta. apply String.eqb_neq in Hkey. unfold nl_to_sql. rewrite Hkey.
  pose proof (fun name => loaded_own fs cwd schemaFiles content name Hdir
                            Hread) as Hown.
  destruct (loaded_well_keyed fs cwd) as [_ Hproto].
  split.
  - intros (file & Hin & Hsql & Hname).
    specialize (Hown _ Hname).
    pose proof (latest_found content schemaFiles file Hin Hsql None) as Hsome.
    rewrite <- Hown in Hsome.
    destruct (JSObject.keys (loadDatabaseSchemas fs cwd)) as [|k ks] eqn:Ek;
      [|reflexivity].
    apply keys_nil in Ek. rewrite Ek in Hsome. now destruct Hsome.
  - intro Hnone.
    assert (Hempty : loadDatabaseSchemas fs cwd = []).
    { destruct (loadDatabaseSchemas fs cwd) as [|[k v] o]; [reflexivity|].
      exfalso. destruct (String.eqb_spec k "__proto__") as [->|Hk].
      - apply Hproto. now left.
      - specialize (Hown k Hk). cbn [own] in Hown.
        rewrite String.eqb_refl in Hown.
        rewrite latest_none in Hown; [discriminate|].
        intros file Hin Hsql E. apply Hk. rewrite <- E. now apply Hnone. }
    now rewrite Hempty.
Qed.

Lemma X3_prompt_sent_witness :
  snd (nl_to_sql "key" (loadDatabaseSchemas fs_two_dumps "/srv")
         (fun _ => Throw "offline") "who earns most?")
  = [assemble_prompt [("employees.sql", "second")] "who earns most?"].
Proof.
  apply (X3_prompt_sent_when_a_definition_loads fs_two_dumps "/srv"
           [".sqlemployees.sql"; "notes.txt"; "employees.sql.sql"]
           (fun file => if file =? ".sqlemployees.sql" then "first"
                        else "second") (Some "key")).
  - reflexivity.
  - intros file [<-|[<-|[<-|[]]]] H; try reflexivity. discriminate H.
  - discriminate.
  - exists "employees.sql.sql". repeat split; try discriminate. simpl; auto.
Defined.
(** ** Calls that arrive before the schemas are loaded *)

Lemma serve_calls (fs : FileSystem) (cwd key : string)
  (generateContent : string -> completion string)
  (databaseSchemas : JSObject.t) (queries : list string) (events : list event) :
  serve fs cwd key generateContent databaseSchemas
    (map NlToSqlCalled queries ++ events)%list
  = (map (nl_to_sql key databaseSchemas generateContent) queries
     ++ serve fs cwd key generateContent databaseSchemas events)%list.
Proof.
  induction queries as [|q queries IH]; [reflexivity|].
  cbn [map app serve turn]. now rewrite IH.
Qed.

(** X4: the module starts with no schemas, and the callback of the load
    is the only assignment: with a credential, every nl-to-sql call that
    arrives before the load is fulfilled is answered that the schemas are
    not loaded, whatever the directory holds, and sends nothing; every call
    after it works on the loaded mapping, which no call changes. *)
Theorem X4_calls_before_the_load_are_refused (fs : FileSystem) (cwd : string)
  (env : option string) (generateContent : string -> completion string)
  (before after : list string) (Hkey : GEMINI_API_KEY env <> "") :
  server fs cwd env generateContent
    (map NlToSqlCalled before ++ SchemasLoaded :: map NlToSqlCalled after)%list
  = (map (fun _ => ([no_schemas_error], [])) before
     ++ map (nl_to_sql (GEMINI_API_KEY env) (loadDatabaseSchemas fs cwd)
               generateContent) after)%list.
Proof.
  unfold server. rewrite serve_calls. cbn [serve turn].
  rewrite <- (app_nil_r (map NlToSqlCalled after)), serve_calls.
  cbn [serve]. rewrite !app_nil_r. f_equal.
  apply map_ext. intro q. unfold nl_to_sql.
  apply String.eqb_neq in Hkey. now rewrite Hkey.
Qed.

Lemma X4_calls_before_the_load_witness :
  server fs_two_dumps "/srv" (Some "key") (fun _ => Return " SELECT 1 ")
    [NlToSqlCalled "early"; SchemasLoaded; NlToSqlCalled "late"]
  = [([no_schemas_error], []);
     (["SELECT 1"; LF ++ LF ++ "Generated from natural language query: late"],
      [assemble_prompt [("employees.sql", "second")] "late"])].
Proof.
  apply (X4_calls_before_the_load_are_refused fs_two_dumps "/srv" (Some "key")
           (fun _ => Return " SELECT 1 ") ["early"] ["late"]).
  discriminate.
Defined.

(** ** The text the nl-to-sql tool returns *)

Fixpoint all_white (s : string) : bool :=
  match s with
  | EmptyString => true
  | String c s' => is_white_space c && all_white s'
  end.

Definition first_char (s : string) : option ascii :=
  match s with
  | EmptyString => None
  | String c _ => Some c
  end.

Fixpoint last_char (s : string) : option ascii :=
  match s with
  | EmptyString => None
  | String c EmptyString => Some c
  | String _ s' => last_char s'
  end.

Definition white (c : option ascii) : bool :=
  match c with
  | Some c => is_white_space c
  | None => false
  end.

Lemma trimStart_spec (s : string) :
  exists lead,
    s = lead ++ trimStart s /\ all_white lead = true
    /\ white (first_char (trimStart s)) = false.
Proof.
  induction s as [|c s (lead & Hs & Hw & Hf)]; cbn [trimStart].
  - now exists "".
  - destruct (is_white_space c) eqn:Ec.
    + exists (String c lead). cbn [append all_white].
      rewrite Ec, Hw, <- Hs. now repeat split.
    + exists "". now repeat split.
Qed.

Lemma trimEnd_spec (s : string) :
  exists trail,
    s = trimEnd s ++ trail /\ all_white trail = true
    /\ white (last_char (trimEnd s)) = false
    /\ (white (first_char s) = false ->
        white (first_char (trimEnd s)) = false).
Proof.
  induction s as [|c s (trail & Hs & Hw & Hl & _)]; cbn [trimEnd].
  - now exists "".
  - destruct (trimEnd s) as [|d t] eqn:Et.
    + destruct (is_white_space c) eqn:Ec.
      * exists (String c trail). cbn [append all_white].
        rewrite Ec, Hw. cbn [append] in Hs. rewrite <- Hs.
        now repeat split.
      * exists trail. cbn [append] in *. subst s.
        repeat split; cbn [last_char first_char white]; auto.
    + exists trail.
      change (String c (String d t) ++ trail)
        with (String c (String d t ++ trail)).
      rewrite <- Hs. repeat split; auto.
Qed.

Lemma trim_spec (s : string) :
  exists lead trail,
    s = lead ++ trim s ++ trail
    /\ all_white lead = true /\ all_white trail = true
    /\ white (first_char (trim s)) = false
    /\ white (last_char (trim s)) = false.
Proof.
  unfold trim.
  destruct (trimStart_spec s) as (lead & Hs & Hlead & Hfirst).
  destruct (trimEnd_spec (trimStart s)) as (trail & Ht & Htrail & Hlast & Hkeep).
  exists lead, trail. rewrite <- Ht. repeat split; auto.
Qed.

(** X5: with a credential and a schema, the tool sends the assembled
    prompt; when the model answers, the first segment of the result is the
    answer without the white space around it (none is left at either end,
    and nothing else is removed: an answer of white space alone gives the
    empty text), and the second segment repeats the query; when the call
    fails, the one segment is the error text with the failure's
    message. *)
Theorem X5_answer_is_trimmed (key : string) (databaseSchemas : JSObject.t)
  (generateContent : string -> completion string) (query : string)
  (Hkey : key <> "") (Hschemas : JSObject.keys databaseSchemas <> []) :
  match generateContent (assemble_prompt databaseSchemas query) with
  | Return text =>
      exists sqlQuery lead trail,
        fst (nl_to_sql key databaseSchemas generateContent query)
        = [sqlQuery;
           LF ++ LF ++ "Generated from natural language query: " ++ query]
        /\ text = lead ++ sqlQuery ++ trail
        /\ all_white lead = true /\ all_white trail = true
        /\ white (first_char sqlQuery) = false
        /\ white (last_char sqlQuery) = false
  | Throw message =>
      fst (nl_to_sql key databaseSchemas generateContent query)
      = ["Error generating SQL from natural language: " ++ message]
  end.
Proof.
  unfold nl_to_sql. apply String.eqb_neq in Hkey. rewrite Hkey.
  destruct (JSObject.keys databaseSchemas) as [|k ks]; [contradiction|].
  cbn [List.length Nat.eqb fst].
  destruct (generateContent (assemble_prompt databaseSchemas query))
    as [text|message]; [|reflexivity].
  destruct (trim_spec text) as (lead & trail & H).
  exists (trim text), lead, trail. split; [reflexivity | exact H].
Qed.

Lemma X5_answer_is_trimmed_witness :
  exists sqlQuery lead trail,
    fst (nl_to_sql "key" [("t", "CREATE TABLE t (id INT);")]
           (fun _ => Return (LF ++ " SELECT id FROM t; " ++ LF)) "all ids")
    = [sqlQuery; LF ++ LF ++ "Generated from natural language query: all ids"]
    /\ LF ++ " SELECT id FROM t; " ++ LF = lead ++ sqlQuery ++ trail
    /\ all_white lead = true /\ all_white trail = true
    /\ white (first_char sqlQuery) = false
    /\ white (last_char sqlQuery) = false.
Proof.
  apply (X5_answer_is_trimmed "key" [("t", "CREATE TABLE t (id INT);")]
           (fun _ => Return (LF ++ " SELECT id FROM t; " ++ LF)) "all ids");
    discriminate.
Defined.
(** ** The order of the tables in the prompt *)

Definition index_of (entry : string * string) : N :=
  match JSObject.array_index (fst entry) with
  | Some n => n
  | None => 0
  end.

Definition is_index (entry : string * string) : bool :=
  match JSObject.array_index (fst entry) with
  | Some _ => true
  | None => false
  end.

Definition indexed (l : list (N * (string * string))) : Prop :=
  Forall (fun '(n, entry) => JSObject.array_index (fst entry) = Some n) l.

Definition ascending (l : list (N * (string * string))) : Prop :=
  StronglySorted (fun a b => (fst a <= fst b)%N) l.

Lemma insert_index_In (n : N) (entry : string * string)
  (l : list (N * (string * string))) (x : N * (string * string)) :
  In x (JSObject.insert_index n entry l) -> x = (n, entry) \/ In x l.
Proof.
  intro H. apply (Permutation_in _ (JSObjectFacts.insert_index_perm n entry l)) in H.
  destruct H as [<-|H]; auto.
Qed.

Lemma insert_index_ascending (n : N) (entry : string * string)
  (l : list (N * (string * string))) :
  ascending l -> ascending (JSObject.insert_index n entry l).
Proof.
  unfold ascending.
  induction l as [|[m e] l IH]; intro H; cbn [JSObject.insert_index].
  - repeat constructor.
  - inversion H as [|? ? Hl Hm]; subst.
    destruct (N.leb_spec n m) as [Hle|Hgt].
    + constructor; [exact H|]. constructor; [exact Hle|].
      apply Forall_forall. intros x Hx. cbn [fst].
      rewrite Forall_forall in Hm. specialize (Hm x Hx). cbn [fst] in Hm. lia.
    + constructor; [now apply IH|].
      apply Forall_forall. intros x Hx. cbn [fst].
      apply insert_index_In in Hx as [->|Hx]; [cbn [fst]; lia|].
      rewrite Forall_forall in Hm. exact (Hm x Hx).
Qed.

Lemma split_keys_spec (o : JSObject.t) :
  let (ix, rest) := JSObject.split_keys o in
  indexed ix /\ ascending ix
  /\ Permutation (map snd ix) (filter is_index o)
  /\ rest = filter (fun entry => negb (is_index entry)) o.
Proof.
  induction o as [|[k v] o IH]; cbn [JSObject.split_keys filter].
  - repeat split; constructor.
  - destruct (JSObject.split_keys o) as [ix rest].
    destruct IH as (Hi & Ha & Hp & Hr).
    destruct (JSObject.array_index k) as [n|] eqn:Ek.
    + assert (E : is_index (k, v) = true)
        by (unfold is_index; cbn [fst]; now rewrite Ek).
      rewrite E. cbn [negb].
      split; [|split; [|split]].
      * unfold indexed. apply Forall_forall. intros [m e] Hx.
        apply insert_index_In in Hx as [[= -> ->]|Hx]; [exact Ek|].
        unfold indexed in Hi. rewrite Forall_forall in Hi. exact (Hi _ Hx).
      * now apply insert_index_ascending.
      * rewrite (JSObjectFacts.insert_index_perm n (k, v) ix). cbn [map snd].
        now constructor.
      * exact Hr.
    + assert (E : is_index (k, v) = false)
        by (unfold is_index; cbn [fst]; now rewrite Ek).
      rewrite E. cbn [negb].
      repeat split; try assumption. now f_equal.
Qed.

Lemma ascending_entries (ix : list (N * (string * string))) :
  indexed ix -> ascending ix ->
  StronglySorted (fun a b => (index_of a <= index_of b)%N) (map snd ix).
Proof.
  unfold indexed, ascending.
  induction ix as [|[n e] ix IH]; intros Hi Ha; cbn [map snd]; [constructor|].
  inversion Hi as [|? ? Hn Hi']; subst. inversion Ha as [|? ? Ha' Hm]; subst.
  constructor; [now apply IH|].
  apply Forall_forall. intros x Hx. apply in_map_iff in Hx as ([m e'] & <- & Hx).
  rewrite Forall_forall in Hm, Hi'. specialize (Hm _ Hx). specialize (Hi' _ Hx).
  cbn [fst snd] in *. unfold index_of. now rewrite Hn, Hi'.
Qed.

(** X6: the tables enter the prompt in the order of [Object.entries]:
    first the tables whose names are array indices (as a file [2024.sql]
    gives), by ascending index whatever the order of the directory
    listing, then the other tables in the order in which they were first
    assigned; each table enters once. *)
Theorem X6_order_of_tables (databaseSchemas : JSObject.t) :
  exists indices,
    JSObject.entries databaseSchemas
    = (indices
       ++ filter (fun entry => negb (is_index entry)) databaseSchemas)%list
    /\ Permutation indices (filter is_index databaseSchemas)
    /\ StronglySorted (fun a b => (index_of a <= index_of b)%N) indices
    /\ Permutation (JSObject.entries databaseSchemas) databaseSchemas.
Proof.
  pose proof (split_keys_spec databaseSchemas) as H. unfold JSObject.entries.
  pose proof (JSObjectFacts.entries_perm databaseSchemas) as P.
  unfold JSObject.entries in P.
  destruct (JSObject.split_keys databaseSchemas) as [ix rest].
  destruct H as (Hi & Ha & Hp & ->).
  exists (map snd ix). repeat split; try assumption.
  now apply ascending_entries.
Qed.

(** ** format-date: the six replacements as one pass *)

Lemma length_drop_le (n : nat) (s : string) : (length (drop n s) <= length s)%nat.
Proof.
  revert s. induction n as [|n IH]; intros [|c s]; cbn [drop length]; try lia.
  specialize (IH s). lia.
Qed.

(** Fuel beyond the length of the text changes nothing. *)
Lemma replace_all_fuel_irrelevant (pattern replacement : string) :
  pattern <> "" ->
  forall fuel fuel' s, (length s <= fuel)%nat -> (length s <= fuel')%nat ->
    replace_all_fuel fuel pattern replacement s
    = replace_all_fuel fuel' pattern replacement s.
Proof.
  intro Hp. induction fuel as [|fuel IH]; intros fuel' s Hs Hs'.
  - destruct s; [now destruct fuel' | cbn [length] in Hs; lia].
  - destruct s as [|c s]; [now destruct fuel'|].
    destruct fuel' as [|fuel']; cbn [length] in Hs, Hs'; [lia|].
    cbn [replace_all_fuel].
    assert (Hlen : (length (drop (length pattern) (String c s)) <= length s)%nat).
    { destruct pattern as [|p0 pattern]; [contradiction|].
      cbn [length drop]. apply length_drop_le. }
    destruct (prefix pattern (String c s)); f_equal; apply IH; lia.
Qed.

Lemma replace_all_fuel_enough (pattern replacement : string) :
  pattern <> "" ->
  forall fuel s, (length s <= fuel)%nat ->
    replace_all_fuel fuel pattern replacement s
    = replace_all pattern replacement s.
Proof.
  intros Hp fuel s Hs. unfold replace_all.
  now apply replace_all_fuel_irrelevant.
Qed.

Lemma replace_all_empty (pattern replacement : string) :
  replace_all pattern replacement "" = "".
Proof. reflexivity. Qed.

Lemma replace_all_cons (pattern replacement : string) (c : ascii) (s : string) :
  pattern <> "" ->
  replace_all pattern replacement (String c s)
  = if prefix pattern (String c s)
    then replacement
         ++ replace_all pattern replacement (drop (length pattern) (String c s))
    else String c (replace_all pattern replacement s).
Proof.
  intro Hp. unfold replace_all at 1. cbn [length replace_all_fuel].
  destruct (prefix pattern (String c s)); [|reflexivity].
  f_equal. apply replace_all_fuel_enough; [exact Hp|].
  destruct pattern as [|p0 pattern]; [contradiction|].
  cbn [length drop]. apply length_drop_le.
Qed.

(** A text in which the letter [l] does not occur *)
Fixpoint without (l : ascii) (s : string) : bool :=
  match s with
  | EmptyString => true
  | String c s' => negb (c =? l)%char && without l s'
  end.

(** A pattern that starts with [l] has no occurrence that starts inside a
    text without [l]. *)
Lemma replace_all_skip (l : ascii) (pattern replacement a s : string) :
  without l a = true ->
  replace_all (String l pattern) replacement (a ++ s)
  = a ++ replace_all (String l pattern) replacement s.
Proof.
  induction a as [|c a IH]; cbn [without append]; [reflexivity|].
  intro H. apply andb_prop in H as [Hc Ha].
  rewrite replace_all_cons by discriminate. cbn [prefix].
  destruct (Ascii.ascii_dec l c) as [->|Hne].
  - now rewrite Ascii.eqb_refl in Hc.
  - now rewrite IH.
Qed.

Definition first_char_is (l : ascii) (s : string) : bool :=
  match s with
  | String c _ => (c =? l)%char
  | EmptyString => false
  end.

(** What a replacement leaves at the head of a text starts with [l] only
    if the text did, when the replacement is not empty and starts with
    another character. *)
Lemma replace_all_head (l : ascii) (pattern replacement s : string) :
  pattern <> "" -> replacement <> "" -> first_char_is l replacement = false ->
  first_char_is l (replace_all pattern replacement s) = true ->
  first_char_is l s = true.
Proof.
  intros Hp Hr Hl. destruct s as [|c s]; [discriminate|].
  rewrite replace_all_cons by exact Hp.
  destruct (prefix pattern (String c s)); [|now intros].
  destruct replacement as [|r0 replacement]; [contradiction|].
  cbn [append first_char_is] in *. congruence.
Qed.

Lemma prefix_append (p s : string) : prefix p (p ++ s) = true.
Proof.
  induction p as [|c p IH]; cbn [append prefix]; [now destruct s|].
  now destruct (Ascii.ascii_dec c c).
Qed.

Lemma drop_append (p s : string) : drop (length p) (p ++ s) = s.
Proof. induction p as [|c p IH]; cbn [append length drop]; auto. Qed.

(** An occurrence at the head of the text is replaced. *)
Lemma replace_all_token (pattern replacement s : string) :
  pattern <> "" ->
  replace_all pattern replacement (pattern ++ s)
  = replacement ++ replace_all pattern replacement s.
Proof.
  intro Hp. pose proof (prefix_append pattern s) as H.
  pose proof (drop_append pattern s) as Hd.
  destruct pattern as [|c p]; [contradiction|]. cbn [append] in *.
  rewrite replace_all_cons by discriminate. now rewrite H, Hd.
Qed.
(** The texts that replace the six tokens *)
Definition year_text (date : JSDate) : string :=
  integer_toString (getter fullYear date).
Definition month_text (date : JSDate) : string :=
  padStart0 2 (integer_toString (plus_one (getter month date))).
Definition day_text (date : JSDate) : string :=
  padStart0 2 (integer_toString (getter day date)).
Definition hours_text (date : JSDate) : string :=
  padStart0 2 (integer_toString (getter hours date)).
Definition minutes_text (date : JSDate) : string :=
  padStart0 2 (integer_toString (getter minutes date)).
Definition seconds_text (date : JSDate) : string :=
  padStart0 2 (integer_toString (getter seconds date)).

Lemma formatDate_passes (date : JSDate) (format : string) :
  formatDate date format
  = replace_all "ss" (seconds_text date)
      (replace_all "mm" (minutes_text date)
         (replace_all "HH" (hours_text date)
            (replace_all "DD" (day_text date)
               (replace_all "MM" (month_text date)
                  (replace_all "YYYY" (year_text date) format))))).
Proof. reflexivity. Qed.

Definition token_letter (l : ascii) : bool :=
  existsb (Ascii.eqb l) ["Y"; "M"; "D"; "H"; "m"; "s"]%char.

(** A text that is not empty and holds no letter of a token *)
Definition plain (s : string) : Prop :=
  s <> "" /\ forall l, token_letter l = true -> without l s = true.

Lemma without_append (l : ascii) (a b : string) :
  without l (a ++ b) = without l a && without l b.
Proof.
  induction a as [|c a IH]; cbn [append without]; [reflexivity|].
  now rewrite IH, andb_assoc.
Qed.

Lemma token_letter_cases (l : ascii) :
  token_letter l = true ->
  l = "Y"%char \/ l = "M"%char \/ l = "D"%char \/ l = "H"%char
  \/ l = "m"%char \/ l = "s"%char.
Proof.
  unfold token_letter. cbn [existsb].
  repeat match goal with
         | |- context [(l =? ?c)%char] => destruct (Ascii.eqb_spec l c); auto 7
         end.
  discriminate.
Qed.

Lemma without_digits (l : ascii) (s : string) :
  token_letter l = true -> all_digits s = true -> without l s = true.
Proof.
  intros Hl. induction s as [|c s IH]; cbn [all_digits without];
    [reflexivity|].
  intro H. apply andb_prop in H as [Hc Hs]. rewrite (IH Hs), andb_true_r.
  destruct (Ascii.eqb_spec c l) as [->|_]; [|reflexivity].
  apply token_letter_cases in Hl.
  destruct Hl as [->|[->|[->|[->|[->| ->]]]]]; discriminate Hc.
Qed.

Lemma decimal_not_empty (n : N) : Number.decimal n <> "".
Proof.
  unfold Number.decimal, NilZero.string_of_uint.
  destruct (N.to_uint n); discriminate.
Qed.

Lemma append_not_empty_r (a b : string) : b <> "" -> a ++ b <> "".
Proof. destruct a; [now intros | discriminate]. Qed.

Lemma plain_integer (n : option Z) : plain (integer_toString n).
Proof.
  destruct n as [z|]; cbn [integer_toString].
  - split.
    + apply append_not_empty_r, decimal_not_empty.
    + intros l Hl. rewrite without_append.
      rewrite (without_digits l _ Hl (all_digits_decimal _)), andb_true_r.
      destruct (z <? 0)%Z; [|reflexivity].
      apply token_letter_cases in Hl.
      destruct Hl as [->|[->|[->|[->|[->| ->]]]]]; reflexivity.
  - split; [discriminate|]. intros l Hl. apply token_letter_cases in Hl.
    destruct Hl as [->|[->|[->|[->|[->| ->]]]]]; reflexivity.
Qed.

Lemma plain_padded (n : option Z) : plain (padStart0 2 (integer_toString n)).
Proof.
  destruct (plain_integer n) as [Hne Hw]. unfold padStart0. split.
  - now apply append_not_empty_r.
  - intros l Hl. rewrite without_append, (Hw l Hl), andb_true_r.
    apply without_digits; [exact Hl | apply all_digits_repeat_zero].
Qed.

Lemma plain_head (l : ascii) (s : string) :
  plain s -> token_letter l = true -> first_char_is l s = false.
Proof.
  intros [Hne Hw] Hl. specialize (Hw l Hl).
  destruct s as [|c s]; [reflexivity|]. cbn [without first_char_is] in *.
  apply andb_prop in Hw as [Hc _]. now apply negb_true_iff in Hc.
Qed.

Lemma prefix_pair (l c : ascii) (s : string) :
  prefix (String l (String l "")) (String c s)
  = (c =? l)%char && first_char_is l s.
Proof.
  destruct s as [|d s]; cbn [prefix first_char_is].
  - destruct (Ascii.ascii_dec l c); now rewrite andb_false_r.
  - destruct (Ascii.ascii_dec l c) as [<-|Hc].
    + rewrite Ascii.eqb_refl. destruct (Ascii.ascii_dec l d) as [<-|Hd].
      * rewrite Ascii.eqb_refl. now destruct s.
      * cbn [andb]. symmetry. apply Ascii.eqb_neq. congruence.
    + symmetry. apply andb_false_iff. left. apply Ascii.eqb_neq. congruence.
Qed.

(** One pass on a text that starts with a character no token of two
    letters starts at *)
Lemma pass_other (l : ascii) (replacement : string) (c : ascii) (s : string) :
  (c =? l)%char && first_char_is l s = false ->
  replace_all (String l (String l "")) replacement (String c s)
  = String c (replace_all (String l (String l "")) replacement s).
Proof.
  intro H. rewrite replace_all_cons by discriminate.
  now rewrite prefix_pair, H.
Qed.

Definition starts_with_token (s : string) : bool :=
  prefix "YYYY" s || prefix "MM" s || prefix "DD" s || prefix "HH" s
  || prefix "mm" s || prefix "ss" s.

Ltac plain_text :=
  first [apply plain_integer | apply plain_padded].

Ltac skip_plain :=
  match goal with
  | |- context [replace_all (String ?l ?p) ?r (?a ++ ?s)] =>
      rewrite (replace_all_skip l p r a s);
      [| first [reflexivity
               | match goal with
                 | |- without _ ?t = true =>
                     let H := fresh in
                     assert (H : plain t) by plain_text;
                     apply (proj2 H); reflexivity
                 end]]
  end.

Lemma formatDate_equations (date : JSDate) :
  formatDate date "" = ""
  /\ (forall rest,
         formatDate date ("YYYY" ++ rest)
         = year_text date ++ formatDate date rest)
  /\ (forall rest,
         formatDate date ("MM" ++ rest)
         = month_text date ++ formatDate date rest)
  /\ (forall rest,
         formatDate date ("DD" ++ rest)
         = day_text date ++ formatDate date rest)
  /\ (forall rest,
         formatDate date ("HH" ++ rest)
         = hours_text date ++ formatDate date rest)
  /\ (forall rest,
         formatDate date ("mm" ++ rest)
         = minutes_text date ++ formatDate date rest)
  /\ (forall rest,
         formatDate date ("ss" ++ rest)
         = seconds_text date ++ formatDate date rest)
  /\ (forall c rest,
         starts_with_token (String c rest) = false ->
         formatDate date (String c rest) = String c (formatDate date rest)).
Proof.
  split; [reflexivity|].
  split; [|split; [|split; [|split; [|split; [|split]]]]].
  - intro rest. rewrite !formatDate_passes.
    rewrite (replace_all_token "YYYY") by discriminate.
    now repeat skip_plain.
  - intro rest. rewrite !formatDate_passes.
    rewrite (replace_all_skip "Y" "YYY" _ "MM" rest) by reflexivity.
    rewrite (replace_all_token "MM") by discriminate.
    now repeat skip_plain.
  - intro rest. rewrite !formatDate_passes.
    rewrite (replace_all_skip "Y" "YYY" _ "DD" rest) by reflexivity.
    rewrite (replace_all_skip "M" "M" _ "DD") by reflexivity.
    rewrite (replace_all_token "DD") by discriminate.
    now repeat skip_plain.
  - intro rest. rewrite !formatDate_passes.
    rewrite (replace_all_skip "Y" "YYY" _ "HH" rest) by reflexivity.
    rewrite (replace_all_skip "M" "M" _ "HH") by reflexivity.
    rewrite (replace_all_skip "D" "D" _ "HH") by reflexivity.
    rewrite (replace_all_token "HH") by discriminate.
    now repeat skip_plain.
  - intro rest. rewrite !formatDate_passes.
    rewrite (replace_all_skip "Y" "YYY" _ "mm" rest) by reflexivity.
    rewrite (replace_all_skip "M" "M" _ "mm") by reflexivity.
    rewrite (replace_all_skip "D" "D" _ "mm") by reflexivity.
    rewrite (replace_all_skip "H" "H" _ "mm") by reflexivity.
    rewrite (replace_all_token "mm") by discriminate.
    now repeat skip_plain.
  - intro rest. rewrite !formatDate_passes.
    rewrite (replace_all_skip "Y" "YYY" _ "ss" rest) by reflexivity.
    rewrite (replace_all_skip "M" "M" _ "ss") by reflexivity.
    rewrite (replace_all_skip "D" "D" _ "ss") by reflexivity.
    rewrite (replace_all_skip "H" "H" _ "ss") by reflexivity.
    rewrite (replace_all_skip "m" "m" _ "ss") by reflexivity.
    rewrite (replace_all_token "ss") by discriminate.
    reflexivity.
  - intros c rest H. unfold starts_with_token in H.
    repeat (apply orb_false_iff in H; destruct H as [H ?]).
    rewrite !formatDate_passes.
    rewrite (replace_all_cons "YYYY") by discriminate. rewrite H.
    repeat match goal with
           | Hp : prefix (String ?l (String ?l "")) (String c rest) = false
             |- context [replace_all (String ?l (String ?l "")) ?r (String c ?x)] =>
               rewrite (pass_other l r c x);
               [clear Hp
               | rewrite prefix_pair in Hp;
                 apply andb_false_iff in Hp as [Hp|Hp];
                 [now rewrite Hp|];
                 apply andb_false_iff; right;
                 apply not_true_is_false; intro Hhead;
                 repeat (apply replace_all_head in Hhead;
                         [| discriminate
                          | first [apply plain_integer | apply plain_padded]
                          | apply plain_head; [plain_text | reflexivity]]);
                 congruence]
           end.
    reflexivity.
Qed.
(** X7: [formatDate] works as one pass from left to right, although the
    code makes six: where the pattern starts with [YYYY], [MM], [DD],
    [HH], [mm] or [ss] the token gives its field (the year as it is,
    the month plus one, the others as they are, each of the five padded
    with zeros to two characters) and the pass goes on after the token;
    any other character is copied.  A field written into the result is
    never read again as a token, and no token forms across a field. *)
Theorem X7_formatDate_is_one_pass (date : JSDate) :
  formatDate date "" = ""
  /\ (forall rest,
         formatDate date ("YYYY" ++ rest)
         = integer_toString (getter fullYear date) ++ formatDate date rest)
  /\ (forall rest,
         formatDate date ("MM" ++ rest)
         = padStart0 2 (integer_toString (plus_one (getter month date)))
           ++ formatDate date rest)
  /\ (forall rest,
         formatDate date ("DD" ++ rest)
         = padStart0 2 (integer_toString (getter day date))
           ++ formatDate date rest)
  /\ (forall rest,
         formatDate date ("HH" ++ rest)
         = padStart0 2 (integer_toString (getter hours date))
           ++ formatDate date rest)
  /\ (forall rest,
         formatDate date ("mm" ++ rest)
         = padStart0 2 (integer_toString (getter minutes date))
           ++ formatDate date rest)
  /\ (forall rest,
         formatDate date ("ss" ++ rest)
         = padStart0 2 (integer_toString (getter seconds date))
           ++ formatDate date rest)
  /\ (forall c rest,
         starts_with_token (String c rest) = false ->
         formatDate date (String c rest) = String c (formatDate date rest)).
Proof. exact (formatDate_equations date). Qed.

(** *** Patterns without a token *)

Fixpoint token_free (s : string) : bool :=
  match s with
  | EmptyString => true
  | String c s' => negb (starts_with_token s) && token_free s'
  end.

(** X8: a pattern in which none of the six tokens occurs is returned as
    it is, for a valid date and for an invalid one. *)
Theorem X8_pattern_without_tokens_is_kept (date : JSDate) (format : string)
  (Hfree : token_free format = true) :
  formatDate date format = format.
Proof.
  destruct (formatDate_equations date) as (_ & _ & _ & _ & _ & _ & _ & Hother).
  induction format as [|c format IH]; [reflexivity|].
  cbn [token_free] in Hfree. apply andb_prop in Hfree as [Hc Hrest].
  apply negb_true_iff in Hc. rewrite (Hother c format Hc). f_equal.
  now apply IH.
Qed.

Lemma X8_pattern_without_tokens_witness :
  formatDate InvalidDate "Yesterday, Dec. 1st (hms)" = "Yesterday, Dec. 1st (hms)".
Proof. apply X8_pattern_without_tokens_is_kept. reflexivity. Defined.

(** *** Dates whose fields have the usual ranges *)

(** A year of four digits; a month from 0 to 11; a day, an hour, a minute
    and a second of at most two digits *)
Definition usual (fields : DateFields) : Prop :=
  (1000 <= fullYear fields <= 9999 /\ 0 <= month fields <= 11
   /\ 0 <= day fields <= 99 /\ 0 <= hours fields <= 99
   /\ 0 <= minutes fields <= 99 /\ 0 <= seconds fields <= 99)%Z.

Lemma width_by_cases (width : nat) (first count : Z) (pad : string -> string)
  (z : Z) :
  forallb (fun n => (length (pad (integer_toString (Some (first + Z.of_nat n)%Z)))
                     =? width)%nat)
    (seq 0 (Z.to_nat count)) = true ->
  (first <= z < first + count)%Z ->
  length (pad (integer_toString (Some z))) = width.
Proof.
  intros H Hz. rewrite forallb_forall in H.
  specialize (H (Z.to_nat (z - first))).
  replace (first + Z.of_nat (Z.to_nat (z - first)))%Z with z in H by lia.
  apply Nat.eqb_eq, H, in_seq. lia.
Qed.

Lemma year_width (z : Z) :
  (1000 <= z <= 9999)%Z -> length (integer_toString (Some z)) = 4%nat.
Proof.
  intro H. apply (width_by_cases 4 1000 9000 (fun s => s)); [|lia].
  vm_compute. reflexivity.
Qed.

Lemma field_width (z : Z) :
  (0 <= z <= 99)%Z -> length (padStart0 2 (integer_toString (Some z))) = 2%nat.
Proof.
  intro H. apply (width_by_cases 2 0 100 (padStart0 2)); [|lia].
  vm_compute. reflexivity.
Qed.

Lemma starts_with_token_cases (s : string) :
  starts_with_token s = true ->
  exists token rest,
    s = token ++ rest
    /\ In token ["YYYY"; "MM"; "DD"; "HH"; "mm"; "ss"].
Proof.
  assert (Hp : forall p, prefix p s = true -> s = p ++ drop (length p) s).
  { intro p. revert s. induction p as [|c p IH]; intros [|d s];
      cbn [prefix append length drop]; try reflexivity; try discriminate.
    destruct (Ascii.ascii_dec c d) as [<-|]; [|discriminate].
    intro H. f_equal. now apply IH. }
  unfold starts_with_token. intro H.
  repeat (apply orb_prop in H; destruct H as [H|H]);
    apply Hp in H; eexists; eexists; (split; [exact H|]); cbn [In]; auto 7.
Qed.

(** X9: for a date whose fields have the usual ranges, every token is
    replaced by a text of its own width, so that the result is as long as
    the pattern, whatever the pattern. *)
Theorem X9_usual_dates_keep_the_width (fields : DateFields) (format : string)
  (Husual : usual fields) :
  length (formatDate (ValidDate fields) format) = length format.
Proof.
  destruct Husual as (Hy & Hm & Hd & Hh & Hmin & Hs).
  destruct (formatDate_equations (ValidDate fields))
    as (Hempty & HYYYY & HMM & HDD & HHH & Hmm & Hss & Hother).
  assert (H : forall n format,
             (length format <= n)%nat ->
             length (formatDate (ValidDate fields) format) = length format).
  { induction n as [|n IH]; intros text Hn.
    - destruct text; [reflexivity | cbn [length] in Hn; lia].
    - destruct text as [|c text]; [reflexivity|].
      destruct (starts_with_token (String c text)) eqn:E.
      + apply starts_with_token_cases in E as (token & rest & Htext & Hin).
        rewrite Htext in Hn |- *. rewrite length_append in Hn.
        cbn [In] in Hin.
        destruct Hin as [<-|[<-|[<-|[<-|[<-|[<-|[]]]]]]];
          [rewrite HYYYY | rewrite HMM | rewrite HDD | rewrite HHH
           | rewrite Hmm | rewrite Hss];
          rewrite !length_append, IH by (cbn [length] in Hn; lia);
          unfold year_text, month_text, day_text, hours_text, minutes_text,
            seconds_text; cbn [getter plus_one];
          rewrite ?year_width, ?field_width by lia; reflexivity.
      + rewrite (Hother c text E). cbn [length]. f_equal.
        apply IH. cbn [length] in Hn. lia. }
  now apply (H (length format)).
Qed.

Lemma X9_usual_dates_witness :
  length (formatDate
            (ValidDate {| fullYear := 2024; month := 0; day := 15;
                          hours := 10; minutes := 30; seconds := 0;
                          isoString := "2024-01-15T10:30:00.000Z" |})
            "DD/MM/YYYY at HH:mm:ss")
  = 22%nat.
Proof.
  apply (X9_usual_dates_keep_the_width
           {| fullYear := 2024; month := 0; day := 15;
              hours := 10; minutes := 30; seconds := 0;
              isoString := "2024-01-15T10:30:00.000Z" |}
           "DD/MM/YYYY at HH:mm:ss").
  unfold usual. cbn. lia.
Defined.

(** X10: an empty string counts as an absent argument, for the date and
    for the pattern; without a date the tool formats the current time and
    reports no error. *)
Theorem X10_empty_arguments_are_absent (host : DateHost)
  (date format : option string) :
  format_date host (Some "") format = format_date host None format
  /\ format_date host date (Some "") = format_date host date None
  /\ format_date host None format
     = match format with
       | None | Some "" => [isoString (Date_now host)]
       | Some pattern => [formatDate (ValidDate (Date_now host)) pattern]
       end.
Proof.
  repeat split. unfold format_date, truthy.
  destruct format as [[|c pattern]|]; reflexivity.
Qed.

(** ** calculate: comments, division by zero, leading zeros *)

(** X11: two slashes open a comment that runs to the end of the
    sanitized text: when the text before them is an arithmetic expression,
    the result is the value of that expression alone, whatever follows;
    [7 // 2] gives 7. *)
Theorem X11_double_slash_hides_the_rest
  (exponentiate : float -> float -> float) (expression : string) (t : arith)
  (comment : string) (Hwf : well_formed t = true)
  (Hsan : sanitize expression = write t ++ "//" ++ comment) :
  calculate exponentiate expression
  = ["Result: " ++ Number.toString (value_of t)].
Proof.
  unfold calculate.
  rewrite Hsan, (eval_write_comment exponentiate t comment Hwf).
  reflexivity.
Qed.

Lemma X11_double_slash_witness :
  calculate no_exponentiation "7 // 2" = ["Result: 7"]
  /\ calculate no_exponentiation "-7 // 2" = ["Result: -7"]
  /\ calculate no_exponentiation "(1 + 2) * 3 // 4 - 5" = ["Result: 9"].
Proof.
  split; [|split].
  - apply (X11_double_slash_hides_the_rest no_exponentiation "7 // 2"
             (Literal "7" None) "2"); reflexivity.
  - apply (X11_double_slash_hides_the_rest no_exponentiation "-7 // 2"
             (Negative (Literal "7" None)) "2"); reflexivity.
  - apply (X11_double_slash_hides_the_rest no_exponentiation
             "(1 + 2) * 3 // 4 - 5"
             (Product (Group (Sum (Literal "1" None) (Literal "2" None)))
                (Literal "3" None)) "4-5"); reflexivity.
Defined.

(** X12: a division, of any arithmetic expression by any one whose value
    is a zero, is not an error: the result is NaN when the dividend is a
    zero too (or NaN), and otherwise the infinity whose sign is the product
    of the two signs. *)
Theorem X12_division_by_zero_is_no_error
  (exponentiate : float -> float -> float) (expression : string)
  (a b : arith) (sign : bool) (Hwf : well_formed (Quotient a b) = true)
  (Hzero : Prim2SF (value_of b) = S754_zero sign)
  (Hsan : sanitize expression = write (Quotient a b)) :
  calculate exponentiate expression
  = ["Result: "
     ++ match Prim2SF (value_of a) with
        | S754_finite s _ _ | S754_infinity s =>
            if xorb s sign then "-Infinity" else "Infinity"
        | _ => "NaN"
        end].
Proof.
  unfold calculate.
  rewrite Hsan, (eval_write exponentiate (Quotient a b) Hwf).
  cbn [bind try_catch JSEval.ToString value_of]. do 2 f_equal.
  unfold Number.toString. rewrite div_spec, Hzero.
  destruct (Prim2SF (value_of a)) as [s|s| |s m e]; cbn [SF64div SFdiv];
    try reflexivity; unfold SF64div, SFdiv; now destruct (xorb s sign).
Qed.

Lemma X12_division_by_zero_witness :
  calculate no_exponentiation "1/0" = ["Result: Infinity"]
  /\ calculate no_exponentiation "1/-0" = ["Result: -Infinity"]
  /\ calculate no_exponentiation "1/(0)" = ["Result: Infinity"]
  /\ calculate no_exponentiation "(2-3)/(1-1)" = ["Result: -Infinity"]
  /\ calculate no_exponentiation "0/0" = ["Result: NaN"].
Proof.
  split; [|split; [|split; [|split]]].
  - apply (X12_division_by_zero_is_no_error no_exponentiation "1/0"
             (Literal "1" None) (Literal "0" None) false); reflexivity.
  - apply (X12_division_by_zero_is_no_error no_exponentiation "1/-0"
             (Literal "1" None) (Negative (Literal "0" None)) true);
      reflexivity.
  - apply (X12_division_by_zero_is_no_error no_exponentiation "1/(0)"
             (Literal "1" None) (Group (Literal "0" None)) false);
      reflexivity.
  - apply (X12_division_by_zero_is_no_error no_exponentiation "(2-3)/(1-1)"
             (Group (Difference (Literal "2" None) (Literal "3" None)))
             (Group (Difference (Literal "1" None) (Literal "1" None))) false);
      reflexivity.
  - apply (X12_division_by_zero_is_no_error no_exponentiation "0/0"
             (Literal "0" None) (Literal "0" None) false); reflexivity.
Defined.

(** X13: a sanitized text that starts with a zero followed by a digit is
    read as an octal-like literal, which strict code forbids: the result
    is the error text, whatever follows ([007], [08:30], [0123+1]). *)
Theorem X13_leading_zero_is_rejected
  (exponentiate : float -> float -> float) (expression : string)
  (d : ascii) (rest : string) (Hd : is_digit d = true)
  (Hsan : sanitize expression = String "0" (String d rest)) :
  calculate exponentiate expression
  = ["Error: Could not evaluate expression '" ++ expression ++ "'"].
Proof.
  unfold calculate, JSEval.eval. rewrite Hsan.
  cbn [length JSEval.lex]. cbn [Ascii.eqb Bool.eqb andb orb is_digit].
  change (is_digit "0") with true. cbn [orb negb andb].
  unfold JSEval.scan_number. cbn [JSEval.span_digits].
  change (is_digit "0") with true. cbn iota. rewrite Hd.
  destruct (JSEval.span_digits rest) as [digits r].
  destruct (if JSEval.starts_with "." r
            then JSEval.span_digits (drop 1 r) else ("", r)) as [fraction rest'].
  reflexivity.
Qed.

Lemma X13_leading_zero_witness :
  calculate no_exponentiation "08:30"
  = ["Error: Could not evaluate expression '08:30'"].
Proof.
  apply (X13_leading_zero_is_rejected no_exponentiation "08:30" "8" "30");
    reflexivity.
Defined.

(** ** calculate: characters removed inside a number *)

(** A text that holds no character of the kept set *)
Fixpoint none_kept (s : string) : bool :=
  match s with
  | EmptyString => true
  | String c s' => negb (in_kept_set c) && none_kept s'
  end.

Lemma sanitize_append (a b : string) :
  sanitize (a ++ b) = sanitize a ++ sanitize b.
Proof.
  unfold sanitize.
  induction a as [|c a IH]; cbn [append remove_matching]; [reflexivity|].
  destruct (negb (class_matches kept_class c)); cbn [append]; now rewrite IH.
Qed.

Lemma sanitize_none_kept (s : string) : none_kept s = true -> sanitize s = "".
Proof.
  unfold sanitize.
  induction s as [|c s IH]; cbn [none_kept remove_matching]; [reflexivity|].
  intro H. apply andb_prop in H as [Hc Hs].
  rewrite class_matches_kept, Hc. now apply IH.
Qed.

(** X14: characters outside the kept set are removed before anything is
    read, so that what stands on their two sides is joined: the text with
    such a run and the text without it are sanitized to the same text and
    have the same result, or each the error text with its own expression;
    when the sanitized text is an arithmetic expression the result is its
    value; [1,000+1] gives 1001 and [1 2] gives 12. *)
Theorem X14_removed_characters_join_their_sides
  (exponentiate : float -> float -> float) (before removed after : string)
  (Hremoved : none_kept removed = true) :
  sanitize (before ++ removed ++ after) = sanitize (before ++ after)
  /\ (calculate exponentiate (before ++ removed ++ after)
      = calculate exponentiate (before ++ after)
      \/ (calculate exponentiate (before ++ removed ++ after)
          = could_not_evaluate (before ++ removed ++ after)
          /\ calculate exponentiate (before ++ after)
             = could_not_evaluate (before ++ after)))
  /\ (forall t,
         well_formed t = true -> sanitize (before ++ after) = write t ->
         calculate exponentiate (before ++ removed ++ after)
         = ["Result: " ++ Number.toString (value_of t)]).
Proof.
  assert (H : sanitize (before ++ removed ++ after) = sanitize (before ++ after))
    by (now rewrite !sanitize_append, (sanitize_none_kept removed Hremoved)).
  split; [exact H|]. split.
  - unfold calculate. rewrite H.
    destruct (JSEval.eval exponentiate (sanitize (before ++ after)));
      [now left | now right].
  - intros t Hwf Hsan. unfold calculate.
    rewrite H, Hsan, (eval_write exponentiate t Hwf). reflexivity.
Qed.

Lemma X14_removed_characters_witness :
  calculate no_exponentiation "1,000+1" = ["Result: 1001"]
  /\ calculate no_exponentiation "1 2" = ["Result: 12"].
Proof.
  split.
  - apply (proj2 (proj2 (X14_removed_characters_join_their_sides
                           no_exponentiation "1" "," "000+1" eq_refl))
             (Sum (Literal "1000" None) (Literal "1" None)));
      reflexivity.
  - apply (proj2 (proj2 (X14_removed_characters_join_their_sides
                           no_exponentiation "1" " " "2" eq_refl))
             (Literal "12" None)); reflexivity.
Defined.

(** ** convert: the table of conversions *)

(** The table converts from [fromUnit] to [toUnit]. *)
Definition converts (fromUnit toUnit : string) : Prop :=
  exists row conversion,
    own fromUnit conversions = Some row /\ own toUnit row = Some conversion.

Lemma converts_cases (fromUnit toUnit : string) :
  converts fromUnit toUnit ->
  In (fromUnit, toUnit)
    [("celsius", "fahrenheit"); ("fahrenheit", "celsius");
     ("kilometers", "miles"); ("miles", "kilometers");
     ("kilograms", "pounds"); ("pounds", "kilograms")].
Proof.
  intros (row & conversion & Hrow & Hconv). apply own_In in Hrow.
  destruct Hrow as [H|[H|[H|[H|[H|[H|[]]]]]]]; injection H as <- <-;
    apply own_In in Hconv; destruct Hconv as [H|[]]; injection H as <- _;
    cbn [In]; auto 10.
Qed.

(** X15: the table holds each conversion together with its inverse, and
    no conversion from a unit to itself: a request to convert a unit to
    itself is answered that the conversion is not supported. *)
Theorem X15_table_is_symmetric_without_identity :
  (forall fromUnit toUnit,
      converts fromUnit toUnit -> converts toUnit fromUnit)
  /\ (forall unit, ~ converts unit unit)
  /\ (forall builtins value unit,
         inherited unit = false ->
         convert builtins value unit unit
         = ["Error: Conversion from " ++ unit ++ " to " ++ unit
            ++ " is not supported."]).
Proof.
  split; [|split].
  - intros fromUnit toUnit H. apply converts_cases in H. cbn [In] in H.
    destruct H as [H|[H|[H|[H|[H|[H|[]]]]]]]; injection H as <- <-;
      eexists; eexists; split; reflexivity.
  - intros unit H. apply converts_cases in H. cbn [In] in H.
    destruct H as [H|[H|[H|[H|[H|[H|[]]]]]]]; injection H as <- H;
      discriminate H.
  - intros builtins value unit Hunit.
    apply convert_unsupported; try assumption.
    intros formula H. cbn [supported_pairs In] in H.
    destruct H as [H|[H|[H|[H|[H|[H|[]]]]]]]; injection H as <- H _;
      discriminate H.
Qed.

(** *** The sign of a scaled value *)

Lemma binary_round_aux_opp (s : bool) (m e : Z) (l : location) :
  SFopp (binary_round_aux prec emax s m e l)
  = binary_round_aux prec emax (negb s) m e l.
Proof.
  unfold binary_round_aux.
  destruct (shr_fexp prec emax m e l) as [mrs' e'].
  destruct (shr_fexp prec emax _ e' loc_Exact) as [mrs'' e''].
  destruct (shr_m mrs''); try reflexivity.
  now destruct (e'' <=? emax - prec)%Z.
Qed.

Lemma SFmul_opp (x c : spec_float) :
  SFmul prec emax (SFopp x) c = SFopp (SFmul prec emax x c).
Proof.
  destruct x as [sx|sx| |sx mx ex], c as [sc|sc| |sc mc ec];
    cbn [SFmul SFopp]; try reflexivity;
    try (now destruct sx, sc).
  rewrite binary_round_aux_opp. now destruct sx, sc.
Qed.

(** X16: the four conversions that only scale (kilometers and miles,
    kilograms and pounds) commute with the change of sign: the opposite
    value converts to the opposite result, for every Number. *)
Theorem X16_scaling_commutes_with_sign (fromUnit toUnit : string)
  (row : list (string * (float -> float))) (conversion : float -> float)
  (value : float)
  (Hfrom : In fromUnit ["kilometers"; "miles"; "kilograms"; "pounds"])
  (Hrow : own fromUnit conversions = Some row)
  (Hconv : own toUnit row = Some conversion) :
  conversion (- value)%float = (- conversion value)%float.
Proof.
  cbn [In] in Hfrom.
  destruct Hfrom as [<-|[<-|[<-|[<-|[]]]]]; injection Hrow as <-;
    apply own_In in Hconv; destruct Hconv as [H|[]]; injection H as _ <-;
    apply Prim2SF_inj;
    rewrite opp_spec, !mul_spec, opp_spec; apply SFmul_opp.
Qed.

Lemma X16_scaling_witness :
  ((- 26.2) * 1.60934 = - (26.2 * 1.60934))%float.
Proof.
  apply (X16_scaling_commutes_with_sign "miles" "kilometers"
           [("kilometers", fun mi => (mi * 1.60934)%float)]
           (fun mi => (mi * 1.60934)%float) 26.2%float);
    [cbn [In]; auto | reflexivity | reflexivity].
Defined.

(** ** Schema Loader: a directory of plainly named files *)

Lemma substring_take (n : nat) (s : string) : substring 0 n s = take n s.
Proof.
  revert s. induction n as [|n IH]; intros [|c s]; cbn [substring take];
    try reflexivity.
  now rewrite IH.
Qed.

(** A name that ends in [.sql] is the name without its extension,
    followed by [.sql]. *)
Lemma endsWith_sql (file : string) :
  endsWith file ".sql" = true -> file = without_extension file ++ ".sql".
Proof.
  unfold endsWith, without_extension. intro H. apply andb_prop in H as [_ H].
  apply String.eqb_eq in H. cbn [length] in H.
  rewrite substring_take. rewrite <- H. symmetry. apply take_drop.
Qed.

Lemma remove_first_extension (base : string) :
  without "." base = true -> remove_first ".sql" (base ++ ".sql") = base.
Proof.
  induction base as [|c base IH]; cbn [without append]; [reflexivity|].
  intro H. apply andb_prop in H as [Hc Hb]. apply negb_true_iff in Hc.
  cbn [remove_first prefix].
  destruct (Ascii.ascii_dec "." c) as [<-|_]; [discriminate Hc|].
  f_equal. now apply IH.
Qed.

(** A definition file whose name holds no other point than that of its
    extension *)
Definition plainly_named (file : string) : bool :=
  endsWith file ".sql" && without "." (without_extension file).

Lemma plainly_named_table (file : string) :
  plainly_named file = true ->
  remove_first ".sql" file = without_extension file.
Proof.
  unfold plainly_named. intro H. apply andb_prop in H as [Hsql Hplain].
  rewrite (endsWith_sql file Hsql) at 1. now apply remove_first_extension.
Qed.

Lemma without_extension_inj (file file' : string) :
  endsWith file ".sql" = true -> endsWith file' ".sql" = true ->
  without_extension file = without_extension file' -> file = file'.
Proof.
  intros H H' E. rewrite (endsWith_sql file H), (endsWith_sql file' H').
  now rewrite E.
Qed.

Lemma set_fresh (k v : string) (o : JSObject.t) :
  k <> "__proto__" -> ~ In k (map fst o) ->
  JSObject.set k v o = (o ++ [(k, v)])%list.
Proof.
  intros Hk Hfresh. unfold JSObject.set.
  apply String.eqb_neq in Hk. rewrite Hk.
  apply JSObjectFacts.own_none_not_key in Hfresh.
  apply (JSObjectFacts.update_none k v) in Hfresh. now rewrite Hfresh.
Qed.

Lemma load_files_plain (fs : FileSystem) (schemasDir : string)
  (content : string -> string) (schemaFiles : list string) :
  (forall file, In file schemaFiles -> endsWith file ".sql" = true ->
                readFile fs (join schemasDir file) = Return (content file)
                /\ plainly_named file = true /\ file <> "__proto__.sql") ->
  NoDup schemaFiles ->
  forall schemas,
    (forall file, In file schemaFiles -> endsWith file ".sql" = true ->
                  ~ In (without_extension file) (map fst schemas)) ->
    load_files fs schemasDir schemaFiles schemas
    = Return (schemas
              ++ map (fun file => (without_extension file, content file))
                   (filter (fun file => endsWith file ".sql") schemaFiles))%list.
Proof.
  induction schemaFiles as [|file rest IH]; intros Hfiles Hnd schemas Hfresh;
    cbn [load_files filter map].
  - now rewrite app_nil_r.
  - inversion Hnd as [|? ? Hnotin Hnd']; subst.
    assert (Hrest : forall f, In f rest -> endsWith f ".sql" = true ->
                      readFile fs (join schemasDir f) = Return (content f)
                      /\ plainly_named f = true /\ f <> "__proto__.sql")
      by (intros f Hf; apply Hfiles; now right).
    destruct (endsWith file ".sql") eqn:Esql.
    + destruct (Hfiles file (or_introl eq_refl) Esql) as (Hread & Hplain & Hproto).
      rewrite Hread. cbn [bind]. rewrite (plainly_named_table file Hplain).
      assert (Hname : without_extension file <> "__proto__").
      { intro E. apply Hproto. rewrite (endsWith_sql file Esql), E.
        reflexivity. }
      rewrite set_fresh;
        [|exact Hname | now apply (Hfresh file (or_introl eq_refl))].
      rewrite (IH Hrest Hnd').
      * cbn [map]. now rewrite <- app_assoc.
      * intros f Hf Hfsql. rewrite map_app, in_app_iff. cbn [map fst In].
        intros [H|[H|[]]].
        -- now apply (Hfresh f (or_intror Hf) Hfsql).
        -- apply Hnotin.
           now rewrite (without_extension_inj file f Esql Hfsql H).
    + apply (IH Hrest Hnd').
      intros f Hf. apply Hfresh. now right.
Qed.

Lemma own_listed (content : string -> string) (files : list string)
  (file : string) :
  (forall f, In f files -> without_extension f = without_extension file ->
             f = file) ->
  In file files ->
  own (without_extension file)
    (map (fun f => (without_extension f, content f)) files)
  = Some (content file).
Proof.
  induction files as [|f files IH]; intros Hinj Hin; [destruct Hin|].
  cbn [map own].
  destruct (String.eqb_spec (without_extension f) (without_extension file))
    as [E|N].
  - now rewrite (Hinj f (or_introl eq_refl) E).
  - destruct Hin as [->|Hin]; [now elim N|].
    apply IH; [|exact Hin]. intros f' Hf'. apply Hinj. now right.
Qed.

Lemma filter_all {A : Type} (f : A -> bool) (l : list A) :
  Forall (fun x => f x = true) l -> filter f l = l.
Proof.
  induction 1 as [|x l Hx _ IH]; cbn [filter]; [reflexivity|].
  now rewrite Hx, IH.
Qed.

Lemma filter_none {A : Type} (f : A -> bool) (l : list A) :
  Forall (fun x => f x = false) l -> filter f l = [].
Proof.
  induction 1 as [|x l Hx _ IH]; cbn [filter]; [reflexivity|].
  now rewrite Hx.
Qed.

(** X17: for a directory that can be listed, whose definition files can
    be read and are plainly named (no point in the name but that of the
    extension, and not [__proto__.sql]), the loaded mapping holds exactly
    one table for each definition file: the name without the extension,
    with the text of the file.  [Object.entries] yields first the tables
    whose names are array indices, by ascending index, then the others in
    the order of the listing; when no name is an array index, that is the
    order of the listing.  Files that do not end in [.sql] leave no
    trace. *)
Theorem X17_plain_directory_loads_as_listed (fs : FileSystem) (cwd : string)
  (schemaFiles : list string) (content : string -> string)
  (Hdir : readdir fs (schemas_dir cwd) = Return schemaFiles)
  (Hdistinct : NoDup schemaFiles)
  (Hfiles : forall file,
      In file schemaFiles -> endsWith file ".sql" = true ->
      readFile fs (join (schemas_dir cwd) file) = Return (content file)
      /\ plainly_named file = true /\ file <> "__proto__.sql") :
  let definitions := filter (fun file => endsWith file ".sql") schemaFiles in
  let table := fun file => (without_extension file, content file) in
  (forall file,
      In file definitions ->
      own (without_extension file) (loadDatabaseSchemas fs cwd)
      = Some (content file))
  /\ List.length (JSObject.keys (loadDatabaseSchemas fs cwd))
     = List.length definitions
  /\ (exists indices,
        JSObject.entries (loadDatabaseSchemas fs cwd)
        = (indices
           ++ map table
                (filter (fun file => negb (is_index (table file)))
                   definitions))%list
        /\ Permutation indices
             (map table (filter (fun file => is_index (table file))
                           definitions))
        /\ StronglySorted (fun a b => (index_of a <= index_of b)%N) indices)
  /\ (Forall (fun file => JSObject.array_index (without_extension file) = None)
         definitions ->
      JSObject.entries (loadDatabaseSchemas fs cwd) = map table definitions).
Proof.
  intros definitions table.
  assert (Hload : loadDatabaseSchemas fs cwd = map table definitions).
  { unfold loadDatabaseSchemas. rewrite Hdir. cbn [bind].
    rewrite (load_files_plain fs (schemas_dir cwd) content schemaFiles Hfiles
               Hdistinct JSObject.empty); [reflexivity|].
    intros file _ _ []. }
  rewrite Hload.
  pose proof (split_keys_spec (map table definitions)) as Hsplit.
  split; [|split; [|split]].
  - intros file Hin. apply own_listed; [|exact Hin].
    intros f Hf E. unfold definitions in Hf, Hin.
    apply filter_In in Hf as [_ Hf]. apply filter_In in Hin as [_ Hin].
    now apply without_extension_inj.
  - unfold JSObject.keys. rewrite List.length_map.
    rewrite (Permutation_length
               (JSObjectFacts.entries_perm (map table definitions))).
    apply List.length_map.
  - unfold JSObject.entries.
    destruct (JSObject.split_keys (map table definitions)) as [ix rest].
    destruct Hsplit as (Hi & Ha & Hp & ->).
    exists (map snd ix). split; [|split].
    + f_equal. clear. induction definitions as [|f l IH]; [reflexivity|].
      cbn [map filter]. destruct (is_index (table f)); cbn [negb map];
        now rewrite IH.
    + rewrite Hp. apply Permutation_refl'. clear.
      induction definitions as [|f l IH]; [reflexivity|].
      cbn [map filter]. destruct (is_index (table f)); cbn [map];
        now rewrite IH.
    + now apply ascending_entries.
  - intro Hplain. unfold JSObject.entries.
    destruct (JSObject.split_keys (map table definitions)) as [ix rest].
    destruct Hsplit as (Hi & Ha & Hp & ->).
    assert (Hnone : Forall (fun entry => is_index entry = false)
                      (map table definitions)).
    { apply Forall_forall. intros entry Hin.
      apply in_map_iff in Hin as (file & <- & Hin).
      rewrite Forall_forall in Hplain. specialize (Hplain file Hin).
      unfold is_index, table. cbn [fst]. now rewrite Hplain. }
    rewrite (filter_none _ _ Hnone) in Hp.
    apply Permutation_sym, Permutation_nil in Hp. rewrite Hp. cbn [app].
    apply filter_all. revert Hnone. apply Forall_impl.
    intros entry ->. reflexivity.
Qed.

(** The directory of the repository *)
Definition fs_hr : FileSystem := {|
  readdir := fun _ =>
    Return ["departments.sql"; "README.md"; "employees.sql"; "projects.sql"];
  readFile := fun path => Return ("-- " ++ path)
|}.

(** A directory of numbered dumps *)
Definition fs_numbered : FileSystem := {|
  readdir := fun _ => Return ["b.sql"; "10.sql"; "README.md"; "2.sql"];
  readFile := fun path => Return ("-- " ++ path)
|}.

Lemma X17_plain_directory_witness :
  JSObject.entries (loadDatabaseSchemas fs_hr "/srv")
  = [("departments", "-- /srv/app/schemas/departments.sql");
     ("employees", "-- /srv/app/schemas/employees.sql");
     ("projects", "-- /srv/app/schemas/projects.sql")]
  /\ own "10" (loadDatabaseSchemas fs_numbered "/srv")
     = Some "-- /srv/app/schemas/10.sql"
  /\ List.length (JSObject.keys (loadDatabaseSchemas fs_numbered "/srv")) = 3.
Proof.
  assert (Hhr : forall file,
             In file ["departments.sql"; "README.md"; "employees.sql";
                      "projects.sql"] ->
             endsWith file ".sql" = true ->
             readFile fs_hr (join (schemas_dir "/srv") file)
             = Return ("-- /srv/app/schemas/" ++ file)
             /\ plainly_named file = true /\ file <> "__proto__.sql").
  { intros file [<-|[<-|[<-|[<-|[]]]]] H; try discriminate H;
      repeat split; discriminate. }
  assert (Hnumbered : forall file,
             In file ["b.sql"; "10.sql"; "README.md"; "2.sql"] ->
             endsWith file ".sql" = true ->
             readFile fs_numbered (join (schemas_dir "/srv") file)
             = Return ("-- /srv/app/schemas/" ++ file)
             /\ plainly_named file = true /\ file <> "__proto__.sql").
  { intros file [<-|[<-|[<-|[<-|[]]]]] H; try discriminate H;
      repeat split; discriminate. }
  assert (Dhr : NoDup ["departments.sql"; "README.md"; "employees.sql";
                       "projects.sql"])
    by (repeat constructor; cbn [In]; intuition discriminate).
  assert (Dnumbered : NoDup ["b.sql"; "10.sql"; "README.md"; "2.sql"])
    by (repeat constructor; cbn [In]; intuition discriminate).
  split; [|split].
  - apply (proj2 (proj2 (proj2
             (X17_plain_directory_loads_as_listed fs_hr "/srv" _ _
                eq_refl Dhr Hhr)))).
    repeat constructor.
  - apply (proj1 (X17_plain_directory_loads_as_listed fs_numbered "/srv" _ _
                    eq_refl Dnumbered Hnumbered) "10.sql").
    cbn. tauto.
  - apply (proj1 (proj2 (X17_plain_directory_loads_as_listed fs_numbered
                           "/srv" _ _ eq_refl Dnumbered Hnumbered))).
Defined.

(** In the directory of numbered dumps the tables are met in the order
    [2], [10], [b], not in that of the listing. *)
Lemma numbered_directory_order :
  JSObject.keys (loadDatabaseSchemas fs_numbered "/srv") = ["2"; "10"; "b"].
Proof. reflexivity. Qed.

